(** * Distributed-monolith sample generator (generator.py)

    A shallow embedding of the topology generator of
    [sample/distributed-monolith/generator.py]: label pools that are shuffled
    and consumed destructively, the ordered node table, the edge table with
    its shared id counter, the static layer table, and the three CSV files
    written at the very end of the script.

    The script is a straight-line Python module working on module-level
    mutable objects.  It is embedded as a state-and-exception monad over one
    record holding these objects.  Python's [random] module is embedded by
    its documented behaviour, every outcome being decided by an oracle (a
    sequence of naturals) that is part of the state, so that a statement
    quantified over the oracle covers every possible run. *)

From Stdlib Require Import String Ascii.
From Stdlib Require Import List Arith Lia Bool PeanoNat Permutation FinFun.
From Stdlib Require Import DecimalString DecimalNat.
Import ListNotations.
Open Scope string_scope.
Open Scope list_scope.

(** ** Python built-ins used by the script *)

(** [str(n)] for a non-negative integer: its decimal numeral. *)
Definition str (n : nat) : string := NilEmpty.string_of_uint (Nat.to_uint n).

(** [range(n)]. *)
Definition range (n : nat) : list nat := seq 0 n.

Definition is_ascii_lower (c : ascii) : bool :=
  (97 <=? nat_of_ascii c)%nat && (nat_of_ascii c <=? 122)%nat.

Definition is_ascii_upper (c : ascii) : bool :=
  (65 <=? nat_of_ascii c)%nat && (nat_of_ascii c <=? 90)%nat.

Definition ascii_upper (c : ascii) : ascii :=
  if is_ascii_lower c then ascii_of_nat (nat_of_ascii c - 32) else c.

Definition ascii_lower (c : ascii) : ascii :=
  if is_ascii_upper c then ascii_of_nat (nat_of_ascii c + 32) else c.

(** [s.upper()], [s.lower()] and [s.capitalize()] on ASCII text. *)
Fixpoint upper (s : string) : string :=
  match s with
  | EmptyString => EmptyString
  | String c r => String (ascii_upper c) (upper r)
  end.

Fixpoint lower (s : string) : string :=
  match s with
  | EmptyString => EmptyString
  | String c r => String (ascii_lower c) (lower r)
  end.

Definition capitalize (s : string) : string :=
  match s with
  | EmptyString => EmptyString
  | String c r => String (ascii_upper c) (lower r)
  end.

(** [str(b)] for a boolean. *)
Definition str_bool (b : bool) : string := if b then "True" else "False".

(** [x or ""] for an optional string: [None] and the empty string are both
    falsy. *)
Definition or_empty (x : option string) : string :=
  match x with
  | Some s => s
  | None => ""
  end.

(** [l[i] = v] on a list, for an index in range. *)
Fixpoint list_set {A : Type} (i : nat) (v : A) (l : list A) : list A :=
  match l, i with
  | [], _ => []
  | _ :: t, 0 => v :: t
  | h :: t, S i' => h :: list_set i' v t
  end.

(** [x[i], x[j] = x[j], x[i]]: the right-hand side is evaluated first, then
    [x[i]] and [x[j]] are assigned in that order. *)
Definition swap {A : Type} (i j : nat) (x : list A) : list A :=
  match nth_error x j, nth_error x i with
  | Some xj, Some xi => list_set j xi (list_set i xj x)
  | _, _ => x
  end.

(** The list without its element at position [j]. *)
Fixpoint remove_nth {A : Type} (j : nat) (l : list A) : list A :=
  match l, j with
  | [], _ => []
  | _ :: t, 0 => t
  | h :: t, S j' => h :: remove_nth j' t
  end.

(** ** Configuration: the constants at the top of the script *)

Record config := {
  NUM_TABLES_PER_DB : nat;
  NUM_LAMBDAS : nat;
  NUM_CONTAINERS : nat;
  NUM_STORED_PROCS : nat;
  NUM_API_GATEWAY_TARGETS : nat;
  NUM_S3_BUCKETS : nat;
  DBS : list string
}.

(** The values the script sets. *)
Definition script_config : config := {|
  NUM_TABLES_PER_DB := 40;
  NUM_LAMBDAS := 35;
  NUM_CONTAINERS := 10;
  NUM_STORED_PROCS := 15;
  NUM_API_GATEWAY_TARGETS := 12;
  NUM_S3_BUCKETS := 15;
  DBS := ["mysql"; "postgres"]
|}.

(** ** Data model *)

(** The four keys of the [resource_labels] dictionary.  The dictionary is
    created with exactly these keys and no key is ever added or removed, so
    it is a total map from [category] to label lists. *)
Inductive category : Type :=
| lambda_function
| ecs_container
| database_table
| s3_object_store.

Definition category_eqb (a b : category) : bool :=
  match a, b with
  | lambda_function, lambda_function
  | ecs_container, ecs_container
  | database_table, database_table
  | s3_object_store, s3_object_store => true
  | _, _ => false
  end.

(** A row of [nodes]: [[node_id, label, layer, str(is_partition).lower(),
    belongs_to or "", comment or ""]]. *)
Record node := {
  node_id : string;
  node_label : string;
  node_layer : string;
  is_partition : string;
  belongs_to : string;
  node_comment : string
}.

(** A row of [edges]: [[edge_id, source, target, label, layer,
    comment or ""]]. *)
Record edge := {
  edge_id : string;
  source : string;
  target : string;
  edge_label : string;
  edge_layer : string;
  edge_comment : string
}.

(** A row of [layers]: [(k, k.capitalize(), *v)]. *)
Record layer := {
  layer_id : string;
  layer_label : string;
  background_color : string;
  text_color : string;
  border_color : string
}.

(** A CSV file as [write_csv] produces it: name, header and rows. *)
Record csv_file := {
  filename : string;
  header : list string;
  rows : list (list string)
}.

(** The exceptions the script can raise, with Python's messages. *)
Inductive exn : Type :=
| IndexError (msg : string)
| ValueError (msg : string).

(** Removing an element from an empty label list. *)
Definition PoolExhaustedError : exn := IndexError "pop from empty list".

(** A sample without replacement larger than its population. *)
Definition InsufficientPopulationError : exn :=
  ValueError "Sample larger than population or is negative".

(** The [resource_labels] dictionary: one list per key. *)
Record label_lists := {
  of_lambda_function : list string;
  of_ecs_container : list string;
  of_database_table : list string;
  of_s3_object_store : list string
}.

Definition lookup (d : label_lists) (c : category) : list string :=
  match c with
  | lambda_function => of_lambda_function d
  | ecs_container => of_ecs_container d
  | database_table => of_database_table d
  | s3_object_store => of_s3_object_store d
  end.

Definition store (d : label_lists) (c : category) (l : list string) : label_lists :=
  match c with
  | lambda_function =>
      {| of_lambda_function := l; of_ecs_container := of_ecs_container d;
         of_database_table := of_database_table d;
         of_s3_object_store := of_s3_object_store d |}
  | ecs_container =>
      {| of_lambda_function := of_lambda_function d; of_ecs_container := l;
         of_database_table := of_database_table d;
         of_s3_object_store := of_s3_object_store d |}
  | database_table =>
      {| of_lambda_function := of_lambda_function d;
         of_ecs_container := of_ecs_container d; of_database_table := l;
         of_s3_object_store := of_s3_object_store d |}
  | s3_object_store =>
      {| of_lambda_function := of_lambda_function d;
         of_ecs_container := of_ecs_container d;
         of_database_table := of_database_table d; of_s3_object_store := l |}
  end.

(** The module-level objects of the script, the random source (the raw
    values it will deliver, and how many were taken), and the files written
    so far. *)
Record state := {
  random : nat -> nat;
  consumed : nat;
  label_dict : label_lists;
  nodes : list node;
  edges : list edge;
  edge_counter : nat;
  files : list csv_file
}.

(** [resource_labels[c]]. *)
Definition resource_labels (s : state) (c : category) : list string :=
  lookup (label_dict s) c.

Definition set_rng (p : nat) (s : state) : state :=
  {| random := random s; consumed := p; label_dict := label_dict s; nodes := nodes s;
     edges := edges s; edge_counter := edge_counter s; files := files s |}.

Definition set_labels (c : category) (l : list string) (s : state) : state :=
  {| random := random s; consumed := consumed s;
     label_dict := store (label_dict s) c l;
     nodes := nodes s; edges := edges s; edge_counter := edge_counter s;
     files := files s |}.

Definition append_node (n : node) (s : state) : state :=
  {| random := random s; consumed := consumed s; label_dict := label_dict s;
     nodes := nodes s ++ [n];
     edges := edges s; edge_counter := edge_counter s; files := files s |}.

Definition append_edge (e : edge) (s : state) : state :=
  {| random := random s; consumed := consumed s; label_dict := label_dict s;
     nodes := nodes s;
     edges := edges s ++ [e]; edge_counter := edge_counter s + 1;
     files := files s |}.

Definition append_file (f : csv_file) (s : state) : state :=
  {| random := random s; consumed := consumed s; label_dict := label_dict s;
     nodes := nodes s;
     edges := edges s; edge_counter := edge_counter s; files := files s ++ [f] |}.

(** ** The monad: state passing with exceptions

    A raised exception keeps the state reached so far: nothing is rolled
    back, and nothing after the raise is executed. *)

Inductive outcome (A : Type) : Type :=
| Ok (a : A) (s : state)
| Raised (e : exn) (s : state).

Arguments Ok {A} a s.
Arguments Raised {A} e s.

Definition M (A : Type) : Type := state -> outcome A.

Definition ret {A : Type} (a : A) : M A := fun s => Ok a s.

Definition bind {A B : Type} (m : M A) (k : A -> M B) : M B :=
  fun s =>
    match m s with
    | Ok a s' => k a s'
    | Raised e s' => Raised e s'
    end.

Definition raise {A : Type} (e : exn) : M A := fun s => Raised e s.

(** Reading a module-level object. *)
Definition gets {A : Type} (f : state -> A) : M A := fun s => Ok (f s) s.

Notation "x <- m ;; k" := (bind m (fun x => k))
  (at level 61, m at next level, right associativity).
Notation "m ;; k" := (bind m (fun _ => k))
  (at level 61, right associativity).

(** [for x in xs: body(x)]. *)
Fixpoint for_ {A : Type} (xs : list A) (body : A -> M unit) : M unit :=
  match xs with
  | [] => ret tt
  | x :: xs' => body x ;; for_ xs' body
  end.

(** ** The [random] module

    One raw value is taken from the oracle per elementary choice. *)

Definition next_raw : M nat :=
  fun s => Ok (random s (consumed s)) (set_rng (S (consumed s)) s).

(** A value in [0, n), for [0 < n]. *)
Definition randbelow (n : nat) : M nat :=
  r <- next_raw ;; ret (r mod n).

(** [random.choice(seq)]. *)
Definition random_choice {A : Type} (seq : list A) : M A :=
  match seq with
  | [] => raise (IndexError "Cannot choose from an empty sequence")
  | d :: _ => i <- randbelow (length seq) ;; ret (nth i seq d)
  end.

(** [random.randint(a, b)]: both ends included. *)
Definition random_randint (a b : nat) : M nat :=
  if (b <? a)%nat then raise (ValueError "empty range for randrange()")
  else r <- randbelow (b - a + 1) ;; ret (a + r).

Fixpoint sample_loop {A : Type} (k : nat) (pool : list A) : M (list A) :=
  match k with
  | 0 => ret []
  | S k' =>
      match pool with
      | [] => ret []
      | d :: _ =>
          j <- randbelow (length pool) ;;
          rest <- sample_loop k' (remove_nth j pool) ;;
          ret (nth j pool d :: rest)
      end
  end.

(** [random.sample(population, k)]: [k] elements at distinct positions. *)
Definition random_sample {A : Type} (population : list A) (k : nat) : M (list A) :=
  if (length population <? k)%nat then raise InsufficientPopulationError
  else sample_loop k population.

(** [random.shuffle(resource_labels[c])]: the in-place exchange loop
    [for i in reversed(range(1, len(x))): j = randbelow(i + 1); swap]. *)
Definition random_shuffle (c : category) : M unit :=
  fun s =>
    for_ (rev (seq 1 (length (resource_labels s c) - 1)))
         (fun i =>
            j <- randbelow (i + 1) ;;
            fun s' => Ok tt (set_labels c (swap i j (resource_labels s' c)) s'))
         s.

(** [resource_labels[c].pop()]: remove and return the last label. *)
Definition pop (c : category) : M string :=
  fun s =>
    match rev (resource_labels s c) with
    | [] => Raised PoolExhaustedError s
    | x :: r => Ok x (set_labels c (rev r) s)
    end.

(** ** The script *)

(** Lines 34-45: the layer colours and the [layers] table built from them. *)
Definition LAYER_COLORS : list (string * (string * string * string)) :=
  [ ("database", ("ffcccc", "990000", "660000"));
    ("table", ("ffebcc", "996600", "663300"));
    ("lambda", ("ccffcc", "009900", "006600"));
    ("container", ("ccccff", "000099", "000066"));
    ("stored_proc", ("ffccff", "990099", "660066"));
    ("api_gateway", ("ffff99", "999900", "666600"));
    ("s3", ("ccffff", "009999", "006666"));
    ("root", ("ffffff", "000000", "000000")) ].

Definition layers : list layer :=
  map (fun kv =>
         match kv with
         | (k, (bg, fg, bd)) =>
             {| layer_id := k; layer_label := capitalize k;
                background_color := bg; text_color := fg; border_color := bd |}
         end)
      LAYER_COLORS.

(** Lines 49-50. *)
Definition add_node (node_id label layer : string) (is_partition : bool)
    (belongs_to comment : option string) : M unit :=
  fun s =>
    Ok tt (append_node
             {| node_id := node_id; node_label := label; node_layer := layer;
                is_partition := lower (str_bool is_partition);
                belongs_to := or_empty belongs_to;
                node_comment := or_empty comment |} s).

(** Lines 91-95. *)
Definition add_edge (source target label layer : string)
    (comment : option string) : M unit :=
  fun s =>
    let edge_id := ("edge_" ++ str (edge_counter s))%string in
    Ok tt (append_edge
             {| edge_id := edge_id; source := source; target := target;
                edge_label := label; edge_layer := layer;
                edge_comment := or_empty comment |} s).

(** Lines 133-137. *)
Definition write_csv (filename : string) (header : list string)
    (rows : list (list string)) : M unit :=
  fun s =>
    Ok tt (append_file {| filename := filename; header := header; rows := rows |} s).

Definition node_row (n : node) : list string :=
  [node_id n; node_label n; node_layer n; is_partition n; belongs_to n; node_comment n].

Definition edge_row (e : edge) : list string :=
  [edge_id e; source e; target e; edge_label e; edge_layer e; edge_comment e].

Definition layer_row (l : layer) : list string :=
  [layer_id l; layer_label l; background_color l; text_color l; border_color l].

Section Script.

Variable cfg : config.

(** Lines 28-31. *)
Definition shuffle_labels : M unit :=
  random_shuffle lambda_function ;;
  random_shuffle ecs_container ;;
  random_shuffle database_table ;;
  random_shuffle s3_object_store.

(** Lines 53-55. *)
Definition root_and_partitions : M unit :=
  add_node "project" "Project" "root" true None None ;;
  for_ ["database"; "lambda"; "container"; "stored_proc"; "api_gateway"; "s3"]
       (fun part => add_node part (capitalize part) part true (Some "project") None).

(** Lines 58-62. *)
Definition databases_and_tables : M unit :=
  for_ (DBS cfg) (fun db =>
    add_node db (upper db) "database" true (Some "database") None ;;
    for_ (range (NUM_TABLES_PER_DB cfg)) (fun i =>
      label <- pop database_table ;;
      add_node (db ++ "_table_" ++ str (i + 1))%string label "table" false (Some db) None)).

(** Lines 65-67. *)
Definition lambda_functions : M unit :=
  for_ (range (NUM_LAMBDAS cfg)) (fun i =>
    label <- pop lambda_function ;;
    add_node ("lambda_" ++ str (i + 1))%string label "lambda" false (Some "lambda") None).

(** Lines 70-72. *)
Definition containers : M unit :=
  for_ (range (NUM_CONTAINERS cfg)) (fun i =>
    label <- pop ecs_container ;;
    add_node ("container_" ++ str (i + 1))%string label "container" false
             (Some "container") None).

(** Lines 75-77. *)
Definition stored_procedures : M unit :=
  for_ (range (NUM_STORED_PROCS cfg)) (fun i =>
    db <- random_choice (DBS cfg) ;;
    add_node ("stored_proc_" ++ str (i + 1))%string
             ("Stored Procedure " ++ str (i + 1))%string "stored_proc" false (Some db) None).

(** Line 80. *)
Definition api_gateway : M unit :=
  add_node "api_gateway_instance" "API Gateway" "api_gateway" false
           (Some "api_gateway") None.

(** Lines 83-85. *)
Definition s3_buckets : M unit :=
  for_ (range (NUM_S3_BUCKETS cfg)) (fun i =>
    label <- pop s3_object_store ;;
    add_node ("s3_" ++ str (i + 1))%string label "s3" false (Some "s3") None).

(** Lines 52-85: the node table, in build order. *)
Definition build_nodes : M unit :=
  root_and_partitions ;;
  databases_and_tables ;;
  lambda_functions ;;
  containers ;;
  stored_procedures ;;
  api_gateway ;;
  s3_buckets.

(** The comprehensions [[f"lambda_{i+1}" for i in range(NUM_LAMBDAS)]] and
    the like, which the script rebuilds at each use. *)
Definition lambda_ids : list string :=
  map (fun i => ("lambda_" ++ str (i + 1))%string) (range (NUM_LAMBDAS cfg)).

Definition container_ids : list string :=
  map (fun i => ("container_" ++ str (i + 1))%string) (range (NUM_CONTAINERS cfg)).

Definition stored_proc_ids : list string :=
  map (fun i => ("stored_proc_" ++ str (i + 1))%string) (range (NUM_STORED_PROCS cfg)).

Definition s3_ids : list string :=
  map (fun i => ("s3_" ++ str (i + 1))%string) (range (NUM_S3_BUCKETS cfg)).

(** Lines 98-101. *)
Definition api_gateway_routes : M unit :=
  api_targets <- random_sample (lambda_ids ++ container_ids) (NUM_API_GATEWAY_TARGETS cfg) ;;
  for_ api_targets (fun target =>
    add_edge "api_gateway_instance" target "API Route" "api_gateway" None).

(** Lines 104-108. *)
Definition table_access : M unit :=
  for_ (lambda_ids ++ container_ids) (fun func_id =>
    n <- random_randint 3 7 ;;
    for_ (range n) (fun _ =>
      db <- random_choice (DBS cfg) ;;
      k <- random_randint 1 (NUM_TABLES_PER_DB cfg) ;;
      let table_id := (db ++ "_table_" ++ str k)%string in
      add_edge func_id table_id "Reads/Writes" "table" None)).

(** Lines 111-115. *)
Definition stored_proc_tables : M unit :=
  for_ stored_proc_ids (fun proc_id =>
    db <- random_choice (DBS cfg) ;;
    n <- random_randint 2 5 ;;
    for_ (range n) (fun _ =>
      k <- random_randint 1 (NUM_TABLES_PER_DB cfg) ;;
      let table_id := (db ++ "_table_" ++ str k)%string in
      add_edge proc_id table_id "Executes" "stored_proc" None)).

(** Lines 118-124. *)
Definition api_calls : M unit :=
  n <- random_randint 10 20 ;;
  for_ (range n) (fun _ =>
    c <- random_choice container_ids ;;
    l <- random_choice lambda_ids ;;
    add_edge c l "API Call" "container" None) ;;
  m <- random_randint 10 20 ;;
  for_ (range m) (fun _ =>
    l <- random_choice lambda_ids ;;
    c <- random_choice container_ids ;;
    add_edge l c "API Call" "lambda" None).

(** Lines 127-130.  [zip] stops at the shorter of its two arguments, as
    [combine] does. *)
Definition s3_bucket_connections : M unit :=
  s3_connections <- random_sample (lambda_ids ++ container_ids) (NUM_S3_BUCKETS cfg) ;;
  for_ (combine s3_ids s3_connections) (fun p =>
    let (s3, service) := p in
    add_edge service s3 "Stores/Reads" "s3" None).

(** Lines 88-130: the edge table.  [edges = []] and [edge_counter = 1] are
    the initial values of the state (see [initial_state]). *)
Definition generate_edges : M unit :=
  api_gateway_routes ;;
  table_access ;;
  stored_proc_tables ;;
  api_calls ;;
  s3_bucket_connections.

(** Lines 139-141. *)
Definition write_outputs : M unit :=
  ns <- gets nodes ;;
  write_csv "nodes.csv"
    ["id"; "label"; "layer"; "is_partition"; "belongs_to"; "comment"]
    (map node_row ns) ;;
  es <- gets edges ;;
  write_csv "edges.csv"
    ["id"; "source"; "target"; "label"; "layer"; "comment"]
    (map edge_row es) ;;
  write_csv "layers.csv"
    ["id"; "label"; "background_color"; "text_color"; "border_color"]
    (map layer_row layers).

(** The whole script, from the shuffles on. *)
Definition generator : M unit :=
  shuffle_labels ;;
  build_nodes ;;
  generate_edges ;;
  write_outputs.

End Script.

(** The state when line 28 is reached: the label lists as loaded from
    [resource_labels.csv], no node, no edge, the counter at 1, nothing
    written. *)
Definition initial_state (labels : category -> list string) (random : nat -> nat) : state :=
  {| random := random; consumed := 0;
     label_dict :=
       {| of_lambda_function := labels lambda_function;
          of_ecs_container := labels ecs_container;
          of_database_table := labels database_table;
          of_s3_object_store := labels s3_object_store |};
     nodes := []; edges := []; edge_counter := 1; files := [] |}.

Definition run (cfg : config) (labels : category -> list string)
    (random : nat -> nat) : outcome unit :=
  generator cfg (initial_state labels random).

(** * Program logic

    Triples over the monad, with one postcondition for normal termination and
    one for a raised exception, both on the state then reached. *)

Definition wp {A : Type} (m : M A) (Q : A -> state -> Prop)
    (E : exn -> state -> Prop) (s : state) : Prop :=
  match m s with
  | Ok a s' => Q a s'
  | Raised e s' => E e s'
  end.

Definition hoare {A : Type} (P : state -> Prop) (m : M A)
    (Q : A -> state -> Prop) (E : exn -> state -> Prop) : Prop :=
  forall s, P s -> wp m Q E s.

Lemma wp_bind {A B : Type} (m : M A) (k : A -> M B) Q E s :
  wp m (fun a s' => wp (k a) Q E s') E s -> wp (bind m k) Q E s.
Proof. unfold wp, bind. destruct (m s); auto. Qed.

Lemma wp_conseq {A : Type} (m : M A) (Q Q' : A -> state -> Prop)
    (E E' : exn -> state -> Prop) s :
  wp m Q E s ->
  (forall a s', Q a s' -> Q' a s') ->
  (forall e s', E e s' -> E' e s') ->
  wp m Q' E' s.
Proof. unfold wp. destruct (m s); auto. Qed.

Lemma wp_ok {A : Type} (m : M A) Q E s a s' :
  wp m Q E s -> m s = Ok a s' -> Q a s'.
Proof. unfold wp. intros H Hm. rewrite Hm in H. exact H. Qed.

Lemma wp_raised {A : Type} (m : M A) Q E s e s' :
  wp m Q E s -> m s = Raised e s' -> E e s'.
Proof. unfold wp. intros H Hm. rewrite Hm in H. exact H. Qed.

Lemma hoare_ret {A : Type} (a : A) (Q : A -> state -> Prop) E :
  hoare (Q a) (ret a) Q E.
Proof. intros s H. exact H. Qed.

Lemma hoare_raise {A : Type} (e : exn) (Q : A -> state -> Prop) E :
  hoare (E e) (raise e) Q E.
Proof. intros s H. exact H. Qed.

Lemma hoare_gets {A : Type} (f : state -> A) (Q : A -> state -> Prop) E :
  hoare (fun s => Q (f s) s) (gets f) Q E.
Proof. intros s H. exact H. Qed.

Lemma hoare_bind {A B : Type} (m : M A) (k : A -> M B) P R Q E :
  hoare P m R E ->
  (forall a, hoare (R a) (k a) Q E) ->
  hoare P (bind m k) Q E.
Proof.
  intros Hm Hk s HP. apply wp_bind.
  apply (wp_conseq m R (fun a s' => wp (k a) Q E s') E E s (Hm s HP)).
  - intros a s' HR. exact (Hk a s' HR).
  - auto.
Qed.

Lemma hoare_conseq {A : Type} (m : M A) (P P' : state -> Prop)
    (Q Q' : A -> state -> Prop) (E E' : exn -> state -> Prop) :
  hoare P m Q E ->
  (forall s, P' s -> P s) ->
  (forall a s, Q a s -> Q' a s) ->
  (forall e s, E e s -> E' e s) ->
  hoare P' m Q' E'.
Proof.
  intros H HP HQ HE s Hs. apply (wp_conseq m Q Q' E E' s); auto.
Qed.

(** Loops: the invariant is indexed by the elements already processed. *)
Lemma hoare_for_indexed {A : Type} (xs : list A) (body : A -> M unit)
    (I : list A -> state -> Prop) E :
  (forall done x rest, xs = done ++ x :: rest ->
     hoare (I done) (body x) (fun _ => I (done ++ [x])) E) ->
  hoare (I []) (for_ xs body) (fun _ => I xs) E.
Proof.
  enough (G : forall rest done, xs = done ++ rest ->
            (forall done' x rest', xs = done' ++ x :: rest' ->
               hoare (I done') (body x) (fun _ => I (done' ++ [x])) E) ->
            hoare (I done) (for_ rest body) (fun _ => I xs) E).
  { intros H. apply (G xs []); auto. }
  induction rest as [|x rest IH]; intros done Hxs Hbody.
  - rewrite app_nil_r in Hxs. subst done. intros s Hs. exact Hs.
  - simpl. eapply hoare_bind.
    + apply (Hbody done x rest Hxs).
    + intros u. apply IH; auto. rewrite <- app_assoc. exact Hxs.
Qed.

(** Loops with a plain invariant. *)
Lemma hoare_for {A : Type} (xs : list A) (body : A -> M unit)
    (I : state -> Prop) E :
  (forall x, In x xs -> hoare I (body x) (fun _ => I) E) ->
  hoare I (for_ xs body) (fun _ => I) E.
Proof.
  intros H. apply (hoare_for_indexed xs body (fun _ => I)).
  intros done x rest ->. apply H. apply in_elt.
Qed.

Lemma wp_for_indexed {A : Type} (xs : list A) (body : A -> M unit)
    (I : list A -> state -> Prop) (Q : unit -> state -> Prop) E s :
  I [] s ->
  (forall done x rest, xs = done ++ x :: rest ->
     hoare (I done) (body x) (fun _ => I (done ++ [x])) E) ->
  (forall s', I xs s' -> Q tt s') ->
  wp (for_ xs body) Q E s.
Proof.
  intros HI Hbody HQ.
  apply (wp_conseq _ (fun _ => I xs) Q E E s
           (hoare_for_indexed xs body I E Hbody s HI)); auto.
  intros [] s'. apply HQ.
Qed.

Lemma wp_for {A : Type} (xs : list A) (body : A -> M unit)
    (I : state -> Prop) (Q : unit -> state -> Prop) E s :
  I s ->
  (forall x, In x xs -> hoare I (body x) (fun _ => I) E) ->
  (forall s', I s' -> Q tt s') ->
  wp (for_ xs body) Q E s.
Proof.
  intros HI Hbody HQ.
  apply (wp_conseq _ (fun _ => I) Q E E s (hoare_for xs body I E Hbody s HI)); auto.
  intros [] s'. apply HQ.
Qed.

(** ** Rules for the primitives, as weakest preconditions *)

Lemma wp_ret {A : Type} (a : A) (Q : A -> state -> Prop) E s :
  Q a s -> wp (ret a) Q E s.
Proof. intros H. exact H. Qed.

Lemma wp_gets {A : Type} (f : state -> A) (Q : A -> state -> Prop) E s :
  Q (f s) s -> wp (gets f) Q E s.
Proof. intros H. exact H. Qed.

Lemma wp_randbelow (n : nat) (Q : nat -> state -> Prop) E s :
  (forall r f, (0 < n -> r < n) -> Q r (set_rng f s)) -> wp (randbelow n) Q E s.
Proof.
  intros H. unfold wp, randbelow, bind, next_raw, ret. apply H.
  intros Hn. apply Nat.mod_upper_bound. lia.
Qed.

Lemma wp_random_choice {A : Type} (seq : list A) (Q : A -> state -> Prop) E s :
  (seq = [] -> E (IndexError "Cannot choose from an empty sequence") s) ->
  (forall x f, In x seq -> Q x (set_rng f s)) ->
  wp (random_choice seq) Q E s.
Proof.
  intros He Hq. unfold wp. destruct seq as [|d seq'].
  - apply He. reflexivity.
  - unfold random_choice, bind, randbelow, next_raw, ret. apply Hq.
    apply nth_In. apply Nat.mod_upper_bound. discriminate.
Qed.

Lemma wp_random_randint (a b : nat) (Q : nat -> state -> Prop) E s :
  (b < a -> E (ValueError "empty range for randrange()") s) ->
  (forall x f, a <= x <= b -> Q x (set_rng f s)) ->
  wp (random_randint a b) Q E s.
Proof.
  intros He Hq. unfold wp, random_randint.
  destruct (Nat.ltb_spec b a) as [Hlt|Hle].
  - apply He. exact Hlt.
  - unfold bind, randbelow, next_raw, ret. apply Hq.
    assert (random s (consumed s) mod (b - a + 1) < b - a + 1)
      by (apply Nat.mod_upper_bound; lia).
    lia.
Qed.

Lemma wp_add_node id label ly p parent comment (Q : unit -> state -> Prop) E s :
  Q tt (append_node
          {| node_id := id; node_label := label; node_layer := ly;
             is_partition := lower (str_bool p);
             belongs_to := or_empty parent;
             node_comment := or_empty comment |} s) ->
  wp (add_node id label ly p parent comment) Q E s.
Proof. intros H. exact H. Qed.

Lemma wp_add_edge src tgt label ly comment (Q : unit -> state -> Prop) E s :
  Q tt (append_edge
          {| edge_id := ("edge_" ++ str (edge_counter s))%string;
             source := src; target := tgt; edge_label := label;
             edge_layer := ly; edge_comment := or_empty comment |} s) ->
  wp (add_edge src tgt label ly comment) Q E s.
Proof. intros H. exact H. Qed.

Lemma wp_write_csv name hd rs (Q : unit -> state -> Prop) E s :
  Q tt (append_file {| filename := name; header := hd; rows := rs |} s) ->
  wp (write_csv name hd rs) Q E s.
Proof. intros H. exact H. Qed.

Lemma rev_eq_nil {A : Type} (l : list A) : rev l = [] -> l = [].
Proof.
  intros H. apply (f_equal (@rev A)) in H. rewrite rev_involutive in H. exact H.
Qed.

Lemma rev_eq_cons {A : Type} (l r : list A) (x : A) :
  rev l = x :: r -> l = rev r ++ [x].
Proof.
  intros H. apply (f_equal (@rev A)) in H. rewrite rev_involutive in H. exact H.
Qed.

Lemma wp_pop (c : category) (Q : string -> state -> Prop) E s :
  (resource_labels s c = [] -> E PoolExhaustedError s) ->
  (forall l x, resource_labels s c = l ++ [x] -> Q x (set_labels c l s)) ->
  wp (pop c) Q E s.
Proof.
  intros He Hq. unfold wp, pop.
  destruct (rev (resource_labels s c)) as [|x r] eqn:Hr.
  - apply He. apply rev_eq_nil. exact Hr.
  - apply Hq. apply rev_eq_cons. exact Hr.
Qed.

(** ** Sampling and shuffling *)

Lemma remove_nth_length {A : Type} (l : list A) (j : nat) :
  j < length l -> length (remove_nth j l) = length l - 1.
Proof.
  revert j. induction l as [|h t IH]; intros j Hj; simpl in Hj.
  - lia.
  - destruct j as [|j']; simpl; [lia|]. rewrite IH by lia. lia.
Qed.

Lemma remove_nth_perm {A : Type} (l : list A) (j : nat) (d : A) :
  j < length l -> Permutation l (nth j l d :: remove_nth j l).
Proof.
  revert j. induction l as [|h t IH]; intros j Hj; simpl in Hj.
  - lia.
  - destruct j as [|j']; simpl; [reflexivity|].
    etransitivity; [|apply perm_swap]. constructor. apply IH. lia.
Qed.

(** What a sample of [k] elements of [population] is: [k] elements which,
    together with the elements left over, are the population again. *)
Definition is_sample {A : Type} (population : list A) (k : nat) (xs : list A) : Prop :=
  length xs = k /\ exists rest, Permutation population (xs ++ rest).

Lemma sample_loop_ok {A : Type} (k : nat) :
  forall (pool : list A) (s : state), k <= length pool ->
    exists xs f, sample_loop k pool s = Ok xs (set_rng f s) /\ is_sample pool k xs.
Proof.
  induction k as [|k IH]; intros pool s Hk.
  - exists [], (consumed s). split.
    + destruct s; reflexivity.
    + split; [reflexivity|]. exists pool. reflexivity.
  - destruct pool as [|d pool']; [simpl in Hk; lia|].
    set (pool := d :: pool') in *.
    set (j := random s (consumed s) mod length pool).
    assert (Hj : j < length pool) by (apply Nat.mod_upper_bound; discriminate).
    destruct (IH (remove_nth j pool) (set_rng (S (consumed s)) s))
      as (xs & f & Hrun & Hlen & rest & Hperm).
    { rewrite remove_nth_length by exact Hj. lia. }
    exists (nth j pool d :: xs), f. split.
    + unfold pool at 1. cbn [sample_loop]. fold pool.
      cbv [bind randbelow next_raw ret]. fold j.
      rewrite Hrun. reflexivity.
    + split; [simpl; lia|]. exists rest. simpl.
      rewrite (remove_nth_perm pool j d Hj). constructor. exact Hperm.
Qed.

Lemma wp_random_sample {A : Type} (population : list A) (k : nat)
    (Q : list A -> state -> Prop) E s :
  (length population < k -> E InsufficientPopulationError s) ->
  (forall xs f, is_sample population k xs -> Q xs (set_rng f s)) ->
  wp (random_sample population k) Q E s.
Proof.
  intros He Hq. unfold wp, random_sample.
  destruct (Nat.ltb_spec (length population) k) as [Hlt|Hle].
  - apply He. exact Hlt.
  - destruct (sample_loop_ok k population s Hle) as (xs & f & -> & Hs).
    apply Hq. exact Hs.
Qed.

Lemma is_sample_NoDup {A : Type} (population : list A) k xs :
  is_sample population k xs -> NoDup population -> NoDup xs.
Proof.
  intros [_ [rest Hp]] Hnd.
  apply (Permutation_NoDup Hp) in Hnd. apply NoDup_app_remove_r in Hnd. exact Hnd.
Qed.

Lemma is_sample_incl {A : Type} (population : list A) k xs :
  is_sample population k xs -> incl xs population.
Proof.
  intros [_ [rest Hp]] x Hx. apply (Permutation_in _ (Permutation_sym Hp)).
  apply in_or_app. left. exact Hx.
Qed.

Lemma is_sample_all {A : Type} (population : list A) xs :
  is_sample population (length population) xs -> Permutation population xs.
Proof.
  intros [Hlen [rest Hp]].
  assert (Hr : length rest = 0).
  { apply Permutation_length in Hp. rewrite length_app in Hp. lia. }
  destruct rest; [|discriminate]. rewrite app_nil_r in Hp. exact Hp.
Qed.

Lemma list_set_perm {A : Type} (t : list A) (j : nat) (h x : A) :
  nth_error t j = Some x -> Permutation (x :: list_set j h t) (h :: t).
Proof.
  revert j. induction t as [|a t IH]; intros j Hj.
  - destruct j; discriminate.
  - destruct j as [|j']; simpl in *.
    + injection Hj as ->. apply perm_swap.
    + etransitivity; [apply perm_swap|].
      etransitivity; [|apply perm_swap]. constructor. apply IH. exact Hj.
Qed.

Lemma swap_perm {A : Type} (x : list A) (i j : nat) : Permutation x (swap i j x).
Proof.
  unfold swap.
  destruct (nth_error x j) as [xj|] eqn:Hj; [|reflexivity].
  destruct (nth_error x i) as [xi|] eqn:Hi; [|reflexivity].
  revert i j Hi Hj. induction x as [|h t IH]; intros i j Hi Hj.
  - destruct i; discriminate.
  - destruct i as [|i'], j as [|j']; simpl in *.
    + injection Hi as ->. injection Hj as ->. reflexivity.
    + injection Hi as ->. symmetry. apply list_set_perm. exact Hj.
    + injection Hj as ->. symmetry. apply list_set_perm. exact Hi.
    + constructor. apply IH; assumption.
Qed.

(** What [random_shuffle c] may change: the order of the list under [c] and
    the random source. *)
Definition shuffled (c : category) (s s' : state) : Prop :=
  nodes s' = nodes s /\ edges s' = edges s /\
  edge_counter s' = edge_counter s /\ files s' = files s /\
  (forall c', c' <> c -> resource_labels s' c' = resource_labels s c') /\
  Permutation (resource_labels s c) (resource_labels s' c).

Lemma resource_labels_set_same (c : category) (l : list string) (s : state) :
  resource_labels (set_labels c l s) c = l.
Proof. destruct c; reflexivity. Qed.

Lemma resource_labels_set_other (c c' : category) (l : list string) (s : state) :
  c' <> c -> resource_labels (set_labels c l s) c' = resource_labels s c'.
Proof. intros H. destruct c, c'; try reflexivity; contradiction H; reflexivity. Qed.

Lemma resource_labels_append_node (n : node) (s : state) (c : category) :
  resource_labels (append_node n s) c = resource_labels s c.
Proof. reflexivity. Qed.

Lemma resource_labels_initial (labels : category -> list string) (random : nat -> nat)
    (c : category) :
  resource_labels (initial_state labels random) c = labels c.
Proof. destruct c; reflexivity. Qed.

Lemma category_eqb_eq (a b : category) : category_eqb a b = true <-> a = b.
Proof. destruct a, b; simpl; split; intros H; congruence. Qed.

Lemma category_eqb_refl (c : category) : category_eqb c c = true.
Proof. destruct c; reflexivity. Qed.

Lemma category_eqb_neq (a b : category) : a <> b -> category_eqb a b = false.
Proof.
  intros H. destruct (category_eqb a b) eqn:Heq; [|reflexivity].
  apply category_eqb_eq in Heq. contradiction.
Qed.

Lemma shuffled_refl (c : category) (s : state) : shuffled c s s.
Proof. unfold shuffled. repeat split; auto. Qed.

Lemma wp_random_shuffle (c : category) (Q : unit -> state -> Prop) E s :
  (forall s', shuffled c s s' -> Q tt s') -> wp (random_shuffle c) Q E s.
Proof.
  intros HQ. unfold wp, random_shuffle.
  change (wp (for_ (rev (seq 1 (length (resource_labels s c) - 1)))
                (fun i => j <- randbelow (i + 1) ;;
                   fun s' => Ok tt (set_labels c (swap i j (resource_labels s' c)) s')))
             Q E s).
  apply (wp_for _ _ (shuffled c s)); [apply shuffled_refl| |exact HQ].
  intros i _ s1 H1. apply wp_bind. apply wp_randbelow. intros j f _.
  unfold wp. destruct H1 as (Hn & He & Hc & Hf & Ho & Hp).
  unfold shuffled; simpl. repeat split; auto.
  - intros c' Hc'. rewrite resource_labels_set_other by exact Hc'. apply Ho. exact Hc'.
  - rewrite resource_labels_set_same. rewrite Hp. apply swap_perm.
Qed.

(** ** Symbolic execution *)

Ltac wp_step :=
  lazymatch goal with
  | |- wp (bind _ _) _ _ _ => apply wp_bind
  | |- wp (ret _) _ _ _ => apply wp_ret
  | |- wp (gets _) _ _ _ => apply wp_gets
  | |- wp (add_node _ _ _ _ _ _) _ _ _ => apply wp_add_node
  | |- wp (add_edge _ _ _ _ _) _ _ _ => apply wp_add_edge
  | |- wp (write_csv _ _ _) _ _ _ => apply wp_write_csv
  | |- wp (pop _) _ _ _ => apply wp_pop; [intros ?|intros ? ? ?]
  | |- wp (random_choice _) _ _ _ => apply wp_random_choice; [intros ?|intros ? ? ?]
  | |- wp (random_randint _ _) _ _ _ => apply wp_random_randint; [intros ?|intros ? ? ?]
  | |- wp (random_sample _ _) _ _ _ => apply wp_random_sample; [intros ?|intros ? ? ?]
  | |- wp (random_shuffle _) _ _ _ => apply wp_random_shuffle; intros ? ?
  | |- wp (let (_, _) := ?p in _) _ _ _ => destruct p
  end.

(** A loop whose body keeps the invariant [I], in a context where [I] holds
    of the current state. *)
Ltac wp_loop I :=
  apply (wp_for _ _ I); [try assumption|intros ? ? ? ?|intros ? ?].

(** * The layer table (lines 34-45) *)

Definition layer_ids : list string := map layer_id layers.

Lemma layer_ids_eq :
  layer_ids =
  ["database"; "table"; "lambda"; "container"; "stored_proc"; "api_gateway"; "s3"; "root"].
Proof. reflexivity. Qed.

(** Every [layer] value of the node table and of the edge table is a layer
    id. *)
Definition layers_ok (s : state) : Prop :=
  Forall (fun n => In (node_layer n) layer_ids) (nodes s) /\
  Forall (fun e => In (edge_layer e) layer_ids) (edges s).

Lemma layers_ok_shuffled c s s' : shuffled c s s' -> layers_ok s -> layers_ok s'.
Proof.
  intros (Hn & He & _) [H1 H2]. unfold layers_ok. rewrite Hn, He. auto.
Qed.

Lemma layers_ok_node n s :
  In (node_layer n) layer_ids -> layers_ok s -> layers_ok (append_node n s).
Proof.
  intros Hn [H1 H2]. split; simpl; [|exact H2].
  apply Forall_app. split; [exact H1|]. constructor; [exact Hn|constructor].
Qed.

Lemma layers_ok_edge e s :
  In (edge_layer e) layer_ids -> layers_ok s -> layers_ok (append_edge e s).
Proof.
  intros He [H1 H2]. split; simpl; [exact H1|].
  apply Forall_app. split; [exact H2|]. constructor; [exact He|constructor].
Qed.

Ltac in_layer_ids :=
  rewrite layer_ids_eq; simpl;
  try match goal with H : In _ (_ :: _) |- _ => simpl in H end;
  intuition auto.

Ltac layers_tac :=
  repeat first
    [ wp_step
    | lazymatch goal with
      | |- wp (for_ _ _) _ _ _ => wp_loop layers_ok
      | |- layers_ok (append_node _ _) => apply layers_ok_node; [in_layer_ids|]
      | |- layers_ok (append_edge _ _) => apply layers_ok_edge; [in_layer_ids|]
      | H : shuffled _ ?s ?s' |- layers_ok ?s' => apply (layers_ok_shuffled _ s s' H)
      | |- layers_ok (set_rng _ _) => change (layers_ok (set_rng ?f ?s)) with (layers_ok s)
      | |- layers_ok (set_labels _ _ _) =>
          change (layers_ok (set_labels ?c ?l ?s)) with (layers_ok s)
      | |- layers_ok (append_file _ _) =>
          change (layers_ok (append_file ?f ?s)) with (layers_ok s)
      | |- layers_ok _ => assumption
      end ].

Lemma generator_layers_ok (cfg : config) (s : state) :
  layers_ok s -> wp (generator cfg) (fun _ => layers_ok) (fun _ => layers_ok) s.
Proof.
  intros H0.
  unfold generator, shuffle_labels, build_nodes, generate_edges, write_outputs,
    root_and_partitions, databases_and_tables, lambda_functions, containers,
    stored_procedures, api_gateway, s3_buckets, api_gateway_routes, table_access,
    stored_proc_tables, api_calls, s3_bucket_connections.
  layers_tac.
Qed.

(** * The node table (lines 47-85) *)

(** ** What a phase of the build may change *)

(** [taken] are the labels popped from the list under [c] between [s] and
    [s'], in the order they were popped; the other lists are untouched. *)
Definition drew (c : category) (taken : list string) (s s' : state) : Prop :=
  resource_labels s c = resource_labels s' c ++ rev taken /\
  forall c', c' <> c -> resource_labels s' c' = resource_labels s c'.

(** No label list changed between [s] and [s']. *)
Definition same_labels (s s' : state) : Prop :=
  forall c, resource_labels s' c = resource_labels s c.

(** The edge table, its counter and the files written are those of [s]. *)
Definition same_edges_files (s s' : state) : Prop :=
  edges s' = edges s /\ edge_counter s' = edge_counter s /\ files s' = files s.

(** The rows the script appends. *)
Definition leaf_node (id label ly parent : string) : node :=
  {| node_id := id; node_label := label; node_layer := ly;
     is_partition := "false"; belongs_to := parent; node_comment := "" |}.

Definition partition_node (id label ly parent : string) : node :=
  {| node_id := id; node_label := label; node_layer := ly;
     is_partition := "true"; belongs_to := parent; node_comment := "" |}.

(** The leaves a loop [for i in range(n)] creates from the labels [taken],
    with ids [idf a], [idf (a+1)], ... *)
Definition leaves (idf : nat -> string) (ly parent : string) (a n : nat)
    (taken : list string) : list node :=
  map (fun il => leaf_node (idf (fst il)) (snd il) ly parent) (combine (seq a n) taken).

Definition table_id (db : string) (k : nat) : string :=
  (db ++ "_table_" ++ str k)%string.

(** The rows of lines 58-62 for the engines [dbs], [n] tables each, with the
    labels [taken]. *)
Fixpoint db_nodes (dbs : list string) (n : nat) (taken : list string) : list node :=
  match dbs with
  | [] => []
  | db :: dbs' =>
      partition_node db (upper db) "database" "database"
      :: leaves (fun i => table_id db (i + 1)) "table" db 0 n (firstn n taken)
      ++ db_nodes dbs' n (skipn n taken)
  end.

Lemma drew_nil c s : drew c [] s s.
Proof. split; [simpl; rewrite app_nil_r; reflexivity|auto]. Qed.

Lemma drew_app c t1 t2 s s1 s2 :
  drew c t1 s s1 -> drew c t2 s1 s2 -> drew c (t1 ++ t2) s s2.
Proof.
  intros [H1 F1] [H2 F2]. split.
  - rewrite H1, H2, rev_app_distr, app_assoc. reflexivity.
  - intros c' Hc'. rewrite F2, F1 by exact Hc'. reflexivity.
Qed.

Lemma drew_length c taken s s' :
  drew c taken s s' ->
  length (resource_labels s c) = length (resource_labels s' c) + length taken.
Proof. intros [H _]. rewrite H, length_app, length_rev. reflexivity. Qed.

Lemma same_edges_files_refl s : same_edges_files s s.
Proof. repeat split. Qed.

Lemma same_edges_files_trans s s1 s2 :
  same_edges_files s s1 -> same_edges_files s1 s2 -> same_edges_files s s2.
Proof.
  intros (A1 & B1 & C1) (A2 & B2 & C2). repeat split; congruence.
Qed.

(** The four label-consuming loops have one shape. *)
Lemma wp_leaf_loop (c : category) (idf : nat -> string) (ly parent : string) :
  forall (n a : nat) (s : state) (Q : unit -> state -> Prop) E,
    (forall s' taken,
        length taken = n -> drew c taken s s' ->
        nodes s' = nodes s ++ leaves idf ly parent a n taken ->
        same_edges_files s s' -> Q tt s') ->
    (forall s' taken,
        length taken < n -> drew c taken s s' -> resource_labels s' c = [] ->
        nodes s' = nodes s ++ leaves idf ly parent a n taken ->
        same_edges_files s s' -> E PoolExhaustedError s') ->
    wp (for_ (seq a n)
          (fun i => label <- pop c ;;
                    add_node (idf i) label ly false (Some parent) None))
       Q E s.
Proof.
  induction n as [|n IH]; intros a s Q E Hok Hfail.
  - apply wp_ret. apply (Hok s []); auto using drew_nil, same_edges_files_refl.
    unfold leaves; simpl. rewrite app_nil_r. reflexivity.
  - cbn [seq for_]. do 3 wp_step.
    + apply (Hfail s []); auto using drew_nil, same_edges_files_refl.
      * simpl. lia.
      * unfold leaves; simpl. rewrite app_nil_r. reflexivity.
    + rename H into Hpool. wp_step.
      set (s1 := append_node _ _).
      assert (D1 : drew c [x] s s1).
      { unfold s1. split.
        - rewrite resource_labels_append_node, resource_labels_set_same.
          simpl. exact Hpool.
        - intros c' Hc'.
          rewrite resource_labels_append_node, resource_labels_set_other by exact Hc'.
          reflexivity. }
      apply IH.
      * intros s' taken Hlen Hd Hn Hf. apply (Hok s' (x :: taken)).
        -- simpl. lia.
        -- apply (drew_app c [x] taken s s1 s' D1 Hd).
        -- rewrite Hn. unfold s1, leaves. simpl. rewrite <- app_assoc. reflexivity.
        -- exact Hf.
      * intros s' taken Hlen Hd He Hn Hf. apply (Hfail s' (x :: taken)).
        -- simpl. lia.
        -- apply (drew_app c [x] taken s s1 s' D1 Hd).
        -- exact He.
        -- rewrite Hn. unfold s1, leaves. simpl. rewrite <- app_assoc. reflexivity.
        -- exact Hf.
Qed.

Lemma firstn_app_exact {A : Type} (l1 l2 : list A) (n : nat) :
  length l1 = n -> firstn n (l1 ++ l2) = l1.
Proof.
  intros <-. rewrite firstn_app, Nat.sub_diag, firstn_all. simpl.
  apply app_nil_r.
Qed.

Lemma skipn_app_exact {A : Type} (l1 l2 : list A) (n : nat) :
  length l1 = n -> skipn n (l1 ++ l2) = l2.
Proof.
  intros <-. rewrite skipn_app, Nat.sub_diag, skipn_all. reflexivity.
Qed.

(** Lines 58-62, for any list of engines. *)
Lemma wp_db_loop (n : nat) :
  forall (dbs : list string) (s : state) (Q : unit -> state -> Prop) E,
    (forall s' taken,
        length taken = length dbs * n -> drew database_table taken s s' ->
        nodes s' = nodes s ++ db_nodes dbs n taken ->
        same_edges_files s s' -> Q tt s') ->
    (forall s' taken,
        length taken < length dbs * n -> drew database_table taken s s' ->
        resource_labels s' database_table = [] ->
        same_edges_files s s' -> E PoolExhaustedError s') ->
    wp (for_ dbs (fun db =>
          add_node db (upper db) "database" true (Some "database") None ;;
          for_ (range n) (fun i =>
            label <- pop database_table ;;
            add_node (db ++ "_table_" ++ str (i + 1))%string label "table" false
                     (Some db) None)))
       Q E s.
Proof.
  induction dbs as [|db dbs IH]; intros s Q E Hok Hfail.
  - apply wp_ret. apply (Hok s []); auto using drew_nil, same_edges_files_refl.
    simpl. rewrite app_nil_r. reflexivity.
  - cbn [for_]. do 3 wp_step. unfold range.
    apply (wp_leaf_loop database_table (fun i => table_id db (i + 1)) "table" db).
    + intros s1 t1 Hlen1 Hd1 Hn1 Hf1. apply IH.
      * intros s2 t2 Hlen2 Hd2 Hn2 Hf2. apply (Hok s2 (t1 ++ t2)).
        -- rewrite length_app. simpl. lia.
        -- apply (drew_app _ t1 t2 s s1 s2); [exact Hd1|exact Hd2].
        -- rewrite Hn2, Hn1. simpl.
           rewrite (firstn_app_exact t1 t2 n Hlen1), (skipn_app_exact t1 t2 n Hlen1).
           rewrite <- !app_assoc. reflexivity.
        -- apply (same_edges_files_trans s s1 s2); [exact Hf1|exact Hf2].
      * intros s2 t2 Hlen2 Hd2 He Hf2. apply (Hfail s2 (t1 ++ t2)).
        -- rewrite length_app. simpl. lia.
        -- apply (drew_app _ t1 t2 s s1 s2); [exact Hd1|exact Hd2].
        -- exact He.
        -- apply (same_edges_files_trans s s1 s2); [exact Hf1|exact Hf2].
    + intros s1 t1 Hlen1 Hd1 He Hn1 Hf1. apply (Hfail s1 t1).
      * simpl. lia.
      * exact Hd1.
      * exact He.
      * exact Hf1.
Qed.

(** The rows of lines 75-77, for the engines [choices] picked at random. *)
Definition proc_nodes (a n : nat) (choices : list string) : list node :=
  map (fun ic =>
         leaf_node ("stored_proc_" ++ str (fst ic + 1))%string
                   ("Stored Procedure " ++ str (fst ic + 1))%string
                   "stored_proc" (snd ic))
      (combine (seq a n) choices).

Definition EmptyChoiceError : exn := IndexError "Cannot choose from an empty sequence".

Lemma wp_proc_loop (dbs : list string) :
  forall (n a : nat) (s : state) (Q : unit -> state -> Prop) E,
    (forall s' choices,
        length choices = n -> Forall (fun db => In db dbs) choices ->
        nodes s' = nodes s ++ proc_nodes a n choices ->
        same_labels s s' -> same_edges_files s s' -> Q tt s') ->
    (forall s',
        dbs = [] -> 0 < n -> nodes s' = nodes s ->
        same_labels s s' -> same_edges_files s s' -> E EmptyChoiceError s') ->
    wp (for_ (seq a n) (fun i =>
          db <- random_choice dbs ;;
          add_node ("stored_proc_" ++ str (i + 1))%string
                   ("Stored Procedure " ++ str (i + 1))%string "stored_proc" false
                   (Some db) None))
       Q E s.
Proof.
  induction n as [|n IH]; intros a s Q E Hok Hfail.
  - apply wp_ret. apply (Hok s []); auto using same_edges_files_refl.
    + unfold proc_nodes; simpl. rewrite app_nil_r. reflexivity.
    + intros c. reflexivity.
  - cbn [seq for_]. do 3 wp_step.
    + apply Hfail; auto using same_edges_files_refl; [lia|intros c; reflexivity].
    + rename H into Hin. wp_step. apply IH.
      * intros s' choices Hlen Hall Hn Hl Hf. apply (Hok s' (x :: choices)).
        -- simpl. lia.
        -- constructor; assumption.
        -- rewrite Hn. unfold proc_nodes. simpl. rewrite <- app_assoc. reflexivity.
        -- exact Hl.
        -- exact Hf.
      * intros s' Hnil. subst dbs. destruct Hin.
Qed.

(** The rows of lines 53-55. *)
Definition root_nodes : list node :=
  partition_node "project" "Project" "root" ""
  :: map (fun part => partition_node part (capitalize part) part "project")
         ["database"; "lambda"; "container"; "stored_proc"; "api_gateway"; "s3"].

Lemma wp_root_and_partitions (s : state) (Q : unit -> state -> Prop) E :
  (forall s', nodes s' = nodes s ++ root_nodes ->
              same_labels s s' -> same_edges_files s s' -> Q tt s') ->
  wp root_and_partitions Q E s.
Proof.
  intros H. unfold wp, root_and_partitions. cbn. apply H.
  - cbn. rewrite <- !app_assoc. reflexivity.
  - intros c. reflexivity.
  - repeat split.
Qed.

(** ** The whole build *)

Section Build.

Variable cfg : config.

(** How many leaves of each category the configuration asks for. *)
Definition leaf_count (c : category) : nat :=
  match c with
  | database_table => length (DBS cfg) * NUM_TABLES_PER_DB cfg
  | lambda_function => NUM_LAMBDAS cfg
  | ecs_container => NUM_CONTAINERS cfg
  | s3_object_store => NUM_S3_BUCKETS cfg
  end.

Definition gateway_node : node :=
  leaf_node "api_gateway_instance" "API Gateway" "api_gateway" "api_gateway".

Definition table_nodes (taken : list string) : list node :=
  db_nodes (DBS cfg) (NUM_TABLES_PER_DB cfg) taken.

Definition lambda_nodes (taken : list string) : list node :=
  leaves (fun i => ("lambda_" ++ str (i + 1))%string) "lambda" "lambda"
         0 (NUM_LAMBDAS cfg) taken.

Definition container_nodes (taken : list string) : list node :=
  leaves (fun i => ("container_" ++ str (i + 1))%string) "container" "container"
         0 (NUM_CONTAINERS cfg) taken.

Definition s3_nodes (taken : list string) : list node :=
  leaves (fun i => ("s3_" ++ str (i + 1))%string) "s3" "s3"
         0 (NUM_S3_BUCKETS cfg) taken.

(** The node table as a function of the labels popped for each category and
    of the engines picked for the stored procedures. *)
Definition node_table (taken : category -> list string) (choices : list string)
    : list node :=
  root_nodes
  ++ table_nodes (taken database_table)
  ++ lambda_nodes (taken lambda_function)
  ++ container_nodes (taken ecs_container)
  ++ proc_nodes 0 (NUM_STORED_PROCS cfg) choices
  ++ [gateway_node]
  ++ s3_nodes (taken s3_object_store).

(** Between [s] and [s'], [taken c] was popped from the list under [c]. *)
Definition pools_rel (taken : category -> list string) (s s' : state) : Prop :=
  forall c, resource_labels s c = resource_labels s' c ++ rev (taken c).

(** A build that ran to its end. *)
Record built (taken : category -> list string) (choices : list string)
    (s s' : state) : Prop := {
  built_lengths : forall c, length (taken c) = leaf_count c;
  built_choices_length : length choices = NUM_STORED_PROCS cfg;
  built_choices : Forall (fun db => In db (DBS cfg)) choices;
  built_nodes : nodes s' = nodes s ++ node_table taken choices;
  built_pools : pools_rel taken s s';
  built_frame : same_edges_files s s'
}.

(** A build that raised: where, and on which shortage. *)
Inductive build_failure (s s' : state) : exn -> Prop :=
| fail_tables :
    length (resource_labels s database_table) < leaf_count database_table ->
    resource_labels s' database_table = [] ->
    build_failure s s' PoolExhaustedError
| fail_lambdas tl ll :
    leaf_count database_table <= length (resource_labels s database_table) ->
    length (resource_labels s lambda_function) < leaf_count lambda_function ->
    length tl = leaf_count database_table ->
    resource_labels s lambda_function = rev ll ->
    resource_labels s' lambda_function = [] ->
    nodes s' = nodes s ++ root_nodes ++ table_nodes tl ++ lambda_nodes ll ->
    build_failure s s' PoolExhaustedError
| fail_containers :
    leaf_count database_table <= length (resource_labels s database_table) ->
    leaf_count lambda_function <= length (resource_labels s lambda_function) ->
    length (resource_labels s ecs_container) < leaf_count ecs_container ->
    resource_labels s' ecs_container = [] ->
    build_failure s s' PoolExhaustedError
| fail_choice :
    leaf_count database_table <= length (resource_labels s database_table) ->
    leaf_count lambda_function <= length (resource_labels s lambda_function) ->
    leaf_count ecs_container <= length (resource_labels s ecs_container) ->
    DBS cfg = [] -> 0 < NUM_STORED_PROCS cfg ->
    build_failure s s' EmptyChoiceError
| fail_s3 :
    leaf_count database_table <= length (resource_labels s database_table) ->
    leaf_count lambda_function <= length (resource_labels s lambda_function) ->
    leaf_count ecs_container <= length (resource_labels s ecs_container) ->
    length (resource_labels s s3_object_store) < leaf_count s3_object_store ->
    resource_labels s' s3_object_store = [] ->
    build_failure s s' PoolExhaustedError.

End Build.

Definition upd (taken : category -> list string) (c : category) (t : list string)
    : category -> list string :=
  fun c' => if category_eqb c' c then t else taken c'.

Lemma pools_rel_same s s' : same_labels s s' -> pools_rel (fun _ => []) s s'.
Proof. intros H c. rewrite H. simpl. rewrite app_nil_r. reflexivity. Qed.

Lemma pools_rel_frame taken s s1 s2 :
  pools_rel taken s s1 -> same_labels s1 s2 -> pools_rel taken s s2.
Proof. intros H1 H2 c. rewrite H2. apply H1. Qed.

Lemma pools_rel_drew taken c t s s1 s2 :
  pools_rel taken s s1 -> taken c = [] -> drew c t s1 s2 ->
  pools_rel (upd taken c t) s s2.
Proof.
  intros H1 Hc [Hd Ho] c'. unfold upd.
  destruct (category_eqb c' c) eqn:Heq.
  - apply category_eqb_eq in Heq. subst c'.
    rewrite (H1 c), Hc, Hd. simpl. rewrite app_nil_r. reflexivity.
  - rewrite Ho; [apply H1|]. intros ->. rewrite category_eqb_refl in Heq. discriminate.
Qed.

Lemma pools_rel_length taken s s' c :
  pools_rel taken s s' ->
  length (resource_labels s c) = length (resource_labels s' c) + length (taken c).
Proof. intros H. rewrite (H c), length_app, length_rev. reflexivity. Qed.

Lemma wp_build_nodes (cfg : config) (s : state) (Q : unit -> state -> Prop) E :
  (forall s' taken choices, built cfg taken choices s s' -> Q tt s') ->
  (forall e s', build_failure cfg s s' e -> same_edges_files s s' -> E e s') ->
  wp (build_nodes cfg) Q E s.
Proof.
  intros Hok Hfail. unfold build_nodes.
  wp_step. apply wp_root_and_partitions. intros s1 Hn1 Hl1 Hf1.
  pose proof (pools_rel_same s s1 Hl1) as P1.
  wp_step. unfold databases_and_tables. apply wp_db_loop.
  2:{ intros s2 tl Hlen Hd He Hf2. apply Hfail.
      - apply fail_tables; [|exact He].
        rewrite <- (Hl1 database_table), (drew_length _ _ _ _ Hd), He. cbv [upd category_eqb leaf_count] in *. simpl. lia.
      - apply (same_edges_files_trans s s1 s2); assumption. }
  intros s2 tl Hlen2 Hd2 Hn2 Hf2.
  pose proof (pools_rel_drew _ database_table tl s s1 s2 P1 eq_refl Hd2) as P2.
  pose proof (same_edges_files_trans s s1 s2 Hf1 Hf2) as F2.
  assert (S2 : leaf_count cfg database_table <= length (resource_labels s database_table)).
  { rewrite (pools_rel_length _ s s2 database_table P2). cbv [upd category_eqb leaf_count] in *. lia. }
  wp_step. unfold lambda_functions, range.
  apply (wp_leaf_loop lambda_function (fun i => ("lambda_" ++ str (i + 1))%string) "lambda" "lambda").
  2:{ intros s3 ll Hlen Hd He Hn3 Hf3.
      pose proof (pools_rel_drew _ lambda_function ll s s2 s3 P2 eq_refl Hd) as P3.
      apply Hfail.
      - apply (fail_lambdas cfg s s3 tl ll); auto.
        + rewrite (pools_rel_length _ s s3 lambda_function P3), He. cbv [upd category_eqb leaf_count] in *. simpl. lia.
        + rewrite (P3 lambda_function), He. reflexivity.
        + rewrite Hn3, Hn2, Hn1. rewrite <- !app_assoc. reflexivity.
      - apply (same_edges_files_trans s s2 s3); assumption. }
  intros s3 ll Hlen3 Hd3 Hn3 Hf3.
  pose proof (pools_rel_drew _ lambda_function ll s s2 s3 P2 eq_refl Hd3) as P3.
  pose proof (same_edges_files_trans s s2 s3 F2 Hf3) as F3.
  assert (S3 : leaf_count cfg lambda_function <= length (resource_labels s lambda_function)).
  { rewrite (pools_rel_length _ s s3 lambda_function P3). cbv [upd category_eqb leaf_count] in *. lia. }
  wp_step. unfold containers, range.
  apply (wp_leaf_loop ecs_container (fun i => ("container_" ++ str (i + 1))%string) "container" "container").
  2:{ intros s4 cl Hlen Hd He Hn4 Hf4.
      pose proof (pools_rel_drew _ ecs_container cl s s3 s4 P3 eq_refl Hd) as P4.
      apply Hfail.
      - apply fail_containers; auto.
        rewrite (pools_rel_length _ s s4 ecs_container P4), He. cbv [upd category_eqb leaf_count] in *. simpl. lia.
      - apply (same_edges_files_trans s s3 s4); assumption. }
  intros s4 cl Hlen4 Hd4 Hn4 Hf4.
  pose proof (pools_rel_drew _ ecs_container cl s s3 s4 P3 eq_refl Hd4) as P4.
  pose proof (same_edges_files_trans s s3 s4 F3 Hf4) as F4.
  assert (S4 : leaf_count cfg ecs_container <= length (resource_labels s ecs_container)).
  { rewrite (pools_rel_length _ s s4 ecs_container P4). cbv [upd category_eqb leaf_count] in *. lia. }
  wp_step. unfold stored_procedures, range. apply wp_proc_loop.
  2:{ intros s5 Hnil Hpos Hn5 Hl5 Hf5. apply Hfail.
      - apply fail_choice; auto.
      - apply (same_edges_files_trans s s4 s5); assumption. }
  intros s5 choices Hlen5 Hall5 Hn5 Hl5 Hf5.
  pose proof (pools_rel_frame _ s s4 s5 P4 Hl5) as P5.
  pose proof (same_edges_files_trans s s4 s5 F4 Hf5) as F5.
  wp_step. unfold api_gateway. wp_step.
  unfold s3_buckets, range.
  apply (wp_leaf_loop s3_object_store (fun i => ("s3_" ++ str (i + 1))%string) "s3" "s3").
  2:{ intros s7 sl Hlen Hd He Hn7 Hf7.
      pose proof (pools_rel_drew _ s3_object_store sl s s5 _ P5 eq_refl Hd) as P7.
      apply Hfail.
      - apply fail_s3; auto.
        rewrite (pools_rel_length _ s s7 s3_object_store P7), He. cbv [upd category_eqb leaf_count] in *. simpl. lia.
      - apply (same_edges_files_trans s s5 s7); assumption. }
  intros s7 sl Hlen7 Hd7 Hn7 Hf7.
  pose proof (pools_rel_drew _ s3_object_store sl s s5 _ P5 eq_refl Hd7) as P7.
  apply (Hok s7 (upd (upd (upd (upd (fun _ => []) database_table tl) lambda_function ll)
                          ecs_container cl) s3_object_store sl) choices).
  constructor.
  - intros c; destruct c; cbv [upd category_eqb leaf_count] in *; assumption.
  - exact Hlen5.
  - exact Hall5.
  - rewrite Hn7. simpl. rewrite Hn5, Hn4, Hn3, Hn2, Hn1.
    unfold node_table. cbv [upd category_eqb]. rewrite <- !app_assoc. reflexivity.
  - exact P7.
  - apply (same_edges_files_trans s s5 s7); assumption.
Qed.

(** What [shuffle_labels] may change: the order of each label list. *)
Definition shuffled_all (s s' : state) : Prop :=
  nodes s' = nodes s /\ same_edges_files s s' /\
  forall c, Permutation (resource_labels s c) (resource_labels s' c).

Lemma wp_shuffle_labels (s : state) (Q : unit -> state -> Prop) E :
  (forall s', shuffled_all s s' -> Q tt s') -> wp shuffle_labels Q E s.
Proof.
  intros HQ. unfold shuffle_labels.
  wp_step. apply wp_random_shuffle. intros s1 H.
  wp_step. apply wp_random_shuffle. intros s2 H0.
  wp_step. apply wp_random_shuffle. intros s3 H1.
  apply wp_random_shuffle. intros s4 H2.
  apply HQ.
  destruct H as (N1 & E1 & C1 & F1 & O1 & P1).
  destruct H0 as (N2 & E2 & C2 & F2 & O2 & P2).
  destruct H1 as (N3 & E3 & C3 & F3 & O3 & P3).
  destruct H2 as (N4 & E4 & C4 & F4 & O4 & P4).
  split; [congruence|]. split; [repeat split; congruence|].
  intros c; destruct c.
  - rewrite O4, O3, O2 by discriminate. exact P1.
  - rewrite O4, O3, <- P2, O1 by discriminate. reflexivity.
  - rewrite O4, <- P3, O2, O1 by discriminate. reflexivity.
  - rewrite <- P4, O3, O2, O1 by discriminate. reflexivity.
Qed.

(** * The edge table (lines 88-130) *)

Definition edge_name (k : nat) : string := ("edge_" ++ str k)%string.

(** Between [s] and [s'] the edges [g] were appended, numbered from the
    counter of [s] on; nodes, label lists and files are untouched. *)
Definition emitted (s s' : state) (g : list edge) : Prop :=
  edges s' = edges s ++ g /\
  edge_counter s' = edge_counter s + length g /\
  map edge_id g = map edge_name (seq (edge_counter s) (length g)) /\
  nodes s' = nodes s /\
  same_labels s s' /\
  files s' = files s.

(** [m] only appends edges: when it returns they satisfy [G]; when it raises,
    the exception satisfies [F]. *)
Definition emits (m : M unit) (G : list edge -> Prop) (F : exn -> Prop) : Prop :=
  forall s,
    wp m (fun _ s' => exists g, emitted s s' g /\ G g)
         (fun e s' => (exists g, emitted s s' g) /\ F e) s.

Lemma emitted_refl s : emitted s s [].
Proof.
  unfold emitted, same_labels. simpl. rewrite app_nil_r, Nat.add_0_r.
  repeat split; auto.
Qed.

Lemma emitted_trans s s1 s2 g1 g2 :
  emitted s s1 g1 -> emitted s1 s2 g2 -> emitted s s2 (g1 ++ g2).
Proof.
  intros (E1 & C1 & I1 & N1 & L1 & F1) (E2 & C2 & I2 & N2 & L2 & F2).
  unfold emitted. rewrite E2, E1, C2, C1, N2, N1, F2, F1, length_app.
  repeat split; auto.
  - rewrite app_assoc. reflexivity.
  - lia.
  - rewrite map_app, seq_app, map_app, I1, I2, C1. reflexivity.
  - intros c. rewrite L2, L1. reflexivity.
Qed.

Lemma emitted_edge s src tgt label ly comment :
  emitted s
    (append_edge {| edge_id := edge_name (edge_counter s); source := src;
                    target := tgt; edge_label := label; edge_layer := ly;
                    edge_comment := comment |} s)
    [{| edge_id := edge_name (edge_counter s); source := src; target := tgt;
        edge_label := label; edge_layer := ly; edge_comment := comment |}].
Proof. unfold emitted. simpl. repeat split; auto. Qed.

Lemma emits_conseq (m : M unit) (G G' : list edge -> Prop) (F F' : exn -> Prop) :
  emits m G F -> (forall g, G g -> G' g) -> (forall e, F e -> F' e) -> emits m G' F'.
Proof.
  intros H HG HF s. apply (wp_conseq _ _ _ _ _ _ (H s)).
  - intros _ s' (g & Hg & HGg). exists g. auto.
  - intros e s' [Hg He]. auto.
Qed.

Lemma emits_ret (F : exn -> Prop) : emits (ret tt) (fun g => g = []) F.
Proof. intros s. apply wp_ret. exists []. split; [apply emitted_refl|reflexivity]. Qed.

(** One call of [add_edge] without a comment. *)
Definition single (src tgt label ly : string) (g : list edge) : Prop :=
  exists id, g = [{| edge_id := id; source := src; target := tgt; edge_label := label;
                     edge_layer := ly; edge_comment := "" |}].

Lemma emits_add_edge src tgt label ly (F : exn -> Prop) :
  emits (add_edge src tgt label ly None) (single src tgt label ly) F.
Proof.
  intros s. apply wp_add_edge. eexists. split; [apply emitted_edge|].
  exists (edge_name (edge_counter s)). reflexivity.
Qed.

Lemma emits_seq (m1 m2 : M unit) (G1 G2 : list edge -> Prop) (F : exn -> Prop) :
  emits m1 G1 F -> emits m2 G2 F ->
  emits (m1 ;; m2) (fun g => exists g1 g2, g = g1 ++ g2 /\ G1 g1 /\ G2 g2) F.
Proof.
  intros H1 H2 s. apply wp_bind. apply (wp_conseq _ _ _ _ _ _ (H1 s)).
  - intros _ s1 (g1 & Hg1 & HG1). apply (wp_conseq _ _ _ _ _ _ (H2 s1)).
    + intros _ s2 (g2 & Hg2 & HG2). exists (g1 ++ g2). split.
      * apply (emitted_trans s s1 s2); assumption.
      * exists g1, g2. auto.
    + intros e s2 [(g2 & Hg2) He]. split; [|exact He].
      exists (g1 ++ g2). apply (emitted_trans s s1 s2); assumption.
  - auto.
Qed.

(** A loop emits one group of edges per element, in order. *)
Lemma emits_for {A : Type} (xs : list A) (body : A -> M unit)
    (G : A -> list edge -> Prop) (F : exn -> Prop) :
  (forall x, In x xs -> emits (body x) (G x) F) ->
  emits (for_ xs body)
        (fun g => exists groups, g = concat groups /\ Forall2 G xs groups) F.
Proof.
  induction xs as [|x xs IH]; intros Hbody.
  - simpl. apply (emits_conseq _ _ _ F F (emits_ret F)).
    + intros g ->. exists []. split; [reflexivity|constructor].
    + intros e He. exact He.
  - simpl.
    assert (H1 : emits (body x) (G x) F) by (apply Hbody; left; reflexivity).
    assert (H2 : emits (for_ xs body)
                   (fun g => exists groups, g = concat groups /\ Forall2 G xs groups) F).
    { apply IH. intros y Hy. apply Hbody. right. exact Hy. }
    apply (emits_conseq _ _ _ F F (emits_seq _ _ _ _ F H1 H2)).
    + intros g (g1 & g2 & -> & HG1 & groups & -> & Hall).
      exists (g1 :: groups). split; [reflexivity|]. constructor; assumption.
    + intros e He. exact He.
Qed.

Lemma emits_choice {A : Type} (l : list A) (k : A -> M unit)
    (G : A -> list edge -> Prop) (F : exn -> Prop) :
  (l = [] -> F EmptyChoiceError) ->
  (forall x, In x l -> emits (k x) (G x) F) ->
  emits (x <- random_choice l ;; k x) (fun g => exists x, In x l /\ G x g) F.
Proof.
  intros He Hk s. apply wp_bind. apply wp_random_choice.
  - intros Hnil. split; [|exact (He Hnil)]. exists []. apply emitted_refl.
  - intros x f Hin. apply (wp_conseq _ _ _ _ _ _ (Hk x Hin (set_rng f s))).
    + intros _ s' (g & Hg & HGg). exists g. split; [exact Hg|]. exists x. auto.
    + intros e s' [(g & Hg) HF]. split; [|exact HF]. exists g. exact Hg.
Qed.

Definition EmptyRangeError : exn := ValueError "empty range for randrange()".

Lemma emits_randint (a b : nat) (k : nat -> M unit)
    (G : nat -> list edge -> Prop) (F : exn -> Prop) :
  (b < a -> F EmptyRangeError) ->
  (forall x, a <= x <= b -> emits (k x) (G x) F) ->
  emits (x <- random_randint a b ;; k x) (fun g => exists x, a <= x <= b /\ G x g) F.
Proof.
  intros He Hk s. apply wp_bind. apply wp_random_randint.
  - intros Hlt. split; [|exact (He Hlt)]. exists []. apply emitted_refl.
  - intros x f Hin. apply (wp_conseq _ _ _ _ _ _ (Hk x Hin (set_rng f s))).
    + intros _ s' (g & Hg & HGg). exists g. split; [exact Hg|]. exists x. auto.
    + intros e s' [(g & Hg) HF]. split; [|exact HF]. exists g. exact Hg.
Qed.

Lemma emits_sample {A : Type} (population : list A) (n : nat) (k : list A -> M unit)
    (G : list A -> list edge -> Prop) (F : exn -> Prop) :
  (length population < n -> F InsufficientPopulationError) ->
  (forall xs, is_sample population n xs -> emits (k xs) (G xs) F) ->
  emits (xs <- random_sample population n ;; k xs)
        (fun g => exists xs, is_sample population n xs /\ G xs g) F.
Proof.
  intros He Hk s. apply wp_bind. apply wp_random_sample.
  - intros Hlt. split; [|exact (He Hlt)]. exists []. apply emitted_refl.
  - intros xs f Hin. apply (wp_conseq _ _ _ _ _ _ (Hk xs Hin (set_rng f s))).
    + intros _ s' (g & Hg & HGg). exists g. split; [exact Hg|]. exists xs. auto.
    + intros e s' [(g & Hg) HF]. split; [|exact HF]. exists g. exact Hg.
Qed.

(** ** What each relationship policy emits *)

(** The fields of a row other than its id. *)
Definition is_edge (e : edge) (src tgt label ly : string) : Prop :=
  source e = src /\ target e = tgt /\ edge_label e = label /\
  edge_layer e = ly /\ edge_comment e = "".

Lemma single_is_edge src tgt label ly g :
  single src tgt label ly g -> exists e, g = [e] /\ is_edge e src tgt label ly.
Proof.
  intros [id ->]. eexists. split; [reflexivity|]. repeat split.
Qed.

Lemma concat_singles {A : Type} (P : A -> edge -> Prop) (xs : list A)
    (groups : list (list edge)) :
  Forall2 (fun x grp => exists e, grp = [e] /\ P x e) xs groups ->
  Forall2 P xs (concat groups).
Proof.
  induction 1 as [|x grp xs groups (e & -> & He) _ IH]; simpl.
  - constructor.
  - constructor; assumption.
Qed.

Lemma Forall2_const_l {A B : Type} (P : B -> Prop) (xs : list A) (ys : list B) :
  Forall2 (fun _ y => P y) xs ys -> length ys = length xs /\ Forall P ys.
Proof.
  induction 1 as [|x y xs ys Hy _ [IHl IHf]]; simpl.
  - split; [reflexivity|constructor].
  - split; [lia|constructor; assumption].
Qed.

Section Policies.

Variable cfg : config.

(** The function and container leaves, as lines 98, 104 and 127 list them. *)
Definition service_ids : list string := lambda_ids cfg ++ container_ids cfg.

(** [t] is the id of a table of a configured engine. *)
Definition is_table_id (t : string) : Prop :=
  exists db k, In db (DBS cfg) /\ 1 <= k <= NUM_TABLES_PER_DB cfg /\ t = table_id db k.

(** Lines 98-101. *)
Definition routes_spec (g : list edge) : Prop :=
  exists targets,
    is_sample service_ids (NUM_API_GATEWAY_TARGETS cfg) targets /\
    Forall2 (fun t e => is_edge e "api_gateway_instance" t "API Route" "api_gateway")
            targets g.

(** Lines 104-108: one group of edges per function or container. *)
Definition access_group (func_id : string) (grp : list edge) : Prop :=
  3 <= length grp <= 7 /\
  Forall (fun e => exists t, is_table_id t /\ is_edge e func_id t "Reads/Writes" "table")
         grp.

Definition access_spec (g : list edge) : Prop :=
  exists groups, g = concat groups /\ Forall2 access_group service_ids groups.

(** Lines 111-115: one group of edges per stored procedure, on one engine. *)
Definition proc_group (proc_id : string) (grp : list edge) : Prop :=
  exists db,
    In db (DBS cfg) /\ 2 <= length grp <= 5 /\
    Forall (fun e => exists k, 1 <= k <= NUM_TABLES_PER_DB cfg /\
                               is_edge e proc_id (table_id db k) "Executes" "stored_proc")
           grp.

Definition procs_spec (g : list edge) : Prop :=
  exists groups, g = concat groups /\ Forall2 proc_group (stored_proc_ids cfg) groups.

(** Lines 118-124: two batches. *)
Definition calls_spec (g : list edge) : Prop :=
  exists g1 g2,
    g = g1 ++ g2 /\
    10 <= length g1 <= 20 /\
    Forall (fun e => exists c l, In c (container_ids cfg) /\ In l (lambda_ids cfg) /\
                                 is_edge e c l "API Call" "container") g1 /\
    10 <= length g2 <= 20 /\
    Forall (fun e => exists l c, In l (lambda_ids cfg) /\ In c (container_ids cfg) /\
                                 is_edge e l c "API Call" "lambda") g2.

(** Lines 127-130. *)
Definition bindings_spec (g : list edge) : Prop :=
  exists services,
    is_sample service_ids (NUM_S3_BUCKETS cfg) services /\
    Forall2 (fun p e => is_edge e (snd p) (fst p) "Stores/Reads" "s3")
            (combine (s3_ids cfg) services) g.

(** The edge table of a run. *)
Definition edges_spec (g : list edge) : Prop :=
  exists r a x c b,
    g = r ++ a ++ x ++ c ++ b /\
    routes_spec r /\ access_spec a /\ procs_spec x /\ calls_spec c /\ bindings_spec b.

Variable F : exn -> Prop.

Lemma emits_api_gateway_routes :
  (length service_ids < NUM_API_GATEWAY_TARGETS cfg -> F InsufficientPopulationError) ->
  emits (api_gateway_routes cfg) routes_spec F.
Proof.
  intros He. unfold api_gateway_routes.
  eapply emits_conseq.
  - apply (emits_sample (lambda_ids cfg ++ container_ids cfg) _ _
             (fun targets g => exists groups, g = concat groups /\
                Forall2 (fun t grp => single "api_gateway_instance" t "API Route"
                                             "api_gateway" grp) targets groups) F He).
    intros xs _. apply emits_for. intros t _. apply emits_add_edge.
  - intros g (targets & Hs & groups & -> & Hall). exists targets. split; [exact Hs|].
    apply concat_singles. eapply Forall2_impl; [|exact Hall].
    intros t grp. apply single_is_edge.
  - auto.
Qed.

Lemma emits_table_access :
  (DBS cfg = [] -> F EmptyChoiceError) ->
  (NUM_TABLES_PER_DB cfg < 1 -> F EmptyRangeError) ->
  emits (table_access cfg) access_spec F.
Proof.
  intros Hd Hn. unfold table_access. fold service_ids.
  eapply emits_conseq.
  - apply (emits_for service_ids _ access_group F). intros func_id _.
    eapply emits_conseq.
    + apply (emits_randint 3 7 _
               (fun n g => exists groups, g = concat groups /\
                  Forall2 (fun _ grp => exists e, grp = [e] /\
                             exists t, is_table_id t /\
                               is_edge e func_id t "Reads/Writes" "table")
                          (range n) groups) F); [lia|].
      intros n _. apply emits_for. intros i _.
      eapply emits_conseq.
      * apply (emits_choice (DBS cfg) _
                 (fun db g => exists k, 1 <= k <= NUM_TABLES_PER_DB cfg /\
                    single func_id (table_id db k) "Reads/Writes" "table" g) F Hd).
        intros db _.
        apply (emits_randint 1 (NUM_TABLES_PER_DB cfg) _
                 (fun k g => single func_id (table_id db k) "Reads/Writes" "table" g)
                 F Hn).
        intros k _. apply emits_add_edge.
      * intros g (db & Hdb & k & Hk & Hs).
        destruct (single_is_edge _ _ _ _ _ Hs) as (e & -> & He).
        exists e. split; [reflexivity|]. exists (table_id db k). split; [|exact He].
        exists db, k. auto.
      * auto.
    + intros g (n & Hn' & groups & -> & Hall).
      pose proof (concat_singles (fun _ e => exists t, is_table_id t /\
                    is_edge e func_id t "Reads/Writes" "table") _ _ Hall) as H2.
      apply Forall2_const_l in H2. destruct H2 as [Hlen Hf].
      split; [|exact Hf]. rewrite Hlen. unfold range. rewrite length_seq. exact Hn'.
    + auto.
  - intros g H. exact H.
  - auto.
Qed.

Lemma emits_stored_proc_tables :
  (DBS cfg = [] -> F EmptyChoiceError) ->
  (NUM_TABLES_PER_DB cfg < 1 -> F EmptyRangeError) ->
  emits (stored_proc_tables cfg) procs_spec F.
Proof.
  intros Hd Hn. unfold stored_proc_tables.
  apply (emits_for (stored_proc_ids cfg) _ proc_group F). intros proc_id _.
  apply (emits_choice (DBS cfg) _
           (fun db grp => 2 <= length grp <= 5 /\
              Forall (fun e => exists k, 1 <= k <= NUM_TABLES_PER_DB cfg /\
                        is_edge e proc_id (table_id db k) "Executes" "stored_proc") grp)
           F Hd).
  intros db _. eapply emits_conseq.
  - apply (emits_randint 2 5 _
             (fun n g => exists groups, g = concat groups /\
                Forall2 (fun _ grp => exists e, grp = [e] /\
                           exists k, 1 <= k <= NUM_TABLES_PER_DB cfg /\
                             is_edge e proc_id (table_id db k) "Executes" "stored_proc")
                        (range n) groups) F); [lia|].
    intros n _. apply emits_for. intros i _.
    eapply emits_conseq.
    + apply (emits_randint 1 (NUM_TABLES_PER_DB cfg) _
               (fun k g => single proc_id (table_id db k) "Executes" "stored_proc" g)
               F Hn).
      intros k _. apply emits_add_edge.
    + intros g (k & Hk & Hs).
      destruct (single_is_edge _ _ _ _ _ Hs) as (e & -> & He).
      exists e. split; [reflexivity|]. exists k. auto.
    + auto.
  - intros g (n & Hn' & groups & -> & Hall).
    pose proof (concat_singles (fun _ e => exists k, 1 <= k <= NUM_TABLES_PER_DB cfg /\
                  is_edge e proc_id (table_id db k) "Executes" "stored_proc") _ _ Hall)
      as H2.
    apply Forall2_const_l in H2. destruct H2 as [Hlen Hf].
    split; [|exact Hf]. rewrite Hlen. unfold range. rewrite length_seq. exact Hn'.
  - auto.
Qed.

Lemma emits_call_batch (srcs tgts : list string) (ly : string) :
  (srcs = [] -> F EmptyChoiceError) ->
  (tgts = [] -> F EmptyChoiceError) ->
  forall n,
    emits (for_ (range n) (fun _ =>
             a <- random_choice srcs ;;
             b <- random_choice tgts ;;
             add_edge a b "API Call" ly None))
          (fun g => length g = n /\
             Forall (fun e => exists a b, In a srcs /\ In b tgts /\
                                 is_edge e a b "API Call" ly) g) F.
Proof.
  intros Hs Ht n. eapply emits_conseq.
  - apply (emits_for (range n) _
             (fun _ grp => exists e, grp = [e] /\
                exists a b, In a srcs /\ In b tgts /\ is_edge e a b "API Call" ly) F).
    intros i _. eapply emits_conseq.
    + apply (emits_choice srcs _
               (fun a g => exists b, In b tgts /\ single a b "API Call" ly g) F Hs).
      intros a _.
      apply (emits_choice tgts _ (fun b g => single a b "API Call" ly g) F Ht).
      intros b _. apply emits_add_edge.
    + intros g (a & Ha & b & Hb & Hsg).
      destruct (single_is_edge _ _ _ _ _ Hsg) as (e & -> & He).
      exists e. split; [reflexivity|]. exists a, b. auto.
    + auto.
  - intros g (groups & -> & Hall).
    apply concat_singles in Hall. apply Forall2_const_l in Hall.
    destruct Hall as [Hlen Hf]. split; [|exact Hf].
    rewrite Hlen. unfold range. apply length_seq.
  - auto.
Qed.

Lemma emits_api_calls :
  (container_ids cfg = [] -> F EmptyChoiceError) ->
  (lambda_ids cfg = [] -> F EmptyChoiceError) ->
  emits (api_calls cfg) calls_spec F.
Proof.
  intros Hc Hl. unfold api_calls. eapply emits_conseq.
  - apply (emits_randint 10 20 _
             (fun n g => exists g1 g2, g = g1 ++ g2 /\
                (length g1 = n /\
                 Forall (fun e => exists c l, In c (container_ids cfg) /\
                           In l (lambda_ids cfg) /\
                           is_edge e c l "API Call" "container") g1) /\
                exists m, 10 <= m <= 20 /\ length g2 = m /\
                  Forall (fun e => exists l c, In l (lambda_ids cfg) /\
                            In c (container_ids cfg) /\
                            is_edge e l c "API Call" "lambda") g2) F); [lia|].
    intros n _. apply emits_seq.
    + apply (emits_call_batch (container_ids cfg) (lambda_ids cfg) "container" Hc Hl).
    + apply (emits_randint 10 20 _
               (fun m g => length g = m /\
                  Forall (fun e => exists l c, In l (lambda_ids cfg) /\
                            In c (container_ids cfg) /\
                            is_edge e l c "API Call" "lambda") g) F); [lia|].
      intros m _.
      apply (emits_call_batch (lambda_ids cfg) (container_ids cfg) "lambda" Hl Hc).
  - intros g (n & Hn & g1 & g2 & -> & [Hl1 Hf1] & m & Hm & Hl2 & Hf2).
    exists g1, g2. repeat split; try assumption; lia.
  - auto.
Qed.

Lemma emits_s3_bucket_connections :
  (length service_ids < NUM_S3_BUCKETS cfg -> F InsufficientPopulationError) ->
  emits (s3_bucket_connections cfg) bindings_spec F.
Proof.
  intros He. unfold s3_bucket_connections.
  eapply emits_conseq.
  - apply (emits_sample (lambda_ids cfg ++ container_ids cfg) _ _
             (fun services g => exists groups, g = concat groups /\
                Forall2 (fun p grp => single (snd p) (fst p) "Stores/Reads" "s3" grp)
                        (combine (s3_ids cfg) services) groups) F He).
    intros xs _. apply emits_for. intros [s3 service] _. apply emits_add_edge.
  - intros g (services & Hs & groups & -> & Hall). exists services.
    split; [exact Hs|].
    apply concat_singles. eapply Forall2_impl; [|exact Hall].
    intros p grp. apply single_is_edge.
  - auto.
Qed.

Lemma emits_generate_edges :
  (length service_ids < NUM_API_GATEWAY_TARGETS cfg -> F InsufficientPopulationError) ->
  (length service_ids < NUM_S3_BUCKETS cfg -> F InsufficientPopulationError) ->
  (DBS cfg = [] -> F EmptyChoiceError) ->
  (NUM_TABLES_PER_DB cfg < 1 -> F EmptyRangeError) ->
  (container_ids cfg = [] -> F EmptyChoiceError) ->
  (lambda_ids cfg = [] -> F EmptyChoiceError) ->
  emits (generate_edges cfg) edges_spec F.
Proof.
  intros Hk Hs Hd Hn Hc Hl. unfold generate_edges.
  eapply emits_conseq.
  - apply emits_seq; [apply (emits_api_gateway_routes Hk)|].
    apply emits_seq; [apply (emits_table_access Hd Hn)|].
    apply emits_seq; [apply (emits_stored_proc_tables Hd Hn)|].
    apply emits_seq; [apply (emits_api_calls Hc Hl)|].
    apply (emits_s3_bucket_connections Hs).
  - intros g (r & g1 & -> & Hr & a & g2 & -> & Ha & x & g3 & -> & Hx & c & b & -> & Hcs & Hb).
    exists r, a, x, c, b. repeat split; assumption.
  - auto.
Qed.

End Policies.

(** * The whole script *)

(** The three files written by lines 139-141. *)
Definition output_files (ns : list node) (es : list edge) : list csv_file :=
  [ {| filename := "nodes.csv";
       header := ["id"; "label"; "layer"; "is_partition"; "belongs_to"; "comment"];
       rows := map node_row ns |};
    {| filename := "edges.csv";
       header := ["id"; "source"; "target"; "label"; "layer"; "comment"];
       rows := map edge_row es |};
    {| filename := "layers.csv";
       header := ["id"; "label"; "background_color"; "text_color"; "border_color"];
       rows := map layer_row layers |} ].

Lemma wp_write_outputs (s : state) (Q : unit -> state -> Prop) E :
  (forall s', nodes s' = nodes s -> edges s' = edges s ->
              edge_counter s' = edge_counter s -> same_labels s s' ->
              files s' = files s ++ output_files (nodes s) (edges s) -> Q tt s') ->
  wp write_outputs Q E s.
Proof.
  intros H. unfold write_outputs. repeat wp_step. apply H; simpl; auto.
  - intros c. reflexivity.
  - rewrite <- !app_assoc. reflexivity.
Qed.

(** A run that reached its end: [shuffled] are the label lists after lines
    28-31, [taken] the labels popped, [choices] the engines of the stored
    procedures, [g] the edges. *)
Record ran (cfg : config) (s0 s' : state) (shuffled taken : category -> list string)
    (choices : list string) (g : list edge) : Prop := {
  ran_shuffled : forall c, Permutation (resource_labels s0 c) (shuffled c);
  ran_pools : forall c, shuffled c = resource_labels s' c ++ rev (taken c);
  ran_taken : forall c, length (taken c) = leaf_count cfg c;
  ran_choices_length : length choices = NUM_STORED_PROCS cfg;
  ran_choices : Forall (fun db => In db (DBS cfg)) choices;
  ran_nodes : nodes s' = nodes s0 ++ node_table cfg taken choices;
  ran_edges : edges s' = edges s0 ++ g;
  ran_counter : edge_counter s' = edge_counter s0 + length g;
  ran_ids : map edge_id g = map edge_name (seq (edge_counter s0) (length g));
  ran_spec : edges_spec cfg g;
  ran_files : files s' = files s0 ++ output_files (nodes s') (edges s')
}.

(** A run that raised [e]: either the build did, on a shortage of labels or
    of engines, before any edge was emitted; or a relationship policy did,
    with an exception in [F].  Nothing was written in either case. *)
Inductive run_failure (cfg : config) (F : exn -> Prop) (s0 s' : state) (e : exn) : Prop :=
| failure_in_build s1 :
    shuffled_all s0 s1 -> build_failure cfg s1 s' e ->
    edges s' = edges s0 -> files s' = files s0 ->
    run_failure cfg F s0 s' e
| failure_in_edges shuffled taken choices g :
    (forall c, Permutation (resource_labels s0 c) (shuffled c)) ->
    (forall c, shuffled c = resource_labels s' c ++ rev (taken c)) ->
    (forall c, length (taken c) = leaf_count cfg c) ->
    nodes s' = nodes s0 ++ node_table cfg taken choices ->
    edges s' = edges s0 ++ g ->
    files s' = files s0 ->
    F e ->
    run_failure cfg F s0 s' e.

Lemma wp_generator (cfg : config) (F : exn -> Prop) (s0 : state) :
  (length (service_ids cfg) < NUM_API_GATEWAY_TARGETS cfg ->
   F InsufficientPopulationError) ->
  (length (service_ids cfg) < NUM_S3_BUCKETS cfg -> F InsufficientPopulationError) ->
  (DBS cfg = [] -> F EmptyChoiceError) ->
  (NUM_TABLES_PER_DB cfg < 1 -> F EmptyRangeError) ->
  (container_ids cfg = [] -> F EmptyChoiceError) ->
  (lambda_ids cfg = [] -> F EmptyChoiceError) ->
  wp (generator cfg)
     (fun _ s' => exists shuffled taken choices g, ran cfg s0 s' shuffled taken choices g)
     (fun e s' => run_failure cfg F s0 s' e) s0.
Proof.
  intros Hk Hs Hd Hn Hc Hl. unfold generator.
  wp_step. apply wp_shuffle_labels. intros s1 Hsh.
  pose proof Hsh as (N1 & (E1 & C1 & F1) & P1).
  wp_step. apply wp_build_nodes.
  2:{ intros e s2 Hbf (E2 & C2 & F2).
      apply (failure_in_build cfg F s0 s2 e s1); auto; congruence. }
  intros s2 taken choices [Blen Bcl Bch Bn Bp (E2 & C2 & F2)].
  wp_step.
  apply (wp_conseq _ _ _ _ _ _ (emits_generate_edges cfg F Hk Hs Hd Hn Hc Hl s2)).
  2:{ intros e s3 [(g & E3 & C3 & I3 & N3 & L3 & F3) HF].
      apply (failure_in_edges cfg F s0 s3 e (resource_labels s1) taken choices g); auto.
      - intros c. rewrite L3. apply Bp.
      - congruence.
      - congruence.
      - congruence. }
  intros _ s3 (g & (E3 & C3 & I3 & N3 & L3 & F3) & Hspec).
  apply wp_write_outputs. intros s4 N4 E4 C4 L4 F4.
  exists (resource_labels s1), taken, choices, g. constructor; auto.
  - intros c. rewrite L4, L3. apply Bp.
  - congruence.
  - congruence.
  - congruence.
  - congruence.
  - congruence.
Qed.

(** The outcome of a run, unfolded. *)
Lemma run_inv (cfg : config) (labels : category -> list string) (random : nat -> nat)
    (u : unit) (s' : state) :
  run cfg labels random = Ok u s' ->
  exists shuffled taken choices g,
    ran cfg (initial_state labels random) s' shuffled taken choices g.
Proof.
  intros Hrun.
  pose proof (wp_generator cfg (fun _ => True) (initial_state labels random)
                (fun _ => I) (fun _ => I) (fun _ => I) (fun _ => I) (fun _ => I)
                (fun _ => I)) as H.
  apply (wp_ok _ _ _ _ _ _ H Hrun).
Qed.

Lemma run_raised_inv (cfg : config) (labels : category -> list string)
    (random : nat -> nat) (e : exn) (s' : state) :
  run cfg labels random = Raised e s' ->
  run_failure cfg (fun _ => True) (initial_state labels random) s' e.
Proof.
  intros Hrun.
  pose proof (wp_generator cfg (fun _ => True) (initial_state labels random)
                (fun _ => I) (fun _ => I) (fun _ => I) (fun _ => I) (fun _ => I)
                (fun _ => I)) as H.
  apply (wp_raised _ _ _ _ _ _ H Hrun).
Qed.

(** * Identifiers *)

Lemma str_inj (a b : nat) : str a = str b -> a = b.
Proof.
  unfold str. intros H. apply Unsigned.to_uint_inj.
  apply (f_equal NilEmpty.uint_of_string) in H.
  rewrite !NilEmpty.usu in H. injection H as H. exact H.
Qed.

Lemma append_inj_r (p a b : string) : (p ++ a)%string = (p ++ b)%string -> a = b.
Proof.
  induction p as [|c p IH]; simpl; intros H.
  - exact H.
  - injection H as H. apply IH. exact H.
Qed.

Lemma numbered_ids_NoDup (prefix : string) (a n : nat) :
  NoDup (map (fun i => (prefix ++ str (i + 1))%string) (seq a n)).
Proof.
  apply Injective_map_NoDup; [|apply seq_NoDup].
  intros i j H. apply append_inj_r, str_inj in H. lia.
Qed.

Lemma edge_name_inj (a b : nat) : edge_name a = edge_name b -> a = b.
Proof. unfold edge_name. intros H. apply append_inj_r, str_inj in H. exact H. Qed.

Lemma lambda_ids_length cfg : length (lambda_ids cfg) = NUM_LAMBDAS cfg.
Proof. unfold lambda_ids, range. rewrite length_map, length_seq. reflexivity. Qed.

Lemma container_ids_length cfg : length (container_ids cfg) = NUM_CONTAINERS cfg.
Proof. unfold container_ids, range. rewrite length_map, length_seq. reflexivity. Qed.

Lemma s3_ids_length cfg : length (s3_ids cfg) = NUM_S3_BUCKETS cfg.
Proof. unfold s3_ids, range. rewrite length_map, length_seq. reflexivity. Qed.

Lemma stored_proc_ids_length cfg : length (stored_proc_ids cfg) = NUM_STORED_PROCS cfg.
Proof. unfold stored_proc_ids, range. rewrite length_map, length_seq. reflexivity. Qed.

Lemma service_ids_length cfg :
  length (service_ids cfg) = NUM_LAMBDAS cfg + NUM_CONTAINERS cfg.
Proof.
  unfold service_ids. rewrite length_app, lambda_ids_length, container_ids_length.
  reflexivity.
Qed.

(** No function id is a container id: the prefixes differ. *)
Lemma service_ids_NoDup cfg : NoDup (service_ids cfg).
Proof.
  unfold service_ids, lambda_ids, container_ids, range.
  apply NoDup_app.
  - apply numbered_ids_NoDup.
  - apply numbered_ids_NoDup.
  - intros x Hl Hc.
    apply in_map_iff in Hl. destruct Hl as (i & <- & _).
    apply in_map_iff in Hc. destruct Hc as (j & Hj & _).
    simpl in Hj. discriminate.
Qed.

Lemma s3_ids_NoDup cfg : NoDup (s3_ids cfg).
Proof. apply numbered_ids_NoDup. Qed.

Lemma stored_proc_ids_NoDup cfg : NoDup (stored_proc_ids cfg).
Proof. apply numbered_ids_NoDup. Qed.

(** * The node table as a list *)

Lemma map_combine_l {A B C : Type} (f : A -> C) (l1 : list A) (l2 : list B) :
  length l2 = length l1 -> map (fun p => f (fst p)) (combine l1 l2) = map f l1.
Proof.
  revert l2. induction l1 as [|a l1 IH]; intros [|b l2] H; simpl in *;
    try reflexivity; try discriminate.
  f_equal. apply IH. lia.
Qed.

Lemma map_combine_r {A B C : Type} (f : B -> C) (l1 : list A) (l2 : list B) :
  length l2 = length l1 -> map (fun p => f (snd p)) (combine l1 l2) = map f l2.
Proof.
  revert l2. induction l1 as [|a l1 IH]; intros [|b l2] H; simpl in *;
    try reflexivity; try discriminate.
  f_equal. apply IH. lia.
Qed.

Lemma filter_all {A : Type} (f : A -> bool) (l : list A) :
  Forall (fun x => f x = true) l -> filter f l = l.
Proof.
  induction 1 as [|x l Hx _ IH]; simpl; [reflexivity|]. rewrite Hx, IH. reflexivity.
Qed.

Lemma filter_none {A : Type} (f : A -> bool) (l : list A) :
  Forall (fun x => f x = false) l -> filter f l = [].
Proof.
  induction 1 as [|x l Hx _ IH]; simpl; [reflexivity|]. rewrite Hx, IH. reflexivity.
Qed.

(** What every row of a group of leaves has in common. *)
Definition leaf_of (ly parent : string) (n : node) : Prop :=
  node_layer n = ly /\ is_partition n = "false" /\ belongs_to n = parent /\
  node_comment n = "".

Lemma leaves_leaf_of idf ly parent a n taken :
  Forall (leaf_of ly parent) (leaves idf ly parent a n taken).
Proof.
  unfold leaves. apply Forall_map. apply Forall_forall. intros il _.
  repeat split.
Qed.

Lemma leaves_ids idf ly parent a n taken :
  length taken = n ->
  map node_id (leaves idf ly parent a n taken) = map idf (seq a n).
Proof.
  intros H. unfold leaves. rewrite map_map. simpl.
  apply (map_combine_l idf). rewrite length_seq. exact H.
Qed.

Lemma leaves_labels idf ly parent a n taken :
  length taken = n ->
  map node_label (leaves idf ly parent a n taken) = taken.
Proof.
  intros H. unfold leaves. rewrite map_map. simpl.
  rewrite (map_combine_r (fun l : string => l)) by (rewrite length_seq; exact H).
  apply map_id.
Qed.

Lemma leaves_length idf ly parent a n taken :
  length taken = n -> length (leaves idf ly parent a n taken) = n.
Proof.
  intros H. rewrite <- (length_map node_id), leaves_ids by exact H.
  rewrite length_map, length_seq. reflexivity.
Qed.

Lemma proc_nodes_ids a n choices :
  length choices = n ->
  map node_id (proc_nodes a n choices)
  = map (fun i => ("stored_proc_" ++ str (i + 1))%string) (seq a n).
Proof.
  intros H. unfold proc_nodes. rewrite map_map. simpl.
  apply (map_combine_l (fun i => ("stored_proc_" ++ str (i + 1))%string)).
  rewrite length_seq. exact H.
Qed.

Lemma proc_nodes_parents a n choices :
  length choices = n -> map belongs_to (proc_nodes a n choices) = choices.
Proof.
  intros H. unfold proc_nodes. rewrite map_map. simpl.
  rewrite (map_combine_r (fun l : string => l)) by (rewrite length_seq; exact H).
  apply map_id.
Qed.

Lemma proc_nodes_shape a n choices :
  Forall (fun p => node_layer p = "stored_proc" /\ is_partition p = "false" /\
                   node_comment p = "")
         (proc_nodes a n choices).
Proof.
  unfold proc_nodes. apply Forall_map. apply Forall_forall. intros ic _.
  repeat split.
Qed.

(** The ids of lines 58-62: each engine, then its tables. *)
Definition db_ids (dbs : list string) (n : nat) : list string :=
  flat_map (fun db => db :: map (fun i => table_id db (i + 1)) (seq 0 n)) dbs.

Lemma db_nodes_ids (n : nat) (dbs : list string) :
  forall taken, length taken = length dbs * n ->
    map node_id (db_nodes dbs n taken) = db_ids dbs n.
Proof.
  induction dbs as [|db dbs IH]; intros taken H; simpl in *; [reflexivity|].
  f_equal. rewrite map_app. f_equal.
  - apply leaves_ids. rewrite length_firstn. lia.
  - apply IH. rewrite length_skipn. lia.
Qed.

Lemma db_ids_length (dbs : list string) (n : nat) :
  length (db_ids dbs n) = length dbs * (1 + n).
Proof.
  unfold db_ids. induction dbs as [|db dbs IH]; simpl; [reflexivity|].
  rewrite length_app, length_map, length_seq, IH. lia.
Qed.

Lemma db_nodes_length (n : nat) (dbs : list string) taken :
  length taken = length dbs * n ->
  length (db_nodes dbs n taken) = length dbs * (1 + n).
Proof.
  intros H. rewrite <- (length_map node_id), db_nodes_ids by exact H.
  apply db_ids_length.
Qed.

Lemma in_db_ids_engine (dbs : list string) (n : nat) (db : string) :
  In db dbs -> In db (db_ids dbs n).
Proof.
  intros H. unfold db_ids. apply in_flat_map. exists db. split; [exact H|].
  left. reflexivity.
Qed.

Lemma in_db_ids_table (dbs : list string) (n : nat) (db : string) (k : nat) :
  In db dbs -> 1 <= k <= n -> In (table_id db k) (db_ids dbs n).
Proof.
  intros H Hk. unfold db_ids. apply in_flat_map. exists db. split; [exact H|].
  right. apply in_map_iff. exists (k - 1). split.
  - f_equal. lia.
  - apply in_seq. lia.
Qed.

Section NodeTable.

Variable cfg : config.
Variable taken : category -> list string.
Variable choices : list string.
Hypothesis taken_length : forall c, length (taken c) = leaf_count cfg c.
Hypothesis choices_length : length choices = NUM_STORED_PROCS cfg.

(** The ids of the node table, whatever the labels and the engines picked. *)
Definition node_ids : list string :=
  map node_id root_nodes
  ++ db_ids (DBS cfg) (NUM_TABLES_PER_DB cfg)
  ++ lambda_ids cfg ++ container_ids cfg ++ stored_proc_ids cfg
  ++ ["api_gateway_instance"] ++ s3_ids cfg.

Lemma node_table_ids : map node_id (node_table cfg taken choices) = node_ids.
Proof.
  unfold node_table, node_ids. rewrite !map_app.
  unfold table_nodes, lambda_nodes, container_nodes, s3_nodes.
  rewrite db_nodes_ids by (apply (taken_length database_table)).
  rewrite !leaves_ids by (first [apply (taken_length lambda_function)
                                |apply (taken_length ecs_container)
                                |apply (taken_length s3_object_store)]).
  rewrite proc_nodes_ids by exact choices_length.
  reflexivity.
Qed.

Lemma in_node_ids_gateway : In "api_gateway_instance" node_ids.
Proof. unfold node_ids. rewrite !in_app_iff. do 5 right. left. left. reflexivity. Qed.

Lemma in_node_ids_service x : In x (service_ids cfg) -> In x node_ids.
Proof.
  unfold service_ids, node_ids. rewrite !in_app_iff. tauto.
Qed.

Lemma in_node_ids_proc x : In x (stored_proc_ids cfg) -> In x node_ids.
Proof. unfold node_ids. rewrite !in_app_iff. tauto. Qed.

Lemma in_node_ids_s3 x : In x (s3_ids cfg) -> In x node_ids.
Proof. unfold node_ids. rewrite !in_app_iff. tauto. Qed.

Lemma in_node_ids_table t : is_table_id cfg t -> In t node_ids.
Proof.
  intros (db & k & Hdb & Hk & ->). unfold node_ids. rewrite !in_app_iff.
  right. left. apply in_db_ids_table; assumption.
Qed.

End NodeTable.

(** * The edge table as a list *)

Lemma Forall2_witness_l {A B : Type} (P : A -> B -> Prop) (xs : list A) (ys : list B) :
  Forall2 P xs ys -> Forall (fun y => exists x, In x xs /\ P x y) ys.
Proof.
  induction 1 as [|x y xs ys Hxy _ IH]; constructor.
  - exists x. split; [left; reflexivity|exact Hxy].
  - eapply Forall_impl; [|exact IH]. intros b (a & Ha & Hab).
    exists a. split; [right; exact Ha|exact Hab].
Qed.

Lemma Forall_concat_groups {A B : Type} (G : A -> list B -> Prop) (P : B -> Prop)
    (xs : list A) (groups : list (list B)) :
  Forall2 G xs groups ->
  (forall x grp, In x xs -> G x grp -> Forall P grp) ->
  Forall P (concat groups).
Proof.
  intros H HG. apply Forall_concat. apply Forall2_witness_l in H.
  eapply Forall_impl; [|exact H]. intros grp (x & Hx & Hg). exact (HG x grp Hx Hg).
Qed.

(** The five kinds of rows of the edge table (peer calls come in two
    directions). *)
Inductive edge_kind (cfg : config) (e : edge) : Prop :=
| kind_route t :
    In t (service_ids cfg) ->
    is_edge e "api_gateway_instance" t "API Route" "api_gateway" ->
    edge_kind cfg e
| kind_access f t :
    In f (service_ids cfg) -> is_table_id cfg t ->
    is_edge e f t "Reads/Writes" "table" ->
    edge_kind cfg e
| kind_executes p t :
    In p (stored_proc_ids cfg) -> is_table_id cfg t ->
    is_edge e p t "Executes" "stored_proc" ->
    edge_kind cfg e
| kind_call_from_container c l :
    In c (container_ids cfg) -> In l (lambda_ids cfg) ->
    is_edge e c l "API Call" "container" ->
    edge_kind cfg e
| kind_call_from_lambda l c :
    In l (lambda_ids cfg) -> In c (container_ids cfg) ->
    is_edge e l c "API Call" "lambda" ->
    edge_kind cfg e
| kind_binding b svc :
    In b (s3_ids cfg) -> In svc (service_ids cfg) ->
    is_edge e svc b "Stores/Reads" "s3" ->
    edge_kind cfg e.

Section EdgeKinds.

Variable cfg : config.

Lemma routes_spec_kinds g : routes_spec cfg g -> Forall (edge_kind cfg) g.
Proof.
  intros (targets & Hs & Hall). apply Forall2_witness_l in Hall.
  eapply Forall_impl; [|exact Hall]. intros e (t & Ht & He).
  apply (kind_route cfg e t); [|exact He]. apply (is_sample_incl _ _ _ Hs). exact Ht.
Qed.

Lemma access_spec_kinds g : access_spec cfg g -> Forall (edge_kind cfg) g.
Proof.
  intros (groups & -> & Hall).
  apply (Forall_concat_groups _ _ _ _ Hall). intros f grp Hf [_ Hg].
  eapply Forall_impl; [|exact Hg]. intros e (t & Ht & He).
  exact (kind_access cfg e f t Hf Ht He).
Qed.

Lemma procs_spec_kinds g : procs_spec cfg g -> Forall (edge_kind cfg) g.
Proof.
  intros (groups & -> & Hall).
  apply (Forall_concat_groups _ _ _ _ Hall). intros p grp Hp (db & Hdb & _ & Hg).
  eapply Forall_impl; [|exact Hg]. intros e (k & Hk & He).
  apply (kind_executes cfg e p (table_id db k) Hp); [|exact He].
  exists db, k. auto.
Qed.

Lemma calls_spec_kinds g : calls_spec cfg g -> Forall (edge_kind cfg) g.
Proof.
  intros (g1 & g2 & -> & _ & H1 & _ & H2). apply Forall_app. split.
  - eapply Forall_impl; [|exact H1]. intros e (c & l & Hc & Hl & He).
    exact (kind_call_from_container cfg e c l Hc Hl He).
  - eapply Forall_impl; [|exact H2]. intros e (l & c & Hl & Hc & He).
    exact (kind_call_from_lambda cfg e l c Hl Hc He).
Qed.

Lemma bindings_spec_kinds g : bindings_spec cfg g -> Forall (edge_kind cfg) g.
Proof.
  intros (services & Hs & Hall). apply Forall2_witness_l in Hall.
  eapply Forall_impl; [|exact Hall]. intros e ([b svc] & Hp & He). simpl in He.
  apply (kind_binding cfg e b svc); [| |exact He].
  - apply (in_combine_l _ _ _ _ Hp).
  - apply (is_sample_incl _ _ _ Hs). apply (in_combine_r _ _ _ _ Hp).
Qed.

(** Every row of the edge table is of one of these kinds. *)
Lemma edges_spec_kinds g : edges_spec cfg g -> Forall (edge_kind cfg) g.
Proof.
  intros (r & a & x & c & b & -> & Hr & Ha & Hx & Hc & Hb).
  repeat (apply Forall_app; split);
    auto using routes_spec_kinds, access_spec_kinds, procs_spec_kinds,
               calls_spec_kinds, bindings_spec_kinds.
Qed.

End EdgeKinds.

(** * A concrete run

    Label lists of exactly the sizes the script's constants need, and a
    fixed random source. *)

Definition sample_labels (c : category) : list string :=
  match c with
  | lambda_function => map (fun i => ("fn-" ++ str i)%string) (seq 0 35)
  | ecs_container => map (fun i => ("svc-" ++ str i)%string) (seq 0 10)
  | database_table => map (fun i => ("tbl-" ++ str i)%string) (seq 0 80)
  | s3_object_store => map (fun i => ("bucket-" ++ str i)%string) (seq 0 15)
  end.

Definition sample_random (n : nat) : nat :=
  nth (n mod 16) [3; 1; 4; 1; 5; 9; 2; 6; 5; 3; 5; 8; 9; 7; 9; 3] 0 * 7 + n mod 5.

Definition final_state {A : Type} (o : outcome A) : state :=
  match o with
  | Ok _ s => s
  | Raised _ s => s
  end.

Definition sample_final : state :=
  final_state (run script_config sample_labels sample_random).

Lemma sample_run_ok : run script_config sample_labels sample_random = Ok tt sample_final.
Proof. vm_compute. reflexivity. Qed.

(** A second run of the same configuration: other labels, other choices. *)
Definition other_labels (c : category) : list string :=
  map (fun l => ("x-" ++ l)%string) (rev (sample_labels c)).

Definition other_random (n : nat) : nat :=
  nth (n mod 12) [2; 7; 1; 8; 2; 8; 1; 8; 2; 8; 4; 5] 0 * 5 + n mod 3.

Definition other_final : state :=
  final_state (run script_config other_labels other_random).

Lemma other_run_ok : run script_config other_labels other_random = Ok tt other_final.
Proof. vm_compute. reflexivity. Qed.

(** * Referential integrity of the edge table *)

(** C4: every edge of the edge table produced by a run has a [source] and a
    [target] that are ids of rows of the node table produced by that run,
    whichever policy emitted it and whatever the random choices were; and the
    target of a table-access or stored-procedure edge is [{db}_table_{k}] for
    a configured engine [db] and [1 <= k <= NUM_TABLES_PER_DB]. *)
Theorem edge_endpoints_resolve (cfg : config) (labels : category -> list string)
    (random : nat -> nat) (u : unit) (s' : state) :
  run cfg labels random = Ok u s' ->
  forall e, In e (edges s') ->
    In (source e) (map node_id (nodes s')) /\
    In (target e) (map node_id (nodes s')) /\
    (edge_label e = "Reads/Writes" \/ edge_label e = "Executes" ->
     is_table_id cfg (target e)).
Proof.
  intros Hrun e He.
  destruct (run_inv cfg labels random u s' Hrun) as (sh & taken & choices & g & R).
  replace (nodes s') with (node_table cfg taken choices)
    by (rewrite (ran_nodes _ _ _ _ _ _ _ R); reflexivity).
  rewrite (node_table_ids cfg taken choices
             (ran_taken _ _ _ _ _ _ _ R) (ran_choices_length _ _ _ _ _ _ _ R)).
  replace (edges s') with g in He
    by (rewrite (ran_edges _ _ _ _ _ _ _ R); reflexivity).
  pose proof (edges_spec_kinds cfg g (ran_spec _ _ _ _ _ _ _ R)) as Hk.
  rewrite Forall_forall in Hk. specialize (Hk e He).
  destruct Hk as [t Ht (Hs & Htg & Hl & _)
                 |f t Hf Ht (Hs & Htg & Hl & _)
                 |p t Hp Ht (Hs & Htg & Hl & _)
                 |c l Hc Hl' (Hs & Htg & Hl & _)
                 |l c Hl' Hc (Hs & Htg & Hl & _)
                 |b svc Hb Hsvc (Hs & Htg & Hl & _)];
    rewrite Hs, Htg, Hl.
  - split; [apply in_node_ids_gateway|]. split; [apply in_node_ids_service; exact Ht|].
    intros [H|H]; discriminate.
  - split; [apply in_node_ids_service; exact Hf|].
    split; [apply in_node_ids_table; exact Ht|]. intros _. exact Ht.
  - split; [apply in_node_ids_proc; exact Hp|].
    split; [apply in_node_ids_table; exact Ht|]. intros _. exact Ht.
  - split; [apply in_node_ids_service; unfold service_ids; apply in_or_app; right; exact Hc|].
    split; [apply in_node_ids_service; unfold service_ids; apply in_or_app; left; exact Hl'|].
    intros [H|H]; discriminate.
  - split; [apply in_node_ids_service; unfold service_ids; apply in_or_app; left; exact Hl'|].
    split; [apply in_node_ids_service; unfold service_ids; apply in_or_app; right; exact Hc|].
    intros [H|H]; discriminate.
  - split; [apply in_node_ids_service; exact Hsvc|].
    split; [apply in_node_ids_s3; exact Hb|].
    intros [H|H]; discriminate.
Qed.

Lemma edge_endpoints_resolve_witness :
  run script_config sample_labels sample_random = Ok tt sample_final /\
  forall e, In e (edges sample_final) ->
    In (source e) (map node_id (nodes sample_final)) /\
    In (target e) (map node_id (nodes sample_final)) /\
    (edge_label e = "Reads/Writes" \/ edge_label e = "Executes" ->
     is_table_id script_config (target e)).
Proof.
  split; [exact sample_run_ok|].
  exact (edge_endpoints_resolve script_config sample_labels sample_random tt
           sample_final sample_run_ok).
Defined.

(** * Edge ids *)

Section PolicyLabels.

Variable cfg : config.

Lemma routes_spec_label g :
  routes_spec cfg g -> Forall (fun e => edge_label e = "API Route") g.
Proof.
  intros (targets & _ & Hall). apply Forall2_witness_l in Hall.
  eapply Forall_impl; [|exact Hall]. intros e (t & _ & _ & _ & Hl & _). exact Hl.
Qed.

Lemma access_spec_label g :
  access_spec cfg g -> Forall (fun e => edge_label e = "Reads/Writes") g.
Proof.
  intros (groups & -> & Hall).
  apply (Forall_concat_groups _ _ _ _ Hall). intros f grp _ [_ Hg].
  eapply Forall_impl; [|exact Hg]. intros e (t & _ & _ & _ & Hl & _). exact Hl.
Qed.

Lemma procs_spec_label g :
  procs_spec cfg g -> Forall (fun e => edge_label e = "Executes") g.
Proof.
  intros (groups & -> & Hall).
  apply (Forall_concat_groups _ _ _ _ Hall). intros p grp _ (db & _ & _ & Hg).
  eapply Forall_impl; [|exact Hg]. intros e (k & _ & _ & _ & Hl & _). exact Hl.
Qed.

Lemma calls_spec_label g :
  calls_spec cfg g -> Forall (fun e => edge_label e = "API Call") g.
Proof.
  intros (g1 & g2 & -> & _ & H1 & _ & H2). apply Forall_app. split.
  - eapply Forall_impl; [|exact H1]. intros e (c & l & _ & _ & _ & _ & Hl & _). exact Hl.
  - eapply Forall_impl; [|exact H2]. intros e (l & c & _ & _ & _ & _ & Hl & _). exact Hl.
Qed.

Lemma bindings_spec_label g :
  bindings_spec cfg g -> Forall (fun e => edge_label e = "Stores/Reads") g.
Proof.
  intros (services & _ & Hall). apply Forall2_witness_l in Hall.
  eapply Forall_impl; [|exact Hall]. intros e (p & _ & _ & _ & Hl & _). exact Hl.
Qed.

End PolicyLabels.

Lemma numbered_nth {A : Type} (f : A -> string) (l : list A) :
  forall a n x,
    map f l = map edge_name (seq a (length l)) ->
    nth_error l n = Some x -> f x = edge_name (a + n).
Proof.
  induction l as [|y l IH]; intros a n x Hmap Hn.
  - destruct n; discriminate.
  - simpl in Hmap. injection Hmap as Hy Hl. destruct n as [|n]; simpl in Hn.
    + injection Hn as <-. rewrite Nat.add_0_r. exact Hy.
    + rewrite <- Nat.add_succ_comm. apply (IH (S a) n x Hl Hn).
Qed.

(** C6: edge ids come from one counter shared by the five policies, which
    run in the order gateway routing, resource access, stored-procedure
    execution, peer calls, storage bindings: the edge table is the
    concatenation of what the five policies emit, in that order; its n-th
    row (counting from 1) has id [edge_<n>]; the ids are pairwise distinct;
    and the counter ends one above the number of edges. *)
Theorem edge_ids_sequential (cfg : config) (labels : category -> list string)
    (random : nat -> nat) (u : unit) (s' : state) :
  run cfg labels random = Ok u s' ->
  (forall n e, nth_error (edges s') n = Some e ->
               edge_id e = ("edge_" ++ str (n + 1))%string) /\
  NoDup (map edge_id (edges s')) /\
  edge_counter s' = length (edges s') + 1 /\
  exists r a x c b,
    edges s' = r ++ a ++ x ++ c ++ b /\
    Forall (fun e => edge_label e = "API Route") r /\
    Forall (fun e => edge_label e = "Reads/Writes") a /\
    Forall (fun e => edge_label e = "Executes") x /\
    Forall (fun e => edge_label e = "API Call") c /\
    Forall (fun e => edge_label e = "Stores/Reads") b.
Proof.
  intros Hrun.
  destruct (run_inv cfg labels random u s' Hrun) as (sh & taken & choices & g & R).
  assert (Hg : edges s' = g)
    by (rewrite (ran_edges _ _ _ _ _ _ _ R); reflexivity).
  pose proof (ran_ids _ _ _ _ _ _ _ R) as Hids.
  change (edge_counter (initial_state labels random)) with 1 in Hids.
  rewrite Hg. split; [|split; [|split]].
  - intros n e Hn. rewrite (numbered_nth edge_id g 1 n e Hids Hn).
    unfold edge_name. f_equal. f_equal. lia.
  - rewrite Hids. apply Injective_map_NoDup; [|apply seq_NoDup].
    intros a b. apply edge_name_inj.
  - rewrite (ran_counter _ _ _ _ _ _ _ R). simpl. lia.
  - destruct (ran_spec _ _ _ _ _ _ _ R)
      as (r & a & x & c & b & -> & Hr & Ha & Hx & Hc & Hb).
    exists r, a, x, c, b. split; [reflexivity|].
    split; [exact (routes_spec_label cfg r Hr)|].
    split; [exact (access_spec_label cfg a Ha)|].
    split; [exact (procs_spec_label cfg x Hx)|].
    split; [exact (calls_spec_label cfg c Hc)|].
    exact (bindings_spec_label cfg b Hb).
Qed.

Lemma edge_ids_sequential_witness :
  run script_config sample_labels sample_random = Ok tt sample_final /\
  (forall n e, nth_error (edges sample_final) n = Some e ->
               edge_id e = ("edge_" ++ str (n + 1))%string) /\
  NoDup (map edge_id (edges sample_final)) /\
  edge_counter sample_final = length (edges sample_final) + 1 /\
  exists r a x c b,
    edges sample_final = r ++ a ++ x ++ c ++ b /\
    Forall (fun e => edge_label e = "API Route") r /\
    Forall (fun e => edge_label e = "Reads/Writes") a /\
    Forall (fun e => edge_label e = "Executes") x /\
    Forall (fun e => edge_label e = "API Call") c /\
    Forall (fun e => edge_label e = "Stores/Reads") b.
Proof.
  split; [exact sample_run_ok|].
  exact (edge_ids_sequential script_config sample_labels sample_random tt
           sample_final sample_run_ok).
Defined.

(** * Layer tags *)

(** C9: whatever the configuration, the label lists and the random choices,
    every [layer] value of the node table and of the edge table the script
    holds when it stops (at its end, or at a raised exception) is one of the
    eight ids of the layer table: database, table, lambda, container,
    stored_proc, api_gateway, s3, root. *)
Theorem layer_tags_closed (cfg : config) (labels : category -> list string)
    (random : nat -> nat) :
  map layer_id layers =
    ["database"; "table"; "lambda"; "container"; "stored_proc"; "api_gateway";
     "s3"; "root"] /\
  Forall (fun n => In (node_layer n) (map layer_id layers))
         (nodes (final_state (run cfg labels random))) /\
  Forall (fun e => In (edge_layer e) (map layer_id layers))
         (edges (final_state (run cfg labels random))).
Proof.
  split; [reflexivity|].
  assert (H0 : layers_ok (initial_state labels random)).
  { split; constructor. }
  pose proof (generator_layers_ok cfg (initial_state labels random) H0) as H.
  unfold wp in H. unfold run.
  destruct (generator cfg (initial_state labels random)) as [u s'|e s']; exact H.
Qed.

(** * The shape of the node table *)

(** The rows of lines 75-77: the stored procedures themselves, not the
    partition of lines 54-55 that has the same layer. *)
Definition is_proc_row (n : node) : bool :=
  (node_layer n =? "stored_proc")%string && (is_partition n =? "false")%string.

(** What a row holds besides its label and, for a stored procedure, its
    parent. *)
Definition fixed_part (n : node) : string * string * string * string * string :=
  (node_id n, node_layer n, is_partition n, node_comment n,
   if is_proc_row n then "" else belongs_to n).

Definition node_shape (n : node) : string * string * string :=
  (node_id n, node_layer n, is_partition n).

Lemma leaves_fixed idf ly parent a n taken :
  length taken = n ->
  map fixed_part (leaves idf ly parent a n taken)
  = map (fun i => fixed_part (leaf_node (idf i) "" ly parent)) (seq a n).
Proof.
  intros H. unfold leaves. rewrite map_map.
  apply (map_combine_l (fun i => fixed_part (leaf_node (idf i) "" ly parent))).
  rewrite length_seq. exact H.
Qed.

Lemma proc_nodes_fixed a n choices :
  length choices = n ->
  map fixed_part (proc_nodes a n choices)
  = map (fun i => fixed_part (leaf_node ("stored_proc_" ++ str (i + 1))%string ""
                                        "stored_proc" ""))
        (seq a n).
Proof.
  intros H. unfold proc_nodes. rewrite map_map.
  apply (map_combine_l
           (fun i => fixed_part (leaf_node ("stored_proc_" ++ str (i + 1))%string ""
                                           "stored_proc" ""))).
  rewrite length_seq. exact H.
Qed.

Lemma db_nodes_fixed (n : nat) (dbs : list string) :
  forall taken, length taken = length dbs * n ->
    map fixed_part (db_nodes dbs n taken)
    = flat_map (fun db =>
                  fixed_part (partition_node db (upper db) "database" "database")
                  :: map (fun i => fixed_part (leaf_node (table_id db (i + 1)) ""
                                                         "table" db))
                         (seq 0 n))
               dbs.
Proof.
  induction dbs as [|db dbs IH]; intros taken H; simpl in *; [reflexivity|].
  f_equal. rewrite map_app. f_equal.
  - apply (leaves_fixed (fun i => table_id db (i + 1))).
    rewrite length_firstn. lia.
  - apply IH. rewrite length_skipn. lia.
Qed.

(** The fixed part of the node table depends on the configuration only. *)
Lemma node_table_fixed (cfg : config) (t1 t2 : category -> list string)
    (c1 c2 : list string) :
  (forall c, length (t1 c) = leaf_count cfg c) ->
  (forall c, length (t2 c) = leaf_count cfg c) ->
  length c1 = NUM_STORED_PROCS cfg -> length c2 = NUM_STORED_PROCS cfg ->
  map fixed_part (node_table cfg t1 c1) = map fixed_part (node_table cfg t2 c2).
Proof.
  intros H1 H2 L1 L2. unfold node_table. rewrite !map_app.
  unfold table_nodes, lambda_nodes, container_nodes, s3_nodes.
  rewrite !db_nodes_fixed
    by (first [apply (H1 database_table)|apply (H2 database_table)]).
  rewrite !leaves_fixed
    by (first [apply (H1 lambda_function)|apply (H2 lambda_function)
              |apply (H1 ecs_container)|apply (H2 ecs_container)
              |apply (H1 s3_object_store)|apply (H2 s3_object_store)]).
  rewrite !proc_nodes_fixed by assumption.
  reflexivity.
Qed.

Lemma map_eq_Forall2 {A B : Type} (f : A -> B) (l1 l2 : list A) :
  map f l1 = map f l2 -> Forall2 (fun a b => f a = f b) l1 l2.
Proof.
  revert l2. induction l1 as [|a l1 IH]; intros [|b l2] H; simpl in H;
    try discriminate; constructor.
  - injection H as H _. exact H.
  - apply IH. injection H as _ H. exact H.
Qed.

(** C10: two runs of one configuration that reach their end, whatever the
    label lists and the random choices of each, produce node tables of the
    same length with the same ([id], [layer], [is_partition]) triples in the
    same order; row by row the comments agree too, and so do the parents
    of every row that is not a stored-procedure leaf - the partition
    [stored_proc] included.  Only labels and the parents of stored
    procedures can differ. *)
Theorem node_table_shape_fixed (cfg : config)
    (labels1 labels2 : category -> list string) (random1 random2 : nat -> nat)
    (u1 u2 : unit) (s1 s2 : state) :
  run cfg labels1 random1 = Ok u1 s1 ->
  run cfg labels2 random2 = Ok u2 s2 ->
  length (nodes s1) = length (nodes s2) /\
  map node_shape (nodes s1) = map node_shape (nodes s2) /\
  Forall2 (fun n1 n2 =>
             node_comment n1 = node_comment n2 /\
             (is_proc_row n1 = false -> belongs_to n1 = belongs_to n2))
          (nodes s1) (nodes s2).
Proof.
  intros Hrun1 Hrun2.
  destruct (run_inv cfg labels1 random1 u1 s1 Hrun1) as (sh1 & t1 & c1 & g1 & R1).
  destruct (run_inv cfg labels2 random2 u2 s2 Hrun2) as (sh2 & t2 & c2 & g2 & R2).
  assert (N1 : nodes s1 = node_table cfg t1 c1)
    by (rewrite (ran_nodes _ _ _ _ _ _ _ R1); reflexivity).
  assert (N2 : nodes s2 = node_table cfg t2 c2)
    by (rewrite (ran_nodes _ _ _ _ _ _ _ R2); reflexivity).
  pose proof (node_table_fixed cfg t1 t2 c1 c2
                (ran_taken _ _ _ _ _ _ _ R1) (ran_taken _ _ _ _ _ _ _ R2)
                (ran_choices_length _ _ _ _ _ _ _ R1)
                (ran_choices_length _ _ _ _ _ _ _ R2)) as Hfix.
  rewrite <- N1, <- N2 in Hfix. split; [|split].
  - rewrite <- (length_map fixed_part (nodes s1)), Hfix. apply length_map.
  - apply (f_equal (map (fun p : string * string * string * string * string =>
                           let '(i, ly, part, _, _) := p in (i, ly, part)))) in Hfix.
    rewrite !map_map in Hfix. exact Hfix.
  - apply map_eq_Forall2 in Hfix. eapply Forall2_impl; [|exact Hfix].
    intros n1 n2 Heq. unfold fixed_part in Heq.
    injection Heq as _ Hly Hpart Hc Hp. split; [exact Hc|].
    intros Hne.
    assert (Hne2 : is_proc_row n2 = false)
      by (unfold is_proc_row in *; rewrite <- Hly, <- Hpart; exact Hne).
    rewrite Hne, Hne2 in Hp. exact Hp.
Qed.

Lemma node_table_shape_fixed_witness :
  run script_config sample_labels sample_random = Ok tt sample_final /\
  run script_config other_labels other_random = Ok tt other_final /\
  length (nodes sample_final) = length (nodes other_final) /\
  map node_shape (nodes sample_final) = map node_shape (nodes other_final) /\
  Forall2 (fun n1 n2 =>
             node_comment n1 = node_comment n2 /\
             (is_proc_row n1 = false -> belongs_to n1 = belongs_to n2))
          (nodes sample_final) (nodes other_final).
Proof.
  split; [exact sample_run_ok|]. split; [exact other_run_ok|].
  exact (node_table_shape_fixed script_config sample_labels other_labels
           sample_random other_random tt tt sample_final other_final
           sample_run_ok other_run_ok).
Defined.

(** The two sample runs do differ where they may: in a label and in the
    parent of a stored procedure. *)
Example sample_runs_differ :
  map node_label (nodes sample_final) <> map node_label (nodes other_final) /\
  map belongs_to (nodes sample_final) <> map belongs_to (nodes other_final).
Proof. split; vm_compute; intros H; discriminate H. Qed.

(** * Ownership *)

(** Every row of [l] has no parent or a parent among [seen] and the ids of
    the rows before it. *)
Fixpoint resolved (seen : list string) (l : list node) : Prop :=
  match l with
  | [] => True
  | n :: r =>
      (belongs_to n = "" \/ In (belongs_to n) seen) /\
      resolved (seen ++ [node_id n]) r
  end.

Lemma resolved_app (l1 : list node) :
  forall seen l2,
    resolved seen l1 -> resolved (seen ++ map node_id l1) l2 ->
    resolved seen (l1 ++ l2).
Proof.
  induction l1 as [|n r IH]; intros seen l2 H1 H2; simpl in *.
  - rewrite app_nil_r in H2. exact H2.
  - destruct H1 as [Hn Hr]. split; [exact Hn|].
    apply IH; [exact Hr|]. rewrite <- app_assoc. exact H2.
Qed.

Lemma resolved_Forall (l : list node) :
  forall seen, Forall (fun n => In (belongs_to n) seen) l -> resolved seen l.
Proof.
  induction l as [|n r IH]; intros seen H; simpl; [exact I|].
  inversion H as [|? ? Hn Hr]; subst. split; [right; exact Hn|].
  apply IH. eapply Forall_impl; [|exact Hr].
  intros m Hm. apply in_or_app. left. exact Hm.
Qed.

Lemma resolved_nth (l : list node) :
  forall seen i n,
    resolved seen l -> nth_error l i = Some n ->
    belongs_to n = "" \/ In (belongs_to n) (seen ++ map node_id (firstn i l)).
Proof.
  induction l as [|m r IH]; intros seen i n H Hi.
  - destruct i; discriminate.
  - destruct H as [Hm Hr]. destruct i as [|i]; simpl in *.
    + injection Hi as <-. rewrite app_nil_r. exact Hm.
    + destruct (IH _ i n Hr Hi) as [H|H]; [left; exact H|right].
      rewrite <- app_assoc in H. exact H.
Qed.

(** In the formulation by positions: an earlier row carries the parent's
    id. *)
Lemma resolved_earlier (l : list node) (i : nat) (n : node) :
  resolved [] l -> nth_error l i = Some n -> belongs_to n <> "" ->
  exists j p, j < i /\ nth_error l j = Some p /\ node_id p = belongs_to n.
Proof.
  intros H Hi Hne.
  destruct (resolved_nth l [] i n H Hi) as [He|Hin]; [contradiction|].
  simpl in Hin. apply in_map_iff in Hin. destruct Hin as (p & Hp & Hin).
  apply In_nth_error in Hin. destruct Hin as (j & Hj).
  assert (Hlt : j < i).
  { assert (j < length (firstn i l)) by (apply nth_error_Some; congruence).
    rewrite length_firstn in H0. lia. }
  exists j, p. split; [exact Hlt|]. split; [|exact Hp].
  rewrite <- Hj, nth_error_firstn.
  destruct (Nat.ltb_spec j i) as [_|Hge]; [reflexivity|lia].
Qed.

Lemma leaves_parent idf ly parent a n taken :
  Forall (fun m => belongs_to m = parent) (leaves idf ly parent a n taken).
Proof.
  eapply Forall_impl; [|apply leaves_leaf_of]. intros m (_ & _ & H & _). exact H.
Qed.

Lemma db_nodes_resolved (n : nat) (dbs : list string) :
  forall seen taken, In "database" seen -> resolved seen (db_nodes dbs n taken).
Proof.
  induction dbs as [|db dbs IH]; intros seen taken Hin; simpl; [exact I|].
  split; [right; exact Hin|].
  apply resolved_app.
  - apply resolved_Forall. eapply Forall_impl; [|apply leaves_parent].
    intros m ->. apply in_or_app. right. left. reflexivity.
  - apply IH. apply in_or_app. left. apply in_or_app. left. exact Hin.
Qed.

(** The parents of the rows of lines 58-62. *)
Lemma db_nodes_parents (n : nat) (dbs : list string) :
  forall taken,
    Forall (fun m => belongs_to m = "database" \/ In (belongs_to m) dbs)
           (db_nodes dbs n taken).
Proof.
  induction dbs as [|db dbs IH]; intros taken; simpl; [constructor|].
  constructor; [left; reflexivity|]. apply Forall_app. split.
  - eapply Forall_impl; [|apply leaves_parent]. intros m ->. right. left. reflexivity.
  - eapply Forall_impl; [|apply IH]. intros m [H|H]; [left; exact H|right; right; exact H].
Qed.

Lemma proc_nodes_parent_in (dbs : list string) a n choices :
  length choices = n -> Forall (fun db => In db dbs) choices ->
  Forall (fun m => In (belongs_to m) dbs) (proc_nodes a n choices).
Proof.
  intros Hlen Hall. apply Forall_map with (f := belongs_to) (P := fun p => In p dbs).
  rewrite (proc_nodes_parents a n choices Hlen). exact Hall.
Qed.

Section Ownership.

Variable cfg : config.
Variable taken : category -> list string.
Variable choices : list string.
Hypothesis taken_length : forall c, length (taken c) = leaf_count cfg c.
Hypothesis choices_length : length choices = NUM_STORED_PROCS cfg.
Hypothesis choices_in : Forall (fun db => In db (DBS cfg)) choices.

Lemma root_nodes_resolved : resolved [] root_nodes.
Proof. simpl. intuition. Qed.

Ltac in_seen := rewrite ?in_app_iff; simpl; intuition.

Lemma node_table_resolved : resolved [] (node_table cfg taken choices).
Proof.
  unfold node_table.
  apply resolved_app; [exact root_nodes_resolved|].
  apply resolved_app; [apply db_nodes_resolved; in_seen|].
  apply resolved_app.
  { apply resolved_Forall. eapply Forall_impl; [|apply leaves_parent].
    intros m ->. in_seen. }
  apply resolved_app.
  { apply resolved_Forall. eapply Forall_impl; [|apply leaves_parent].
    intros m ->. in_seen. }
  apply resolved_app.
  { apply resolved_Forall.
    eapply Forall_impl;
      [|apply (proc_nodes_parent_in (DBS cfg) 0 _ choices choices_length choices_in)].
    intros m Hm. rewrite <- !app_assoc. apply in_or_app. right.
    apply in_or_app. right. apply in_or_app. left.
    unfold table_nodes.
    rewrite (db_nodes_ids _ _ _ (taken_length database_table)).
    apply in_db_ids_engine. exact Hm. }
  apply resolved_app.
  { simpl. split; [right; in_seen|exact I]. }
  apply resolved_Forall. eapply Forall_impl; [|apply leaves_parent].
  intros m ->. in_seen.
Qed.

(** Only the first row has no parent, provided no engine has an empty
    name. *)
Lemma node_table_root :
  ~ In "" (DBS cfg) ->
  exists root rest,
    node_table cfg taken choices = root :: rest /\
    node_id root = "project" /\ belongs_to root = "" /\
    Forall (fun n => belongs_to n <> "") rest.
Proof.
  intros Hne. unfold node_table, root_nodes.
  eexists. eexists. split; [simpl; reflexivity|].
  split; [reflexivity|]. split; [reflexivity|].
  assert (Hdb : forall m, In (belongs_to m) (DBS cfg) -> belongs_to m <> "").
  { intros m Hm Heq. rewrite Heq in Hm. contradiction. }
  repeat (apply Forall_cons; [simpl; discriminate|]).
  apply Forall_app. split.
  { eapply Forall_impl; [|apply db_nodes_parents].
    intros m [H|H]; [rewrite H; discriminate|apply Hdb; exact H]. }
  apply Forall_app. split.
  { eapply Forall_impl; [|apply leaves_parent]. intros m ->. discriminate. }
  apply Forall_app. split.
  { eapply Forall_impl; [|apply leaves_parent]. intros m ->. discriminate. }
  apply Forall_app. split.
  { eapply Forall_impl;
      [|apply (proc_nodes_parent_in (DBS cfg) 0 _ choices choices_length choices_in)].
    intros m Hm. apply Hdb. exact Hm. }
  constructor; [simpl; discriminate|].
  eapply Forall_impl; [|apply leaves_parent]. intros m ->. discriminate.
Qed.

End Ownership.

(** C5: in the node table of a run that reached its end, a row with a
    non-empty [belongs_to] names the [id] of a row created strictly earlier,
    whatever the configuration; the first row is the root [project], with
    an empty [belongs_to]; and when no configured engine has an empty name,
    it is the only row with an empty [belongs_to]. *)
Theorem ownership_is_a_tree (cfg : config) (labels : category -> list string)
    (random : nat -> nat) (u : unit) (s' : state) :
  run cfg labels random = Ok u s' ->
  (forall i n, nth_error (nodes s') i = Some n -> belongs_to n <> "" ->
     exists j p, j < i /\ nth_error (nodes s') j = Some p /\
                 node_id p = belongs_to n) /\
  (exists root rest,
     nodes s' = root :: rest /\ node_id root = "project" /\ belongs_to root = "" /\
     (~ In "" (DBS cfg) -> Forall (fun n => belongs_to n <> "") rest)).
Proof.
  intros Hrun.
  destruct (run_inv cfg labels random u s' Hrun) as (sh & taken & choices & g & R).
  assert (N : nodes s' = node_table cfg taken choices)
    by (rewrite (ran_nodes _ _ _ _ _ _ _ R); reflexivity).
  rewrite N. split.
  - intros i n Hi Hp. apply resolved_earlier; [|exact Hi|exact Hp].
    apply node_table_resolved.
    + exact (ran_taken _ _ _ _ _ _ _ R).
    + exact (ran_choices_length _ _ _ _ _ _ _ R).
    + exact (ran_choices _ _ _ _ _ _ _ R).
  - exists (partition_node "project" "Project" "root" "").
    eexists. split; [unfold node_table, root_nodes; simpl; reflexivity|].
    split; [reflexivity|]. split; [reflexivity|]. intros Hne.
    destruct (node_table_root cfg taken choices
                (ran_choices_length _ _ _ _ _ _ _ R) (ran_choices _ _ _ _ _ _ _ R) Hne)
      as (root & rest & Heq & _ & _ & Hall).
    unfold node_table, root_nodes in Heq. simpl in Heq.
    injection Heq as _ Heq. rewrite Heq. exact Hall.
Qed.

Lemma script_engines_named : ~ In "" (DBS script_config).
Proof. simpl. intros [H|[H|[]]]; discriminate H. Qed.

Lemma ownership_is_a_tree_witness :
  run script_config sample_labels sample_random = Ok tt sample_final /\
  (forall i n, nth_error (nodes sample_final) i = Some n -> belongs_to n <> "" ->
     exists j p, j < i /\ nth_error (nodes sample_final) j = Some p /\
                 node_id p = belongs_to n) /\
  (exists root rest,
     nodes sample_final = root :: rest /\ node_id root = "project" /\
     belongs_to root = "" /\
     (~ In "" (DBS script_config) -> Forall (fun n => belongs_to n <> "") rest)).
Proof.
  split; [exact sample_run_ok|].
  exact (ownership_is_a_tree script_config sample_labels sample_random tt sample_final
           sample_run_ok).
Defined.

(** An engine with the empty name: [belongs_to or ""] leaves its tables, and
    the stored procedures it is picked for, without a parent. *)
Definition nameless_config : config := {|
  NUM_TABLES_PER_DB := 2;
  NUM_LAMBDAS := 1;
  NUM_CONTAINERS := 1;
  NUM_STORED_PROCS := 1;
  NUM_API_GATEWAY_TARGETS := 1;
  NUM_S3_BUCKETS := 1;
  DBS := ["mysql"; ""]
|}.

Definition nameless_labels (c : category) : list string :=
  match c with
  | database_table => ["orders"; "users"; "carts"; "items"]
  | lambda_function => ["resize"]
  | ecs_container => ["web"]
  | s3_object_store => ["assets"]
  end.

Definition nameless_final : state :=
  final_state (run nameless_config nameless_labels (fun n => n)).

(** The run reaches its end, with four rows that have no parent: the root,
    the two tables of the nameless engine, and the stored procedure, for
    which that engine was picked. *)
Lemma ownership_two_roots :
  run nameless_config nameless_labels (fun n => n) = Ok tt nameless_final /\
  map node_id (filter (fun n => (belongs_to n =? "")%string) (nodes nameless_final))
  = ["project"; "_table_1"; "_table_2"; "stored_proc_1"].
Proof. vm_compute. split; reflexivity. Qed.

(** * Labels *)

(** The layer of the leaves that take their label from the list under [c]. *)
Definition leaf_layer (c : category) : string :=
  match c with
  | database_table => "table"
  | lambda_function => "lambda"
  | ecs_container => "container"
  | s3_object_store => "s3"
  end.

Definition is_leaf_of (c : category) (n : node) : bool :=
  (node_layer n =? leaf_layer c)%string && (is_partition n =? "false")%string.

(** The leaves of category [c] in a node table, in build order. *)
Definition leaf_rows (c : category) (ns : list node) : list node :=
  filter (is_leaf_of c) ns.

(** The labels drawn for category [c], read off the node table. *)
Definition drawn_labels (c : category) (ns : list node) : list string :=
  map node_label (leaf_rows c ns).

Lemma leaf_rows_app c l1 l2 : leaf_rows c (l1 ++ l2) = leaf_rows c l1 ++ leaf_rows c l2.
Proof. apply filter_app. Qed.

Lemma leaf_rows_none c l :
  Forall (fun n => is_leaf_of c n = false) l -> leaf_rows c l = [].
Proof. apply filter_none. Qed.

Lemma leaf_rows_leaves_same c idf parent a n taken :
  leaf_rows c (leaves idf (leaf_layer c) parent a n taken)
  = leaves idf (leaf_layer c) parent a n taken.
Proof.
  apply filter_all. eapply Forall_impl; [|apply leaves_leaf_of].
  intros m (Hl & Hp & _). unfold is_leaf_of. rewrite Hl, Hp, String.eqb_refl.
  reflexivity.
Qed.

Lemma leaf_rows_leaves_other c idf ly parent a n taken :
  (ly =? leaf_layer c)%string = false ->
  leaf_rows c (leaves idf ly parent a n taken) = [].
Proof.
  intros H. apply leaf_rows_none.
  eapply Forall_impl; [|apply leaves_leaf_of].
  intros m (Hl & _). unfold is_leaf_of. rewrite Hl, H. reflexivity.
Qed.

Lemma drawn_db_nodes_tables (n : nat) (dbs : list string) :
  forall taken, length taken = length dbs * n ->
    drawn_labels database_table (db_nodes dbs n taken) = taken.
Proof.
  unfold drawn_labels.
  induction dbs as [|db dbs IH]; intros taken H; simpl in H.
  - destruct taken; [reflexivity|discriminate].
  - cbn [db_nodes].
    change (leaf_rows database_table (?x :: ?l))
      with (leaf_rows database_table ([x] ++ l)).
    rewrite !leaf_rows_app, !map_app.
    rewrite (leaf_rows_leaves_same database_table).
    rewrite leaves_labels by (rewrite length_firstn; lia).
    rewrite IH by (rewrite length_skipn; lia).
    simpl. apply firstn_skipn.
Qed.

Lemma leaf_rows_db_nodes_other c (n : nat) (dbs : list string) :
  c <> database_table ->
  forall taken, leaf_rows c (db_nodes dbs n taken) = [].
Proof.
  intros Hc. induction dbs as [|db dbs IH]; intros taken; [reflexivity|].
  cbn [db_nodes].
  change (leaf_rows c (?x :: ?l)) with (leaf_rows c ([x] ++ l)).
  rewrite !leaf_rows_app, IH. rewrite leaf_rows_leaves_other.
  - destruct c; reflexivity.
  - destruct c; try reflexivity. contradiction Hc. reflexivity.
Qed.

Lemma leaf_rows_proc_nodes c a n choices : leaf_rows c (proc_nodes a n choices) = [].
Proof.
  apply leaf_rows_none. eapply Forall_impl; [|apply proc_nodes_shape].
  intros m (Hl & _). unfold is_leaf_of. rewrite Hl. destruct c; reflexivity.
Qed.

(** The leaves of the function, container and object-store categories are
    the rows their loops created. *)
Lemma leaf_rows_node_table (cfg : config) (taken : category -> list string)
    (choices : list string) (c : category) :
  c <> database_table ->
  leaf_rows c (node_table cfg taken choices)
  = match c with
    | lambda_function => lambda_nodes cfg (taken lambda_function)
    | ecs_container => container_nodes cfg (taken ecs_container)
    | s3_object_store => s3_nodes cfg (taken s3_object_store)
    | database_table => []
    end.
Proof.
  intros Hc. unfold node_table. rewrite !leaf_rows_app.
  unfold table_nodes, lambda_nodes, container_nodes, s3_nodes.
  rewrite leaf_rows_proc_nodes, leaf_rows_db_nodes_other by exact Hc.
  destruct c.
  - rewrite (leaf_rows_leaves_same lambda_function).
    rewrite !leaf_rows_leaves_other by reflexivity.
    simpl. apply app_nil_r.
  - rewrite (leaf_rows_leaves_same ecs_container).
    rewrite !leaf_rows_leaves_other by reflexivity.
    simpl. apply app_nil_r.
  - contradiction Hc. reflexivity.
  - rewrite (leaf_rows_leaves_same s3_object_store).
    rewrite !leaf_rows_leaves_other by reflexivity.
    reflexivity.
Qed.

(** The labels on the leaves of the node table are the labels popped. *)
Lemma drawn_node_table (cfg : config) (taken : category -> list string)
    (choices : list string) (c : category) :
  (forall c, length (taken c) = leaf_count cfg c) ->
  drawn_labels c (node_table cfg taken choices) = taken c.
Proof.
  intros Hlen. unfold drawn_labels.
  destruct c;
    try (rewrite leaf_rows_node_table by discriminate;
         apply leaves_labels;
         first [apply (Hlen lambda_function)|apply (Hlen ecs_container)
               |apply (Hlen s3_object_store)]).
  unfold node_table. rewrite !leaf_rows_app.
  unfold lambda_nodes, container_nodes, s3_nodes.
  rewrite leaf_rows_proc_nodes, !leaf_rows_leaves_other by reflexivity.
  rewrite !map_app.
  change (map node_label (leaf_rows database_table (table_nodes cfg (taken database_table))))
    with (drawn_labels database_table
            (db_nodes (DBS cfg) (NUM_TABLES_PER_DB cfg) (taken database_table))).
  rewrite drawn_db_nodes_tables by (apply (Hlen database_table)).
  simpl. apply app_nil_r.
Qed.

(** The ids of the leaves of the node table, by category. *)
Lemma leaf_ids_node_table (cfg : config) (taken : category -> list string)
    (choices : list string) :
  (forall c, length (taken c) = leaf_count cfg c) ->
  map node_id (leaf_rows lambda_function (node_table cfg taken choices)) = lambda_ids cfg /\
  map node_id (leaf_rows ecs_container (node_table cfg taken choices)) = container_ids cfg /\
  map node_id (leaf_rows s3_object_store (node_table cfg taken choices)) = s3_ids cfg.
Proof.
  intros Hlen. rewrite !leaf_rows_node_table by discriminate.
  unfold lambda_nodes, container_nodes, s3_nodes.
  rewrite !leaves_ids
    by (first [apply (Hlen lambda_function)|apply (Hlen ecs_container)
              |apply (Hlen s3_object_store)]).
  repeat split.
Qed.

(** C1: in a run that reached its end, for each label category the labels
    drawn - those on the leaves of the category's layer - are as many as the
    configuration asks leaves for (engines times tables per engine,
    functions, containers, object stores); together with the labels left in
    the list they are the initial list, up to order; and when the initial
    list has no duplicate, no label was drawn twice. *)
Theorem labels_drawn_once (cfg : config) (labels : category -> list string)
    (random : nat -> nat) (u : unit) (s' : state) :
  run cfg labels random = Ok u s' ->
  forall c,
    length (drawn_labels c (nodes s')) = leaf_count cfg c /\
    Permutation (labels c) (resource_labels s' c ++ drawn_labels c (nodes s')) /\
    (NoDup (labels c) -> NoDup (drawn_labels c (nodes s'))).
Proof.
  intros Hrun c.
  destruct (run_inv cfg labels random u s' Hrun) as (sh & taken & choices & g & R).
  assert (N : nodes s' = node_table cfg taken choices)
    by (rewrite (ran_nodes _ _ _ _ _ _ _ R); reflexivity).
  rewrite N, (drawn_node_table cfg taken choices c (ran_taken _ _ _ _ _ _ _ R)).
  assert (P : Permutation (labels c) (resource_labels s' c ++ taken c)).
  { rewrite <- (resource_labels_initial labels random c).
    rewrite (ran_shuffled _ _ _ _ _ _ _ R c), (ran_pools _ _ _ _ _ _ _ R c).
    apply Permutation_app_head. symmetry. apply Permutation_rev. }
  split; [exact (ran_taken _ _ _ _ _ _ _ R c)|]. split; [exact P|].
  intros Hnd. apply (Permutation_NoDup P) in Hnd.
  apply NoDup_app_remove_l in Hnd. exact Hnd.
Qed.

Lemma labels_drawn_once_witness :
  run script_config sample_labels sample_random = Ok tt sample_final /\
  forall c,
    length (drawn_labels c (nodes sample_final)) = leaf_count script_config c /\
    Permutation (sample_labels c)
      (resource_labels sample_final c ++ drawn_labels c (nodes sample_final)) /\
    (NoDup (sample_labels c) -> NoDup (drawn_labels c (nodes sample_final))).
Proof.
  split; [exact sample_run_ok|].
  exact (labels_drawn_once script_config sample_labels sample_random tt sample_final
           sample_run_ok).
Defined.

(** * Runs that reach their end, and runs that do not *)

(** The counts fit the label lists and the population of services, and no
    random choice is made from an empty sequence or range. *)
Definition well_configured (cfg : config) (labels : category -> list string) : Prop :=
  (forall c, leaf_count cfg c <= length (labels c)) /\
  NUM_API_GATEWAY_TARGETS cfg <= NUM_LAMBDAS cfg + NUM_CONTAINERS cfg /\
  NUM_S3_BUCKETS cfg <= NUM_LAMBDAS cfg + NUM_CONTAINERS cfg /\
  DBS cfg <> [] /\
  1 <= NUM_TABLES_PER_DB cfg /\ 1 <= NUM_LAMBDAS cfg /\ 1 <= NUM_CONTAINERS cfg.

Lemma build_failure_cause cfg s s' e :
  build_failure cfg s s' e ->
  (exists c, length (resource_labels s c) < leaf_count cfg c) \/
  (DBS cfg = [] /\ 0 < NUM_STORED_PROCS cfg).
Proof.
  intros [H _|tl ll _ H _ _ _ _|_ _ H _|_ _ _ Hd Hp|_ _ _ H _].
  - left. exists database_table. exact H.
  - left. exists lambda_function. exact H.
  - left. exists ecs_container. exact H.
  - right. split; assumption.
  - left. exists s3_object_store. exact H.
Qed.

Lemma shuffled_all_length s0 s1 c :
  shuffled_all s0 s1 ->
  length (resource_labels s1 c) = length (resource_labels s0 c).
Proof. intros (_ & _ & H). symmetry. apply Permutation_length. apply H. Qed.

Lemma is_sample_le {A : Type} (population : list A) k xs :
  is_sample population k xs -> k <= length population.
Proof.
  intros [Hlen [rest Hp]]. apply Permutation_length in Hp.
  rewrite length_app in Hp. lia.
Qed.

(** A run that reached its end had enough labels of every category. *)
Lemma ran_enough_labels cfg labels random s' sh taken choices g c :
  ran cfg (initial_state labels random) s' sh taken choices g ->
  leaf_count cfg c <= length (labels c).
Proof.
  intros R.
  rewrite <- (resource_labels_initial labels random c).
  rewrite (Permutation_length (ran_shuffled _ _ _ _ _ _ _ R c)).
  rewrite (ran_pools _ _ _ _ _ _ _ R c), length_app, length_rev.
  rewrite (ran_taken _ _ _ _ _ _ _ R c). lia.
Qed.

(** A well-configured run reaches its end, whatever the random choices. *)
Lemma run_succeeds (cfg : config) (labels : category -> list string)
    (random : nat -> nat) :
  well_configured cfg labels -> exists s', run cfg labels random = Ok tt s'.
Proof.
  intros (Hl & Hk & Hs & Hd & Hn & Hlam & Hcon).
  assert (H : wp (generator cfg)
                (fun _ s' => exists sh taken choices g,
                     ran cfg (initial_state labels random) s' sh taken choices g)
                (fun e s' => run_failure cfg (fun _ => False)
                               (initial_state labels random) s' e)
                (initial_state labels random)).
  { apply wp_generator.
    - rewrite service_ids_length. lia.
    - rewrite service_ids_length. lia.
    - exact Hd.
    - lia.
    - intros H. pose proof (container_ids_length cfg) as L. rewrite H in L.
      simpl in L. lia.
    - intros H. pose proof (lambda_ids_length cfg) as L. rewrite H in L.
      simpl in L. lia. }
  unfold wp in H. unfold run.
  destruct (generator cfg (initial_state labels random)) as [[] s'|e s'].
  - exists s'. reflexivity.
  - exfalso. destruct H as [s1 Hsh Hbf _ _|sh taken choices g _ _ _ _ _ _ []].
    destruct (build_failure_cause _ _ _ _ Hbf) as [[c Hc]|[Hnil _]].
    + rewrite (shuffled_all_length _ _ c Hsh), resource_labels_initial in Hc.
      specialize (Hl c). lia.
    + contradiction.
Qed.

(** A run that raised wrote nothing. *)
Lemma run_raised_wrote_nothing cfg labels random e s' :
  run cfg labels random = Raised e s' -> files s' = [].
Proof.
  intros Hrun. destruct (run_raised_inv cfg labels random e s' Hrun)
    as [s1 _ _ _ Hf|sh taken choices g _ _ _ _ _ Hf _]; exact Hf.
Qed.

Lemma map_combine_r_le {A B C : Type} (f : B -> C) (l1 : list A) (l2 : list B) :
  length l2 <= length l1 -> map (fun p => f (snd p)) (combine l1 l2) = map f l2.
Proof.
  revert l2. induction l1 as [|a l1 IH]; intros [|b l2] H; simpl in *;
    try reflexivity; try lia.
  f_equal. apply IH. lia.
Qed.

Lemma map_combine_l_le {A B C : Type} (f : A -> C) (l1 : list A) (l2 : list B) :
  length l2 <= length l1 ->
  map (fun p => f (fst p)) (combine l1 l2) = map f (firstn (length l2) l1).
Proof.
  revert l2. induction l1 as [|a l1 IH]; intros [|b l2] H; simpl in *;
    try reflexivity; try lia.
  f_equal. apply IH. lia.
Qed.

Lemma firstn_seq_le (k n : nat) :
  forall a, k <= n -> firstn k (seq a n) = seq a k.
Proof.
  revert n. induction k as [|k IH]; intros n a H; [reflexivity|].
  destruct n as [|n]; [lia|]. simpl. f_equal. apply IH. lia.
Qed.

(** A loop that ran short of labels created one leaf per label it had. *)
Lemma leaves_short idf ly parent n taken :
  length taken <= n ->
  map node_label (leaves idf ly parent 0 n taken) = taken /\
  map node_id (leaves idf ly parent 0 n taken) = map idf (seq 0 (length taken)).
Proof.
  intros H. unfold leaves. rewrite !map_map. simpl. split.
  - rewrite (map_combine_r_le (fun l : string => l)) by (rewrite length_seq; exact H).
    apply map_id.
  - rewrite (map_combine_l_le idf) by (rewrite length_seq; exact H).
    rewrite firstn_seq_le by exact H. reflexivity.
Qed.

(** * Pool exhaustion *)

(** A run that raised [PoolExhaustedError] did so during the build, before
    any edge was emitted. *)
Lemma run_raised_cases cfg labels random e s' :
  run cfg labels random = Raised e s' ->
  run_failure cfg (fun e => e <> PoolExhaustedError) (initial_state labels random) s' e.
Proof.
  intros Hrun.
  assert (H : wp (generator cfg)
                (fun _ s' => exists sh taken choices g,
                     ran cfg (initial_state labels random) s' sh taken choices g)
                (fun e s' => run_failure cfg (fun e => e <> PoolExhaustedError)
                               (initial_state labels random) s' e)
                (initial_state labels random)).
  { apply wp_generator; intros _ H; discriminate H. }
  exact (wp_raised _ _ _ _ _ _ H Hrun).
Qed.

Lemma pool_exhausted_no_edge cfg labels random s' :
  run cfg labels random = Raised PoolExhaustedError s' -> edges s' = [].
Proof.
  intros Hrun.
  destruct (run_raised_cases _ _ _ _ _ Hrun)
    as [s1 _ _ He _|sh taken choices g _ _ _ _ _ _ Hne]; [exact He|].
  contradiction Hne. reflexivity.
Qed.

(** A label list too short for the leaves asked for stops the run in the
    build: no edge, no file, and [PoolExhaustedError] unless stored
    procedures are asked for with no engine to pick. *)
Lemma short_list_stops_build cfg labels random c :
  length (labels c) < leaf_count cfg c ->
  exists e s',
    run cfg labels random = Raised e s' /\ edges s' = [] /\ files s' = [] /\
    (DBS cfg <> [] \/ NUM_STORED_PROCS cfg = 0 -> e = PoolExhaustedError).
Proof.
  intros Hc. destruct (run cfg labels random) as [u s'|e s'] eqn:Hrun.
  - exfalso. destruct (run_inv _ _ _ _ _ Hrun) as (sh & taken & choices & g & R).
    pose proof (ran_enough_labels _ _ _ _ _ _ _ _ c R). lia.
  - exists e, s'. split; [reflexivity|].
    destruct (run_raised_inv _ _ _ _ _ Hrun)
      as [s1 Hsh Hbf He Hf|sh taken choices g Hp Hpools Hlen _ _ _ _].
    + split; [exact He|]. split; [exact Hf|]. intros Hd.
      destruct Hbf as [| | |_ _ _ Hnil Hpos|]; try reflexivity.
      destruct Hd as [Hd|Hd]; [contradiction|lia].
    + exfalso.
      assert (H : leaf_count cfg c <= length (labels c)).
      { rewrite <- (resource_labels_initial labels random c).
        rewrite (Permutation_length (Hp c)).
        rewrite (Hpools c), length_app, length_rev, (Hlen c). lia. }
      lia.
Qed.

(** C7: popping from an empty label list raises [PoolExhaustedError]; a run
    that raises, on this or any other exception, has written no file, and a
    run that raises [PoolExhaustedError] has emitted no edge either; a
    label list shorter than the number of leaves asked for makes the run
    raise with no edge and no file, on [PoolExhaustedError] unless stored
    procedures are asked for with no engine; and when the function labels
    are too few (3 for 5 functions, say) while the table labels suffice,
    the run raises [PoolExhaustedError] once every function label has been
    consumed: the function list is empty, each of its labels is on one
    function leaf, the leaves are [lambda_1] ... [lambda_k] for the [k]
    labels there were, and no edge was emitted. *)
Theorem pool_exhaustion_is_fatal (cfg : config) (labels : category -> list string)
    (random : nat -> nat) :
  (forall c s, resource_labels s c = [] -> pop c s = Raised PoolExhaustedError s) /\
  (forall e s', run cfg labels random = Raised e s' ->
     files s' = [] /\ (e = PoolExhaustedError -> edges s' = [])) /\
  (forall c, length (labels c) < leaf_count cfg c ->
     exists e s',
       run cfg labels random = Raised e s' /\ edges s' = [] /\ files s' = [] /\
       (DBS cfg <> [] \/ NUM_STORED_PROCS cfg = 0 -> e = PoolExhaustedError)) /\
  (length (labels lambda_function) < NUM_LAMBDAS cfg ->
   leaf_count cfg database_table <= length (labels database_table) ->
   exists s',
     run cfg labels random = Raised PoolExhaustedError s' /\
     resource_labels s' lambda_function = [] /\
     Permutation (labels lambda_function) (drawn_labels lambda_function (nodes s')) /\
     map node_id (leaf_rows lambda_function (nodes s'))
     = map (fun i => ("lambda_" ++ str (i + 1))%string)
           (seq 0 (length (labels lambda_function))) /\
     edges s' = [] /\ files s' = []).
Proof.
  split; [|split; [|split]].
  - intros c s H. unfold pop. rewrite H. reflexivity.
  - intros e s' Hrun. split; [exact (run_raised_wrote_nothing _ _ _ _ _ Hrun)|].
    intros ->. exact (pool_exhausted_no_edge _ _ _ _ Hrun).
  - intros c. apply short_list_stops_build.
  - intros Hshort Htables.
    destruct (run cfg labels random) as [u s'|e s'] eqn:Hrun.
    + exfalso. destruct (run_inv _ _ _ _ _ Hrun) as (sh & taken & choices & g & R).
      pose proof (ran_enough_labels _ _ _ _ _ _ _ _ lambda_function R) as H.
      simpl in H. lia.
    + destruct (run_raised_inv _ _ _ _ _ Hrun)
        as [s1 Hsh Hbf He Hf|sh taken choices g Hp Hpools Hlen _ _ _ _].
      * pose proof (shuffled_all_length _ _ lambda_function Hsh) as Ll.
        pose proof (shuffled_all_length _ _ database_table Hsh) as Lt.
        rewrite resource_labels_initial in Ll, Lt.
        destruct Hbf as [H _|tl ll _ _ Htl Hll Hempty Hn|_ H _ _|_ H _ _ _|_ H _ _ _];
          try (unfold leaf_count in *; lia).
        exists s'. split; [reflexivity|]. split; [exact Hempty|].
        destruct Hsh as (N1 & _ & P1).
        assert (Hle : length ll <= NUM_LAMBDAS cfg).
        { rewrite <- (length_rev ll), <- Hll, Ll. lia. }
        replace (nodes s1) with (@nil node) in Hn by (rewrite N1; reflexivity).
        rewrite app_nil_l in Hn. unfold drawn_labels. rewrite Hn.
        rewrite !leaf_rows_app.
        replace (leaf_rows lambda_function root_nodes) with (@nil node)
          by reflexivity.
        unfold table_nodes.
        rewrite leaf_rows_db_nodes_other by discriminate.
        unfold lambda_nodes. rewrite (leaf_rows_leaves_same lambda_function).
        rewrite !app_nil_l.
        change (leaf_layer lambda_function) with "lambda".
        destruct (leaves_short (fun i => ("lambda_" ++ str (i + 1))%string)
                    "lambda" "lambda" (NUM_LAMBDAS cfg) ll Hle) as [Hlab Hid].
        rewrite Hlab, Hid.
        split.
        { rewrite <- (resource_labels_initial labels random lambda_function).
          rewrite (P1 lambda_function), Hll. symmetry. apply Permutation_rev. }
        split.
        { f_equal. f_equal. rewrite <- (length_rev ll), <- Hll. exact Ll. }
        split; [exact He|exact Hf].
      * exfalso.
        assert (H : leaf_count cfg lambda_function <= length (labels lambda_function)).
        { rewrite <- (resource_labels_initial labels random lambda_function).
          rewrite (Permutation_length (Hp lambda_function)).
          rewrite (Hpools lambda_function), length_app, length_rev.
          rewrite (Hlen lambda_function). lia. }
        simpl in H. lia.
Qed.

(** Scenario B: three function labels for five functions. *)
Definition scenario_b_config : config := {|
  NUM_TABLES_PER_DB := 40;
  NUM_LAMBDAS := 5;
  NUM_CONTAINERS := 10;
  NUM_STORED_PROCS := 15;
  NUM_API_GATEWAY_TARGETS := 12;
  NUM_S3_BUCKETS := 15;
  DBS := ["mysql"; "postgres"]
|}.

Definition scenario_b_labels (c : category) : list string :=
  match c with
  | lambda_function => ["resize-image"; "send-email"; "audit-log"]
  | _ => sample_labels c
  end.

Lemma pool_exhaustion_is_fatal_witness :
  length (scenario_b_labels lambda_function) < NUM_LAMBDAS scenario_b_config /\
  leaf_count scenario_b_config database_table
    <= length (scenario_b_labels database_table) /\
  exists s',
    run scenario_b_config scenario_b_labels sample_random
      = Raised PoolExhaustedError s' /\
    resource_labels s' lambda_function = [] /\
    Permutation (scenario_b_labels lambda_function)
                (drawn_labels lambda_function (nodes s')) /\
    map node_id (leaf_rows lambda_function (nodes s'))
    = map (fun i => ("lambda_" ++ str (i + 1))%string)
          (seq 0 (length (scenario_b_labels lambda_function))) /\
    edges s' = [] /\ files s' = [].
Proof.
  split; [simpl; lia|]. split; [simpl; lia|].
  apply (proj2 (proj2 (proj2
           (pool_exhaustion_is_fatal scenario_b_config scenario_b_labels sample_random))));
    simpl; lia.
Defined.

(** The same scenario, evaluated: the build stops at the fourth function. *)
Example scenario_b_evaluated :
  match run scenario_b_config scenario_b_labels sample_random with
  | Raised e s' =>
      e = PoolExhaustedError /\
      map node_id (leaf_rows lambda_function (nodes s'))
      = ["lambda_1"; "lambda_2"; "lambda_3"] /\
      length (nodes s') = 92 /\ files s' = []
  | Ok _ _ => False
  end.
Proof. vm_compute. repeat split. Qed.

(** * Sampling without replacement *)

(** The rows of an edge table with a given relationship label. *)
Definition edges_labeled (label : string) (es : list edge) : list edge :=
  filter (fun e => (edge_label e =? label)%string) es.

Lemma edges_labeled_app label l1 l2 :
  edges_labeled label (l1 ++ l2) = edges_labeled label l1 ++ edges_labeled label l2.
Proof. apply filter_app. Qed.

Lemma edges_labeled_same label g :
  Forall (fun e => edge_label e = label) g -> edges_labeled label g = g.
Proof.
  intros H. apply filter_all. eapply Forall_impl; [|exact H].
  intros e ->. apply String.eqb_refl.
Qed.

Lemma edges_labeled_other label label' g :
  label' <> label ->
  Forall (fun e => edge_label e = label') g -> edges_labeled label g = [].
Proof.
  intros Hne H. apply filter_none. eapply Forall_impl; [|exact H].
  intros e ->. apply String.eqb_neq. exact Hne.
Qed.

Lemma Forall2_map_eq {A B : Type} (f : B -> A) (xs : list A) (ys : list B) :
  Forall2 (fun x y => f y = x) xs ys -> map f ys = xs.
Proof.
  induction 1 as [|x y xs ys Hxy _ IH]; simpl; [reflexivity|].
  rewrite Hxy, IH. reflexivity.
Qed.

(** The edge table of a finished run, label by label. *)
Lemma edges_by_label cfg g :
  edges_spec cfg g ->
  routes_spec cfg (edges_labeled "API Route" g) /\
  procs_spec cfg (edges_labeled "Executes" g) /\
  bindings_spec cfg (edges_labeled "Stores/Reads" g).
Proof.
  intros (r & a & x & c & b & -> & Hr & Ha & Hx & Hc & Hb).
  pose proof (routes_spec_label cfg r Hr) as Lr.
  pose proof (access_spec_label cfg a Ha) as La.
  pose proof (procs_spec_label cfg x Hx) as Lx.
  pose proof (calls_spec_label cfg c Hc) as Lc.
  pose proof (bindings_spec_label cfg b Hb) as Lb.
  rewrite !edges_labeled_app.
  rewrite (edges_labeled_same "API Route" r Lr).
  rewrite (edges_labeled_same "Executes" x Lx).
  rewrite (edges_labeled_same "Stores/Reads" b Lb).
  rewrite (edges_labeled_other "API Route" "Reads/Writes" a ltac:(discriminate) La).
  rewrite (edges_labeled_other "API Route" "Executes" x ltac:(discriminate) Lx).
  rewrite (edges_labeled_other "API Route" "API Call" c ltac:(discriminate) Lc).
  rewrite (edges_labeled_other "API Route" "Stores/Reads" b ltac:(discriminate) Lb).
  rewrite (edges_labeled_other "Executes" "API Route" r ltac:(discriminate) Lr).
  rewrite (edges_labeled_other "Executes" "Reads/Writes" a ltac:(discriminate) La).
  rewrite (edges_labeled_other "Executes" "API Call" c ltac:(discriminate) Lc).
  rewrite (edges_labeled_other "Executes" "Stores/Reads" b ltac:(discriminate) Lb).
  rewrite (edges_labeled_other "Stores/Reads" "API Route" r ltac:(discriminate) Lr).
  rewrite (edges_labeled_other "Stores/Reads" "Reads/Writes" a ltac:(discriminate) La).
  rewrite (edges_labeled_other "Stores/Reads" "Executes" x ltac:(discriminate) Lx).
  rewrite (edges_labeled_other "Stores/Reads" "API Call" c ltac:(discriminate) Lc).
  rewrite !app_nil_r. simpl. auto.
Qed.

(** The services, as leaves of the node table of a finished run. *)
Lemma services_are_leaves cfg s0 s' sh taken choices g :
  nodes s0 = [] ->
  ran cfg s0 s' sh taken choices g ->
  service_ids cfg
  = map node_id (leaf_rows lambda_function (nodes s'))
    ++ map node_id (leaf_rows ecs_container (nodes s')) /\
  s3_ids cfg = map node_id (leaf_rows s3_object_store (nodes s')).
Proof.
  intros H0 R. rewrite (ran_nodes _ _ _ _ _ _ _ R), H0, app_nil_l.
  destruct (leaf_ids_node_table cfg taken choices (ran_taken _ _ _ _ _ _ _ R))
    as (Hl & Hc & Hs).
  rewrite Hl, Hc, Hs. split; reflexivity.
Qed.

(** The run stops at the gateway routes when they ask for more targets than
    there are services. *)
Lemma run_stops_at_routes (cfg : config) (labels : category -> list string)
    (random : nat -> nat) :
  length (service_ids cfg) < NUM_API_GATEWAY_TARGETS cfg ->
  exists e s',
    run cfg labels random = Raised e s' /\ edges s' = [] /\ files s' = [] /\
    ((forall c, leaf_count cfg c <= length (labels c)) ->
     DBS cfg <> [] \/ NUM_STORED_PROCS cfg = 0 ->
     e = InsufficientPopulationError).
Proof.
  intros Hk.
  set (s0 := initial_state labels random).
  assert (H : wp (generator cfg) (fun _ _ => False)
                (fun e s' =>
                   edges s' = [] /\ files s' = [] /\
                   ((forall c, leaf_count cfg c <= length (labels c)) ->
                    DBS cfg <> [] \/ NUM_STORED_PROCS cfg = 0 ->
                    e = InsufficientPopulationError)) s0).
  { unfold generator. wp_step. apply wp_shuffle_labels. intros s1 Hsh.
    pose proof Hsh as (N1 & (E1 & C1 & F1) & P1).
    wp_step. apply wp_build_nodes.
    - intros s2 taken choices B. destruct (built_frame _ _ _ _ _ B) as (E2 & C2 & F2).
      unfold generate_edges, api_gateway_routes. do 3 wp_step.
      apply wp_random_sample; [intros Hlt|intros xs f Hsamp].
      + cbv beta.
        split; [rewrite E2, E1; reflexivity|]. split; [rewrite F2, F1; reflexivity|].
        intros _ _. reflexivity.
      + apply is_sample_le in Hsamp. fold (service_ids cfg) in Hsamp. lia.
    - intros e s2 Hbf (E2 & C2 & F2).
      split; [rewrite E2, E1; reflexivity|]. split; [rewrite F2, F1; reflexivity|].
      intros Hl Hd. exfalso.
      destruct (build_failure_cause _ _ _ _ Hbf) as [[c Hc]|[Hnil Hp]].
      + rewrite (shuffled_all_length _ _ c Hsh) in Hc. unfold s0 in Hc.
        rewrite resource_labels_initial in Hc. specialize (Hl c). lia.
      + destruct Hd as [Hd|Hd]; [contradiction|lia]. }
  unfold wp in H. unfold run. fold s0.
  destruct (generator cfg s0) as [u s'|e s']; [contradiction|].
  exists e, s'. split; [reflexivity|exact H].
Qed.

(** The run stops at the storage bindings when there are more object stores
    than services and nothing else is amiss. *)
Lemma run_stops_at_bindings (cfg : config) (labels : category -> list string)
    (random : nat -> nat) :
  length (service_ids cfg) < NUM_S3_BUCKETS cfg ->
  exists e s',
    run cfg labels random = Raised e s' /\ files s' = [] /\
    ((forall c, leaf_count cfg c <= length (labels c)) ->
     DBS cfg <> [] -> 1 <= NUM_TABLES_PER_DB cfg ->
     1 <= NUM_LAMBDAS cfg -> 1 <= NUM_CONTAINERS cfg ->
     e = InsufficientPopulationError).
Proof.
  intros Hs.
  destruct (run cfg labels random) as [u s'|e s'] eqn:Hrun.
  - exfalso. destruct (run_inv _ _ _ _ _ Hrun) as (sh & taken & choices & g & R).
    destruct (edges_by_label cfg g (ran_spec _ _ _ _ _ _ _ R))
      as (_ & _ & services & Hsample & _).
    apply is_sample_le in Hsample. lia.
  - exists e, s'. split; [reflexivity|].
    split; [exact (run_raised_wrote_nothing _ _ _ _ _ Hrun)|].
    intros Hl Hd Hn Hlam Hcon.
    assert (H : wp (generator cfg)
                  (fun _ s' => exists sh taken choices g,
                       ran cfg (initial_state labels random) s' sh taken choices g)
                  (fun e s' => run_failure cfg (fun e => e = InsufficientPopulationError)
                                 (initial_state labels random) s' e)
                  (initial_state labels random)).
    { apply wp_generator; try reflexivity.
      - intros H. contradiction.
      - lia.
      - intros H. pose proof (container_ids_length cfg) as L. rewrite H in L.
        simpl in L. lia.
      - intros H. pose proof (lambda_ids_length cfg) as L. rewrite H in L.
        simpl in L. lia. }
    apply (wp_raised _ _ _ _ _ _ H) in Hrun.
    destruct Hrun as [s1 Hsh Hbf _ _|sh taken choices g _ _ _ _ _ _ He];
      [exfalso|exact He].
    destruct (build_failure_cause _ _ _ _ Hbf) as [[c Hc]|[Hnil _]].
    + rewrite (shuffled_all_length _ _ c Hsh), resource_labels_initial in Hc.
      specialize (Hl c). lia.
    + contradiction.
Qed.

Lemma Forall2_map_eq2 {A B C : Type} (f : B -> C) (g : A -> C) (xs : list A)
    (ys : list B) :
  Forall2 (fun x y => f y = g x) xs ys -> map f ys = map g xs.
Proof.
  induction 1 as [|x y xs ys Hxy _ IH]; simpl; [reflexivity|].
  rewrite Hxy, IH. reflexivity.
Qed.

(** C2: in a finished run the gateway routes - the edges labelled
    [API Route] - are exactly [NUM_API_GATEWAY_TARGETS] edges from
    [api_gateway_instance], with pairwise distinct targets taken among the
    function and container leaves; when the count equals the number of
    these leaves, each of them is targeted exactly once.  A well-configured
    run does finish.  When the count exceeds the number of these leaves,
    the routing step raises [InsufficientPopulationError] in any state, and
    the run raises with no edge emitted and no file written - on that very
    exception when the build itself could finish. *)
Theorem gateway_routing_without_replacement (cfg : config)
    (labels : category -> list string) (random : nat -> nat) :
  (forall u s', run cfg labels random = Ok u s' ->
     service_ids cfg
     = map node_id (leaf_rows lambda_function (nodes s'))
       ++ map node_id (leaf_rows ecs_container (nodes s')) /\
     length (edges_labeled "API Route" (edges s')) = NUM_API_GATEWAY_TARGETS cfg /\
     Forall (fun e => source e = "api_gateway_instance")
            (edges_labeled "API Route" (edges s')) /\
     NoDup (map target (edges_labeled "API Route" (edges s'))) /\
     incl (map target (edges_labeled "API Route" (edges s'))) (service_ids cfg) /\
     (NUM_API_GATEWAY_TARGETS cfg = length (service_ids cfg) ->
      Permutation (service_ids cfg)
                  (map target (edges_labeled "API Route" (edges s'))))) /\
  (well_configured cfg labels -> exists s', run cfg labels random = Ok tt s') /\
  (length (service_ids cfg) < NUM_API_GATEWAY_TARGETS cfg ->
   (forall s, api_gateway_routes cfg s = Raised InsufficientPopulationError s) /\
   exists e s',
     run cfg labels random = Raised e s' /\ edges s' = [] /\ files s' = [] /\
     ((forall c, leaf_count cfg c <= length (labels c)) ->
      DBS cfg <> [] \/ NUM_STORED_PROCS cfg = 0 ->
      e = InsufficientPopulationError)).
Proof.
  split; [|split].
  - intros u s' Hrun.
    destruct (run_inv _ _ _ _ _ Hrun) as (sh & taken & choices & g & R).
    destruct (services_are_leaves cfg (initial_state labels random) s' sh taken choices g eq_refl R) as [Hsv _].
    split; [exact Hsv|].
    replace (edges s') with g by (rewrite (ran_edges _ _ _ _ _ _ _ R); reflexivity).
    destruct (edges_by_label cfg g (ran_spec _ _ _ _ _ _ _ R))
      as ((targets & Hsample & Hall) & _ & _).
    assert (Ht : map target (edges_labeled "API Route" g) = targets).
    { apply Forall2_map_eq. eapply Forall2_impl; [|exact Hall].
      intros t e (_ & H & _). exact H. }
    rewrite Ht. split; [|split; [|split; [|split]]].
    + rewrite <- (Forall2_length Hall). exact (proj1 Hsample).
    + apply Forall2_witness_l in Hall. eapply Forall_impl; [|exact Hall].
      intros e (t & _ & H & _). exact H.
    + exact (is_sample_NoDup _ _ _ Hsample (service_ids_NoDup cfg)).
    + exact (is_sample_incl _ _ _ Hsample).
    + intros Heq. rewrite Heq in Hsample. exact (is_sample_all _ _ Hsample).
  - apply run_succeeds.
  - intros Hk. split; [|exact (run_stops_at_routes cfg labels random Hk)].
    intros s. unfold api_gateway_routes, bind, random_sample.
    fold (service_ids cfg).
    destruct (Nat.ltb_spec (length (service_ids cfg)) (NUM_API_GATEWAY_TARGETS cfg));
      [reflexivity|lia].
Qed.

(** C3: in a finished run the storage bindings - the edges labelled
    [Stores/Reads] - are one per object-store leaf, in order: the i-th
    binding targets the i-th object store; their sources are pairwise
    distinct services.  A well-configured run does finish.  When there are
    more object stores than services, the binding step raises
    [InsufficientPopulationError] in any state, and the run raises with no
    file written - on that very exception when nothing else is amiss. *)
Theorem storage_bindings_without_replacement (cfg : config)
    (labels : category -> list string) (random : nat -> nat) :
  (forall u s', run cfg labels random = Ok u s' ->
     length (edges_labeled "Stores/Reads" (edges s')) = NUM_S3_BUCKETS cfg /\
     length (leaf_rows s3_object_store (nodes s')) = NUM_S3_BUCKETS cfg /\
     map target (edges_labeled "Stores/Reads" (edges s'))
     = map node_id (leaf_rows s3_object_store (nodes s')) /\
     NoDup (map target (edges_labeled "Stores/Reads" (edges s'))) /\
     NoDup (map source (edges_labeled "Stores/Reads" (edges s'))) /\
     incl (map source (edges_labeled "Stores/Reads" (edges s')))
          (map node_id (leaf_rows lambda_function (nodes s'))
           ++ map node_id (leaf_rows ecs_container (nodes s')))) /\
  (well_configured cfg labels -> exists s', run cfg labels random = Ok tt s') /\
  (length (service_ids cfg) < NUM_S3_BUCKETS cfg ->
   (forall s, s3_bucket_connections cfg s = Raised InsufficientPopulationError s) /\
   exists e s',
     run cfg labels random = Raised e s' /\ files s' = [] /\
     ((forall c, leaf_count cfg c <= length (labels c)) ->
      DBS cfg <> [] -> 1 <= NUM_TABLES_PER_DB cfg ->
      1 <= NUM_LAMBDAS cfg -> 1 <= NUM_CONTAINERS cfg ->
      e = InsufficientPopulationError)).
Proof.
  split; [|split].
  - intros u s' Hrun.
    destruct (run_inv _ _ _ _ _ Hrun) as (sh & taken & choices & g & R).
    destruct (services_are_leaves cfg (initial_state labels random) s' sh taken choices g eq_refl R) as [Hsv Hs3].
    rewrite <- Hsv, <- Hs3.
    replace (edges s') with g by (rewrite (ran_edges _ _ _ _ _ _ _ R); reflexivity).
    destruct (edges_by_label cfg g (ran_spec _ _ _ _ _ _ _ R))
      as (_ & _ & services & Hsample & Hall).
    assert (Hlen : length services = length (s3_ids cfg)).
    { rewrite (proj1 Hsample). symmetry. apply s3_ids_length. }
    assert (Ht : map target (edges_labeled "Stores/Reads" g) = s3_ids cfg).
    { rewrite (Forall2_map_eq2 target fst (combine (s3_ids cfg) services)).
      - rewrite <- (map_id (s3_ids cfg)) at 2.
        apply (map_combine_l (fun x : string => x)). exact Hlen.
      - eapply Forall2_impl; [|exact Hall]. intros p e (_ & H & _). exact H. }
    assert (Hsrc : map source (edges_labeled "Stores/Reads" g) = services).
    { rewrite (Forall2_map_eq2 source snd (combine (s3_ids cfg) services)).
      - rewrite <- (map_id services) at 2.
        apply (map_combine_r (fun x : string => x)). exact Hlen.
      - eapply Forall2_impl; [|exact Hall]. intros p e (H & _). exact H. }
    rewrite Ht, Hsrc. split; [|split; [|split; [|split; [|split]]]].
    + rewrite <- (length_map target), Ht. apply s3_ids_length.
    + rewrite <- (length_map node_id), <- Hs3. apply s3_ids_length.
    + reflexivity.
    + apply s3_ids_NoDup.
    + exact (is_sample_NoDup _ _ _ Hsample (service_ids_NoDup cfg)).
    + exact (is_sample_incl _ _ _ Hsample).
  - apply run_succeeds.
  - intros Hs. split; [|exact (run_stops_at_bindings cfg labels random Hs)].
    intros s. unfold s3_bucket_connections, bind, random_sample.
    fold (service_ids cfg).
    destruct (Nat.ltb_spec (length (service_ids cfg)) (NUM_S3_BUCKETS cfg));
      [reflexivity|lia].
Qed.

(** * Stored procedures *)

(** The stored-procedure leaves of a node table, in build order. *)
Definition proc_rows (ns : list node) : list node := filter is_proc_row ns.

(** The edges of an edge table that leave [p]. *)
Definition edges_from (p : string) (es : list edge) : list edge :=
  filter (fun e => (source e =? p)%string) es.

Lemma proc_rows_leaves idf ly parent a n taken :
  (ly =? "stored_proc")%string = false ->
  proc_rows (leaves idf ly parent a n taken) = [].
Proof.
  intros H. apply filter_none. eapply Forall_impl; [|apply leaves_leaf_of].
  intros m (Hl & _). unfold is_proc_row. rewrite Hl, H. reflexivity.
Qed.

Lemma proc_rows_db_nodes (n : nat) (dbs : list string) :
  forall taken, proc_rows (db_nodes dbs n taken) = [].
Proof.
  induction dbs as [|db dbs IH]; intros taken; [reflexivity|].
  cbn [db_nodes].
  change (proc_rows (?x :: ?l)) with (proc_rows ([x] ++ l)).
  unfold proc_rows in *. rewrite !filter_app, IH.
  rewrite (proc_rows_leaves _ "table") by reflexivity. reflexivity.
Qed.

Lemma proc_rows_proc_nodes a n choices :
  proc_rows (proc_nodes a n choices) = proc_nodes a n choices.
Proof.
  apply filter_all. eapply Forall_impl; [|apply proc_nodes_shape].
  intros m (Hl & Hp & _). unfold is_proc_row. rewrite Hl, Hp. reflexivity.
Qed.

(** The stored-procedure leaves of the node table are the rows of lines
    75-77, whose ids are those line 111 lists. *)
Lemma proc_ids_node_table (cfg : config) (taken : category -> list string)
    (choices : list string) :
  length choices = NUM_STORED_PROCS cfg ->
  map node_id (proc_rows (node_table cfg taken choices)) = stored_proc_ids cfg.
Proof.
  intros Hlen. unfold node_table, proc_rows. rewrite !filter_app.
  unfold table_nodes, lambda_nodes, container_nodes, s3_nodes.
  fold (proc_rows (db_nodes (DBS cfg) (NUM_TABLES_PER_DB cfg) (taken database_table))).
  rewrite proc_rows_db_nodes.
  repeat match goal with
         | |- context [filter is_proc_row (leaves ?f ?ly ?p ?a ?n ?t)] =>
             change (filter is_proc_row (leaves f ly p a n t))
               with (proc_rows (leaves f ly p a n t));
             rewrite (proc_rows_leaves f ly p a n t) by reflexivity
         end.
  change (filter is_proc_row (proc_nodes 0 (NUM_STORED_PROCS cfg) choices))
    with (proc_rows (proc_nodes 0 (NUM_STORED_PROCS cfg) choices)).
  rewrite proc_rows_proc_nodes. simpl. rewrite app_nil_r.
  apply proc_nodes_ids. exact Hlen.
Qed.

Lemma edges_from_app p l1 l2 :
  edges_from p (l1 ++ l2) = edges_from p l1 ++ edges_from p l2.
Proof. apply filter_app. Qed.

Lemma edges_from_same p g :
  Forall (fun e => source e = p) g -> edges_from p g = g.
Proof.
  intros H. apply filter_all. eapply Forall_impl; [|exact H].
  intros e ->. apply String.eqb_refl.
Qed.

Lemma edges_from_other p q g :
  q <> p -> Forall (fun e => source e = q) g -> edges_from p g = [].
Proof.
  intros Hne H. apply filter_none. eapply Forall_impl; [|exact H].
  intros e ->. apply String.eqb_neq. exact Hne.
Qed.

Lemma edges_from_absent (xs : list string) (groups : list (list edge)) :
  Forall2 (fun x grp => Forall (fun e => source e = x) grp) xs groups ->
  forall p, ~ In p xs -> edges_from p (concat groups) = [].
Proof.
  induction 1 as [|x grp xs groups Hx _ IH]; intros p Hp; [reflexivity|].
  simpl. rewrite edges_from_app, IH by (intros Hin; apply Hp; right; exact Hin).
  rewrite (edges_from_other p x grp); [reflexivity| |exact Hx].
  intros Heq. apply Hp. left. exact Heq.
Qed.

(** In a table made of one group of edges per source, the sources being
    pairwise distinct, the edges that leave a source are its group. *)
Lemma edges_from_group (P : string -> list edge -> Prop) (xs : list string)
    (groups : list (list edge)) :
  NoDup xs ->
  Forall2 (fun x grp => P x grp /\ Forall (fun e => source e = x) grp) xs groups ->
  forall p, In p xs -> P p (edges_from p (concat groups)).
Proof.
  intros Hnd H. induction H as [|x grp xs groups [HP Hx] Hrest IH]; intros p Hp.
  - destruct Hp.
  - inversion Hnd as [|? ? Hnin Hnd']; subst. simpl. rewrite edges_from_app.
    assert (Hsrc : Forall2 (fun x grp => Forall (fun e => source e = x) grp) xs groups).
    { eapply Forall2_impl; [|exact Hrest]. intros y g [_ Hy]. exact Hy. }
    destruct Hp as [<-|Hp].
    + rewrite (edges_from_same x grp Hx), (edges_from_absent xs groups Hsrc x Hnin).
      rewrite app_nil_r. exact HP.
    + rewrite (edges_from_other p x grp); [|intros ->; contradiction|exact Hx].
      apply IH; assumption.
Qed.

(** C8: in a finished run the stored-procedure leaves are the procedures
    of line 111, and from each of them leave between 2 and 5 edges labelled
    [Executes], all to tables of one configured engine, with table numbers
    between 1 and the number of tables per engine; nothing keeps two of
    them from naming the same table. *)
Theorem stored_procedure_execution (cfg : config) (labels : category -> list string)
    (random : nat -> nat) (u : unit) (s' : state) :
  run cfg labels random = Ok u s' ->
  length (proc_rows (nodes s')) = NUM_STORED_PROCS cfg /\
  forall p, In p (map node_id (proc_rows (nodes s'))) ->
    2 <= length (edges_from p (edges_labeled "Executes" (edges s'))) <= 5 /\
    exists db, In db (DBS cfg) /\
      Forall (fun e => edge_layer e = "stored_proc" /\
                exists k, 1 <= k <= NUM_TABLES_PER_DB cfg /\ target e = table_id db k)
             (edges_from p (edges_labeled "Executes" (edges s'))).
Proof.
  intros Hrun.
  destruct (run_inv _ _ _ _ _ Hrun) as (sh & taken & choices & g & R).
  replace (nodes s') with (node_table cfg taken choices)
    by (rewrite (ran_nodes _ _ _ _ _ _ _ R); reflexivity).
  replace (edges s') with g by (rewrite (ran_edges _ _ _ _ _ _ _ R); reflexivity).
  pose proof (proc_ids_node_table cfg taken choices (ran_choices_length _ _ _ _ _ _ _ R))
    as Hids.
  split.
  { rewrite <- (length_map node_id), Hids. apply stored_proc_ids_length. }
  rewrite Hids. intros p Hp.
  destruct (edges_by_label cfg g (ran_spec _ _ _ _ _ _ _ R))
    as (_ & (groups & -> & Hall) & _).
  apply (edges_from_group
           (fun p grp =>
              2 <= length grp <= 5 /\
              exists db, In db (DBS cfg) /\
                Forall (fun e => edge_layer e = "stored_proc" /\
                          exists k, 1 <= k <= NUM_TABLES_PER_DB cfg /\
                                    target e = table_id db k) grp)
           (stored_proc_ids cfg) groups (stored_proc_ids_NoDup cfg)); [|exact Hp].
  eapply Forall2_impl; [|exact Hall].
  intros x grp (db & Hdb & Hlen & Hf). split; [split; [exact Hlen|]|].
  - exists db. split; [exact Hdb|]. eapply Forall_impl; [|exact Hf].
    intros e (k & Hk & _ & Ht & _ & Hly & _). split; [exact Hly|].
    exists k. split; [exact Hk|exact Ht].
  - eapply Forall_impl; [|exact Hf]. intros e (k & _ & Hs & _). exact Hs.
Qed.

Lemma stored_procedure_execution_witness :
  run script_config sample_labels sample_random = Ok tt sample_final /\
  length (proc_rows (nodes sample_final)) = NUM_STORED_PROCS script_config /\
  forall p, In p (map node_id (proc_rows (nodes sample_final))) ->
    2 <= length (edges_from p (edges_labeled "Executes" (edges sample_final))) <= 5 /\
    exists db, In db (DBS script_config) /\
      Forall (fun e => edge_layer e = "stored_proc" /\
                exists k, 1 <= k <= NUM_TABLES_PER_DB script_config /\
                          target e = table_id db k)
             (edges_from p (edges_labeled "Executes" (edges sample_final))).
Proof.
  split; [exact sample_run_ok|].
  exact (stored_procedure_execution script_config sample_labels sample_random tt
           sample_final sample_run_ok).
Defined.

(** Two of the edges of one procedure can reach the same table. *)
Example executes_targets_repeat :
  map target (edges_from "stored_proc_5"
                (edges_labeled "Executes" (edges sample_final)))
  = ["mysql_table_11"; "mysql_table_26"; "mysql_table_25"; "mysql_table_26";
     "mysql_table_8"].
Proof. vm_compute. reflexivity. Qed.

(** * Table access and peer calls *)

Lemma edges_by_label_access_calls cfg g :
  edges_spec cfg g ->
  access_spec cfg (edges_labeled "Reads/Writes" g) /\
  calls_spec cfg (edges_labeled "API Call" g).
Proof.
  intros (r & a & x & c & b & -> & Hr & Ha & Hx & Hc & Hb).
  pose proof (routes_spec_label cfg r Hr) as Lr.
  pose proof (access_spec_label cfg a Ha) as La.
  pose proof (procs_spec_label cfg x Hx) as Lx.
  pose proof (calls_spec_label cfg c Hc) as Lc.
  pose proof (bindings_spec_label cfg b Hb) as Lb.
  rewrite !edges_labeled_app.
  rewrite (edges_labeled_same "Reads/Writes" a La).
  rewrite (edges_labeled_same "API Call" c Lc).
  rewrite (edges_labeled_other "Reads/Writes" "API Route" r ltac:(discriminate) Lr).
  rewrite (edges_labeled_other "Reads/Writes" "Executes" x ltac:(discriminate) Lx).
  rewrite (edges_labeled_other "Reads/Writes" "API Call" c ltac:(discriminate) Lc).
  rewrite (edges_labeled_other "Reads/Writes" "Stores/Reads" b ltac:(discriminate) Lb).
  rewrite (edges_labeled_other "API Call" "API Route" r ltac:(discriminate) Lr).
  rewrite (edges_labeled_other "API Call" "Reads/Writes" a ltac:(discriminate) La).
  rewrite (edges_labeled_other "API Call" "Executes" x ltac:(discriminate) Lx).
  rewrite (edges_labeled_other "API Call" "Stores/Reads" b ltac:(discriminate) Lb).
  rewrite !app_nil_r. simpl. auto.
Qed.

(** In a finished run every function and every container leaf reads or
    writes tables: between 3 and 7 edges labelled [Reads/Writes], of layer
    [table], leave it, each to a table of a configured engine, the engine
    being picked edge by edge. *)
Theorem table_access_per_service (cfg : config) (labels : category -> list string)
    (random : nat -> nat) (u : unit) (s' : state) :
  run cfg labels random = Ok u s' ->
  forall p,
    In p (map node_id (leaf_rows lambda_function (nodes s'))
          ++ map node_id (leaf_rows ecs_container (nodes s'))) ->
    3 <= length (edges_from p (edges_labeled "Reads/Writes" (edges s'))) <= 7 /\
    Forall (fun e => edge_layer e = "table" /\
              exists db k, In db (DBS cfg) /\ 1 <= k <= NUM_TABLES_PER_DB cfg /\
                           target e = table_id db k)
           (edges_from p (edges_labeled "Reads/Writes" (edges s'))).
Proof.
  intros Hrun.
  destruct (run_inv _ _ _ _ _ Hrun) as (sh & taken & choices & g & R).
  destruct (services_are_leaves cfg (initial_state labels random) s' sh taken choices g
              eq_refl R) as [Hsv _].
  rewrite <- Hsv.
  replace (edges s') with g by (rewrite (ran_edges _ _ _ _ _ _ _ R); reflexivity).
  destruct (edges_by_label_access_calls cfg g (ran_spec _ _ _ _ _ _ _ R))
    as ((groups & -> & Hall) & _).
  intros p Hp.
  apply (edges_from_group
           (fun p grp =>
              3 <= length grp <= 7 /\
              Forall (fun e => edge_layer e = "table" /\
                        exists db k, In db (DBS cfg) /\
                          1 <= k <= NUM_TABLES_PER_DB cfg /\ target e = table_id db k)
                     grp)
           (service_ids cfg) groups (service_ids_NoDup cfg)); [|exact Hp].
  eapply Forall2_impl; [|exact Hall].
  intros x grp (Hlen & Hf). split; [split; [exact Hlen|]|].
  - eapply Forall_impl; [|exact Hf].
    intros e (t & (db & k & Hdb & Hk & ->) & _ & Ht & _ & Hly & _).
    split; [exact Hly|]. exists db, k. auto.
  - eapply Forall_impl; [|exact Hf]. intros e (t & _ & Hs & _). exact Hs.
Qed.

Lemma table_access_per_service_witness :
  run script_config sample_labels sample_random = Ok tt sample_final /\
  forall p,
    In p (map node_id (leaf_rows lambda_function (nodes sample_final))
          ++ map node_id (leaf_rows ecs_container (nodes sample_final))) ->
    3 <= length (edges_from p (edges_labeled "Reads/Writes" (edges sample_final))) <= 7 /\
    Forall (fun e => edge_layer e = "table" /\
              exists db k, In db (DBS script_config) /\
                           1 <= k <= NUM_TABLES_PER_DB script_config /\
                           target e = table_id db k)
           (edges_from p (edges_labeled "Reads/Writes" (edges sample_final))).
Proof.
  split; [exact sample_run_ok|].
  exact (table_access_per_service script_config sample_labels sample_random tt
           sample_final sample_run_ok).
Defined.

(** In a finished run the edges labelled [API Call] are two batches, in this
    order: between 10 and 20 calls of layer [container] from a container
    leaf to a function leaf, then between 10 and 20 calls of layer [lambda]
    from a function leaf to a container leaf. *)
Theorem peer_calls_two_batches (cfg : config) (labels : category -> list string)
    (random : nat -> nat) (u : unit) (s' : state) :
  run cfg labels random = Ok u s' ->
  exists g1 g2,
    edges_labeled "API Call" (edges s') = g1 ++ g2 /\
    10 <= length g1 <= 20 /\
    Forall (fun e => edge_layer e = "container" /\
              In (source e) (map node_id (leaf_rows ecs_container (nodes s'))) /\
              In (target e) (map node_id (leaf_rows lambda_function (nodes s')))) g1 /\
    10 <= length g2 <= 20 /\
    Forall (fun e => edge_layer e = "lambda" /\
              In (source e) (map node_id (leaf_rows lambda_function (nodes s'))) /\
              In (target e) (map node_id (leaf_rows ecs_container (nodes s')))) g2.
Proof.
  intros Hrun.
  destruct (run_inv _ _ _ _ _ Hrun) as (sh & taken & choices & g & R).
  replace (nodes s') with (node_table cfg taken choices)
    by (rewrite (ran_nodes _ _ _ _ _ _ _ R); reflexivity).
  destruct (leaf_ids_node_table cfg taken choices (ran_taken _ _ _ _ _ _ _ R))
    as (Hl & Hc & _).
  rewrite Hl, Hc.
  replace (edges s') with g by (rewrite (ran_edges _ _ _ _ _ _ _ R); reflexivity).
  destruct (edges_by_label_access_calls cfg g (ran_spec _ _ _ _ _ _ _ R))
    as (_ & g1 & g2 & Heq & Hn1 & H1 & Hn2 & H2).
  exists g1, g2. split; [exact Heq|]. split; [exact Hn1|]. split; [|split; [exact Hn2|]].
  - eapply Forall_impl; [|exact H1].
    intros e (c & l & Hci & Hli & Hs & Ht & _ & Hly & _). rewrite Hs, Ht. auto.
  - eapply Forall_impl; [|exact H2].
    intros e (l & c & Hli & Hci & Hs & Ht & _ & Hly & _). rewrite Hs, Ht. auto.
Qed.

Lemma peer_calls_two_batches_witness :
  run script_config sample_labels sample_random = Ok tt sample_final /\
  exists g1 g2,
    edges_labeled "API Call" (edges sample_final) = g1 ++ g2 /\
    10 <= length g1 <= 20 /\
    Forall (fun e => edge_layer e = "container" /\
              In (source e) (map node_id (leaf_rows ecs_container (nodes sample_final))) /\
              In (target e) (map node_id (leaf_rows lambda_function (nodes sample_final))))
           g1 /\
    10 <= length g2 <= 20 /\
    Forall (fun e => edge_layer e = "lambda" /\
              In (source e) (map node_id (leaf_rows lambda_function (nodes sample_final))) /\
              In (target e) (map node_id (leaf_rows ecs_container (nodes sample_final))))
           g2.
Proof.
  split; [exact sample_run_ok|].
  exact (peer_calls_two_batches script_config sample_labels sample_random tt
           sample_final sample_run_ok).
Defined.

(** * Sizes *)

Lemma concat_length_bounds {A B : Type} (a b : nat) (xs : list A)
    (groups : list (list B)) :
  Forall2 (fun _ grp => a <= length grp <= b) xs groups ->
  a * length xs <= length (concat groups) <= b * length xs.
Proof.
  induction 1 as [|x grp xs groups Hg _ IH]; simpl; [lia|].
  rewrite length_app. lia.
Qed.

Lemma routes_spec_length cfg g :
  routes_spec cfg g -> length g = NUM_API_GATEWAY_TARGETS cfg.
Proof.
  intros (targets & Hs & Hall). rewrite <- (Forall2_length Hall). exact (proj1 Hs).
Qed.

Lemma access_spec_length cfg g :
  access_spec cfg g ->
  3 * (NUM_LAMBDAS cfg + NUM_CONTAINERS cfg) <= length g
  <= 7 * (NUM_LAMBDAS cfg + NUM_CONTAINERS cfg).
Proof.
  intros (groups & -> & Hall). rewrite <- service_ids_length.
  apply concat_length_bounds. eapply Forall2_impl; [|exact Hall].
  intros x grp [H _]. exact H.
Qed.

Lemma procs_spec_length cfg g :
  procs_spec cfg g ->
  2 * NUM_STORED_PROCS cfg <= length g <= 5 * NUM_STORED_PROCS cfg.
Proof.
  intros (groups & -> & Hall). rewrite <- stored_proc_ids_length.
  apply concat_length_bounds. eapply Forall2_impl; [|exact Hall].
  intros x grp (db & _ & H & _). exact H.
Qed.

Lemma calls_spec_length cfg g : calls_spec cfg g -> 20 <= length g <= 40.
Proof.
  intros (g1 & g2 & -> & H1 & _ & H2 & _). rewrite length_app. lia.
Qed.

Lemma bindings_spec_length cfg g :
  bindings_spec cfg g -> length g = NUM_S3_BUCKETS cfg.
Proof.
  intros (services & Hs & Hall). rewrite <- (Forall2_length Hall).
  rewrite length_combine, s3_ids_length, (proj1 Hs). lia.
Qed.

(** The number of rows of the edge table of a finished run lies between
    two bounds set by the configuration: routes and storage bindings come
    in fixed numbers, each function or container has 3 to 7 table accesses,
    each stored procedure 2 to 5 executions, and the two batches of calls
    have 10 to 20 edges each.  The counter is one more than the number of
    rows. *)
Theorem edge_count_bounds (cfg : config) (labels : category -> list string)
    (random : nat -> nat) (u : unit) (s' : state) :
  run cfg labels random = Ok u s' ->
  NUM_API_GATEWAY_TARGETS cfg + 3 * (NUM_LAMBDAS cfg + NUM_CONTAINERS cfg)
    + 2 * NUM_STORED_PROCS cfg + 20 + NUM_S3_BUCKETS cfg
  <= length (edges s')
  <= NUM_API_GATEWAY_TARGETS cfg + 7 * (NUM_LAMBDAS cfg + NUM_CONTAINERS cfg)
     + 5 * NUM_STORED_PROCS cfg + 40 + NUM_S3_BUCKETS cfg /\
  edge_counter s' = length (edges s') + 1.
Proof.
  intros Hrun.
  destruct (run_inv _ _ _ _ _ Hrun) as (sh & taken & choices & g & R).
  replace (edges s') with g by (rewrite (ran_edges _ _ _ _ _ _ _ R); reflexivity).
  split.
  - destruct (ran_spec _ _ _ _ _ _ _ R) as (r & a & x & c & b & -> & Hr & Ha & Hx & Hc & Hb).
    rewrite !length_app.
    rewrite (routes_spec_length cfg r Hr), (bindings_spec_length cfg b Hb).
    pose proof (access_spec_length cfg a Ha).
    pose proof (procs_spec_length cfg x Hx).
    pose proof (calls_spec_length cfg c Hc).
    lia.
  - rewrite (ran_counter _ _ _ _ _ _ _ R). simpl. lia.
Qed.

Lemma edge_count_bounds_witness :
  run script_config sample_labels sample_random = Ok tt sample_final /\
  212 <= length (edges sample_final) <= 457 /\
  edge_counter sample_final = length (edges sample_final) + 1.
Proof.
  split; [exact sample_run_ok|].
  exact (edge_count_bounds script_config sample_labels sample_random tt sample_final
           sample_run_ok).
Defined.

(** The number of rows of the node table of a finished run is set by the
    configuration: the root, six partitions and the gateway, one partition
    and its tables per engine, and the functions, containers, stored
    procedures and object stores. *)
Theorem node_count_exact (cfg : config) (labels : category -> list string)
    (random : nat -> nat) (u : unit) (s' : state) :
  run cfg labels random = Ok u s' ->
  length (nodes s')
  = 8 + length (DBS cfg) * (1 + NUM_TABLES_PER_DB cfg) + NUM_LAMBDAS cfg
    + NUM_CONTAINERS cfg + NUM_STORED_PROCS cfg + NUM_S3_BUCKETS cfg.
Proof.
  intros Hrun.
  destruct (run_inv _ _ _ _ _ Hrun) as (sh & taken & choices & g & R).
  replace (nodes s') with (node_table cfg taken choices)
    by (rewrite (ran_nodes _ _ _ _ _ _ _ R); reflexivity).
  rewrite <- (length_map node_id).
  rewrite (node_table_ids cfg taken choices (ran_taken _ _ _ _ _ _ _ R)
             (ran_choices_length _ _ _ _ _ _ _ R)).
  unfold node_ids. rewrite !length_app, db_ids_length, lambda_ids_length,
    container_ids_length, stored_proc_ids_length, s3_ids_length.
  simpl. lia.
Qed.

Lemma node_count_exact_witness :
  run script_config sample_labels sample_random = Ok tt sample_final /\
  length (nodes sample_final) = 165.
Proof.
  split; [exact sample_run_ok|].
  exact (node_count_exact script_config sample_labels sample_random tt sample_final
           sample_run_ok).
Defined.

(** * The files written *)

(** Every row of a file has as many fields as its header. *)
Definition rectangular (f : csv_file) : Prop :=
  Forall (fun r => length r = length (header f)) (rows f).

(** A finished run has written exactly three files, in this order:
    [nodes.csv] with one row per node, [edges.csv] with one row per edge,
    both in table order, and [layers.csv], whose eight rows are the same in
    every run; every row has as many fields as the header of its file.  A
    run that raised has written no file at all. *)
Theorem files_all_or_nothing (cfg : config) (labels : category -> list string)
    (random : nat -> nat) :
  (forall u s', run cfg labels random = Ok u s' ->
     map filename (files s') = ["nodes.csv"; "edges.csv"; "layers.csv"] /\
     map header (files s')
     = [ ["id"; "label"; "layer"; "is_partition"; "belongs_to"; "comment"];
         ["id"; "source"; "target"; "label"; "layer"; "comment"];
         ["id"; "label"; "background_color"; "text_color"; "border_color"] ] /\
     map rows (files s')
     = [ map node_row (nodes s'); map edge_row (edges s');
         [ ["database"; "Database"; "ffcccc"; "990000"; "660000"];
           ["table"; "Table"; "ffebcc"; "996600"; "663300"];
           ["lambda"; "Lambda"; "ccffcc"; "009900"; "006600"];
           ["container"; "Container"; "ccccff"; "000099"; "000066"];
           ["stored_proc"; "Stored_proc"; "ffccff"; "990099"; "660066"];
           ["api_gateway"; "Api_gateway"; "ffff99"; "999900"; "666600"];
           ["s3"; "S3"; "ccffff"; "009999"; "006666"];
           ["root"; "Root"; "ffffff"; "000000"; "000000"] ] ] /\
     Forall rectangular (files s')) /\
  (forall e s', run cfg labels random = Raised e s' -> files s' = []).
Proof.
  split.
  - intros u s' Hrun.
    destruct (run_inv _ _ _ _ _ Hrun) as (sh & taken & choices & g & R).
    rewrite (ran_files _ _ _ _ _ _ _ R). simpl.
    split; [reflexivity|]. split; [reflexivity|]. split; [reflexivity|].
    repeat constructor; unfold rectangular; simpl.
    + apply Forall_map. apply Forall_forall. intros n _. reflexivity.
    + apply Forall_map. apply Forall_forall. intros e _. reflexivity.
  - intros e s' Hrun. exact (run_raised_wrote_nothing _ _ _ _ _ Hrun).
Qed.

(** * More on identifiers *)

(** [c in s]. *)
Fixpoint occurs (c : ascii) (s : string) : bool :=
  match s with
  | EmptyString => false
  | String a r => ((a =? c)%char || occurs c r)%bool
  end.

Lemma occurs_app c a b : occurs c (a ++ b) = (occurs c a || occurs c b)%bool.
Proof.
  induction a as [|x a IH]; simpl; [reflexivity|].
  rewrite IH. apply Bool.orb_assoc.
Qed.

(** A decimal numeral has no letter [b] or [t]. *)
Lemma occurs_b_numeral d : occurs "b" (NilEmpty.string_of_uint d) = false.
Proof. induction d; simpl; auto. Qed.

Lemma occurs_t_numeral d : occurs "t" (NilEmpty.string_of_uint d) = false.
Proof. induction d; simpl; auto. Qed.

Lemma occurs_b_str n : occurs "b" (str n) = false.
Proof. apply occurs_b_numeral. Qed.

Lemma occurs_t_str n : occurs "t" (str n) = false.
Proof. apply occurs_t_numeral. Qed.

(** The id of a table has both letters, whatever the name of the engine. *)
Lemma occurs_b_table_id db k : occurs "b" (table_id db k) = true.
Proof.
  unfold table_id. rewrite occurs_app. simpl. apply Bool.orb_true_r.
Qed.

Lemma occurs_t_table_id db k : occurs "t" (table_id db k) = true.
Proof.
  unfold table_id. rewrite occurs_app. simpl. apply Bool.orb_true_r.
Qed.

Lemma lambda_id_not_table cfg x db k : In x (lambda_ids cfg) -> x <> table_id db k.
Proof.
  intros Hx Heq. apply in_map_iff in Hx. destruct Hx as (i & <- & _).
  apply (f_equal (occurs "t")) in Heq. rewrite occurs_t_table_id in Heq.
  simpl in Heq. rewrite occurs_t_str in Heq. discriminate.
Qed.

Lemma container_id_not_table cfg x db k : In x (container_ids cfg) -> x <> table_id db k.
Proof.
  intros Hx Heq. apply in_map_iff in Hx. destruct Hx as (i & <- & _).
  apply (f_equal (occurs "b")) in Heq. rewrite occurs_b_table_id in Heq.
  simpl in Heq. rewrite occurs_b_str in Heq. discriminate.
Qed.

Lemma stored_proc_id_not_table cfg x db k :
  In x (stored_proc_ids cfg) -> x <> table_id db k.
Proof.
  intros Hx Heq. apply in_map_iff in Hx. destruct Hx as (i & <- & _).
  apply (f_equal (occurs "b")) in Heq. rewrite occurs_b_table_id in Heq.
  simpl in Heq. rewrite occurs_b_str in Heq. discriminate.
Qed.

Lemma service_id_not_table cfg x db k : In x (service_ids cfg) -> x <> table_id db k.
Proof.
  unfold service_ids. rewrite in_app_iff.
  intros [H|H]; [exact (lambda_id_not_table cfg x db k H)
                |exact (container_id_not_table cfg x db k H)].
Qed.

Lemma lambda_id_not_container cfg l c :
  In l (lambda_ids cfg) -> In c (container_ids cfg) -> l <> c.
Proof.
  intros Hl Hc. apply in_map_iff in Hl. destruct Hl as (i & <- & _).
  apply in_map_iff in Hc. destruct Hc as (j & <- & _). discriminate.
Qed.

Lemma service_id_not_s3 cfg x b : In x (service_ids cfg) -> In b (s3_ids cfg) -> x <> b.
Proof.
  unfold service_ids. rewrite in_app_iff. intros Hx Hb.
  apply in_map_iff in Hb. destruct Hb as (j & <- & _).
  destruct Hx as [Hx|Hx]; apply in_map_iff in Hx; destruct Hx as (i & <- & _);
    discriminate.
Qed.

Lemma service_id_not_gateway cfg x :
  In x (service_ids cfg) -> x <> "api_gateway_instance".
Proof.
  unfold service_ids. rewrite in_app_iff.
  intros [Hx|Hx]; apply in_map_iff in Hx; destruct Hx as (i & <- & _); discriminate.
Qed.

(** No row of the edge table of a finished run joins a node to itself,
    whatever the engines are called. *)
Theorem no_self_loop (cfg : config) (labels : category -> list string)
    (random : nat -> nat) (u : unit) (s' : state) :
  run cfg labels random = Ok u s' ->
  Forall (fun e => source e <> target e) (edges s').
Proof.
  intros Hrun.
  destruct (run_inv _ _ _ _ _ Hrun) as (sh & taken & choices & g & R).
  replace (edges s') with g by (rewrite (ran_edges _ _ _ _ _ _ _ R); reflexivity).
  eapply Forall_impl; [|exact (edges_spec_kinds cfg g (ran_spec _ _ _ _ _ _ _ R))].
  intros e [t Ht (Hs & Htg & _)|f t Hf (db & k & _ & _ & ->) (Hs & Htg & _)
           |p t Hp (db & k & _ & _ & ->) (Hs & Htg & _)
           |c l Hc Hl (Hs & Htg & _)|l c Hl Hc (Hs & Htg & _)
           |b svc Hb Hsvc (Hs & Htg & _)]; rewrite Hs, Htg.
  - intros Heq. symmetry in Heq. exact (service_id_not_gateway cfg t Ht Heq).
  - exact (service_id_not_table cfg f db k Hf).
  - exact (stored_proc_id_not_table cfg p db k Hp).
  - intros Heq. symmetry in Heq. exact (lambda_id_not_container cfg l c Hl Hc Heq).
  - exact (lambda_id_not_container cfg l c Hl Hc).
  - exact (service_id_not_s3 cfg svc b Hsvc Hb).
Qed.

Lemma no_self_loop_witness :
  run script_config sample_labels sample_random = Ok tt sample_final /\
  Forall (fun e => source e <> target e) (edges sample_final).
Proof.
  split; [exact sample_run_ok|].
  exact (no_self_loop script_config sample_labels sample_random tt sample_final
           sample_run_ok).
Defined.

(** ** Unique node ids *)

(** Two strings cut at their first underscore. *)
Lemma underscore_split (a b x y : string) :
  occurs "_" a = false -> occurs "_" b = false ->
  (a ++ String "_" x)%string = (b ++ String "_" y)%string -> a = b /\ x = y.
Proof.
  revert b. induction a as [|c a IH]; intros [|d b] Ha Hb H; simpl in *.
  - injection H as H. auto.
  - injection H as Hc _. subst d. simpl in Hb. discriminate.
  - injection H as Hc _. subst c. simpl in Ha. discriminate.
  - injection H as Hc H. subst d.
    apply Bool.orb_false_iff in Ha. destruct Ha as [_ Ha].
    apply Bool.orb_false_iff in Hb. destruct Hb as [_ Hb].
    destruct (IH b Ha Hb H) as [-> ->]. auto.
Qed.

Lemma table_id_cut db k : table_id db k = (db ++ String "_" ("table_" ++ str k))%string.
Proof. reflexivity. Qed.

Lemma table_id_inj db1 db2 k1 k2 :
  occurs "_" db1 = false -> occurs "_" db2 = false ->
  table_id db1 k1 = table_id db2 k2 -> db1 = db2 /\ k1 = k2.
Proof.
  intros H1 H2 H. rewrite !table_id_cut in H.
  destruct (underscore_split _ _ _ _ H1 H2 H) as [Hd Hk]. split; [exact Hd|].
  apply (append_inj_r "table_"), str_inj in Hk. exact Hk.
Qed.

Lemma occurs_us_table_id db k : occurs "_" (table_id db k) = true.
Proof.
  unfold table_id. rewrite occurs_app. simpl. apply Bool.orb_true_r.
Qed.

(** What the names of the engines must satisfy for the ids of the node
    table to be pairwise distinct: no engine is listed twice, no name has an
    underscore, and none is the id of a partition. *)
Definition engines_named_apart (cfg : config) : Prop :=
  NoDup (DBS cfg) /\
  Forall (fun db => occurs "_" db = false /\
                    ~ In db ["project"; "database"; "lambda"; "container"; "s3"])
         (DBS cfg).

Lemma tables_NoDup db n :
  NoDup (map (fun i => table_id db (i + 1)) (seq 0 n)).
Proof.
  apply Injective_map_NoDup; [|apply seq_NoDup].
  intros i j H. unfold table_id in H.
  apply append_inj_r, (append_inj_r "_table_"), str_inj in H. lia.
Qed.

Lemma in_db_ids_inv dbs n x :
  In x (db_ids dbs n) ->
  exists db, In db dbs /\ (x = db \/ exists k, x = table_id db k).
Proof.
  unfold db_ids. rewrite in_flat_map. intros (db & Hdb & [<-|Hx]).
  - exists db. auto.
  - apply in_map_iff in Hx. destruct Hx as (i & <- & _).
    exists db. split; [exact Hdb|]. right. exists (i + 1). reflexivity.
Qed.

Lemma db_ids_NoDup dbs n :
  NoDup dbs -> Forall (fun db => occurs "_" db = false) dbs -> NoDup (db_ids dbs n).
Proof.
  induction dbs as [|db dbs IH]; intros Hnd Hus; [constructor|].
  inversion Hnd as [|? ? Hnin Hnd']; subst.
  inversion Hus as [|? ? Hdb Hus']; subst.
  change (db_ids (db :: dbs) n)
    with ((db :: map (fun i => table_id db (i + 1)) (seq 0 n)) ++ db_ids dbs n).
  apply NoDup_app.
  - constructor; [|apply tables_NoDup].
    intros Hin. apply in_map_iff in Hin. destruct Hin as (i & Hi & _).
    apply (f_equal (occurs "_")) in Hi. rewrite occurs_us_table_id, Hdb in Hi.
    discriminate.
  - apply IH; assumption.
  - intros x Hx Hy. apply in_db_ids_inv in Hy. destruct Hy as (db' & Hdb' & Hy).
    assert (Hus'' : occurs "_" db' = false).
    { rewrite Forall_forall in Hus'. apply Hus'. exact Hdb'. }
    assert (Hne : db <> db') by (intros ->; contradiction).
    destruct Hx as [<-|Hx].
    + destruct Hy as [Hy|[k Hy]]; [contradiction|].
      apply (f_equal (occurs "_")) in Hy. rewrite occurs_us_table_id, Hdb in Hy.
      discriminate.
    + apply in_map_iff in Hx. destruct Hx as (i & <- & _).
      destruct Hy as [Hy|[k Hy]].
      * apply (f_equal (occurs "_")) in Hy. rewrite occurs_us_table_id, Hus'' in Hy.
        discriminate.
      * apply table_id_inj in Hy; [|assumption|assumption]. destruct Hy as [Hy _].
        contradiction.
Qed.

Ltac numbered x H :=
  apply in_map_iff in H; destruct H as (? & <- & _).

Section UniqueIds.

Variable cfg : config.
Hypothesis apart : engines_named_apart cfg.

Lemma engine_plain db : In db (DBS cfg) -> occurs "_" db = false.
Proof.
  intros H. destruct apart as [_ Ha]. rewrite Forall_forall in Ha.
  exact (proj1 (Ha db H)).
Qed.

Lemma engine_not_partition db :
  In db (DBS cfg) -> ~ In db ["project"; "database"; "lambda"; "container"; "s3"].
Proof.
  intros H. destruct apart as [_ Ha]. rewrite Forall_forall in Ha.
  exact (proj2 (Ha db H)).
Qed.

(** An id of lines 58-62 is no other id of the node table. *)
Lemma db_id_apart x :
  In x (db_ids (DBS cfg) (NUM_TABLES_PER_DB cfg)) ->
  ~ In x (map node_id root_nodes) /\
  ~ In x (lambda_ids cfg ++ container_ids cfg ++ stored_proc_ids cfg
          ++ ["api_gateway_instance"] ++ s3_ids cfg).
Proof.
  intros Hx. apply in_db_ids_inv in Hx. destruct Hx as (db & Hdb & Hx).
  pose proof (engine_plain db Hdb) as Hus.
  pose proof (engine_not_partition db Hdb) as Hnp.
  destruct Hx as [->|[k ->]].
  - split.
    + simpl. intros [H|[H|[H|[H|[H|[H|[H|[]]]]]]]]; subst db;
        first [discriminate Hus | apply Hnp; simpl; tauto].
    + rewrite !in_app_iff.
      intros [H|[H|[H|[H|H]]]];
        try (apply in_map_iff in H; destruct H as (i & H & _));
        try (destruct H as [H|[]]);
        subst db; simpl in Hus; discriminate Hus.
  - split.
    + simpl. intros [H|[H|[H|[H|[H|[H|[H|[]]]]]]]];
        pose proof (f_equal (occurs "_") H) as H1;
        pose proof (f_equal (occurs "b") H) as H2;
        rewrite occurs_us_table_id in H1; rewrite occurs_b_table_id in H2;
        simpl in H1, H2; first [discriminate H1|discriminate H2].
    + rewrite !in_app_iff. rewrite table_id_cut.
      intros [H|[H|[H|[H|H]]]];
        try (apply in_map_iff in H; destruct H as (i & H & _));
        try (destruct H as [H|[]]).
      * change ("lambda_" ++ str (i + 1))%string
          with ("lambda" ++ String "_" (str (i + 1)))%string in H.
        apply underscore_split in H; [|reflexivity|exact Hus].
        destruct H as [H _]. apply Hnp. rewrite <- H. simpl. tauto.
      * change ("container_" ++ str (i + 1))%string
          with ("container" ++ String "_" (str (i + 1)))%string in H.
        apply underscore_split in H; [|reflexivity|exact Hus].
        destruct H as [H _]. apply Hnp. rewrite <- H. simpl. tauto.
      * change ("stored_proc_" ++ str (i + 1))%string
          with ("stored" ++ String "_" ("proc_" ++ str (i + 1)))%string in H.
        apply underscore_split in H; [|reflexivity|exact Hus].
        destruct H as [_ H]. discriminate H.
      * change "api_gateway_instance"
          with ("api" ++ String "_" "gateway_instance")%string in H.
        apply underscore_split in H; [|reflexivity|exact Hus].
        destruct H as [_ H]. discriminate H.
      * change ("s3_" ++ str (i + 1))%string
          with ("s3" ++ String "_" (str (i + 1)))%string in H.
        apply underscore_split in H; [|reflexivity|exact Hus].
        destruct H as [H _]. apply Hnp. rewrite <- H. simpl. tauto.
Qed.

Lemma root_ids_NoDup : NoDup (map node_id root_nodes).
Proof.
  simpl. repeat (constructor; [simpl; intuition discriminate|]). constructor.
Qed.

Lemma numbered_not_root x :
  In x (lambda_ids cfg ++ container_ids cfg ++ stored_proc_ids cfg
        ++ ["api_gateway_instance"] ++ s3_ids cfg) ->
  ~ In x (map node_id root_nodes).
Proof.
  rewrite !in_app_iff.
  intros [H|[H|[H|[H|H]]]];
    try (apply in_map_iff in H; destruct H as (i & <- & _));
    try (destruct H as [<-|[]]);
    simpl; intuition discriminate.
Qed.

Lemma node_ids_NoDup : NoDup (node_ids cfg).
Proof.
  unfold node_ids.
  apply NoDup_app; [exact root_ids_NoDup| |].
  2:{ intros x Hr Hx. rewrite in_app_iff in Hx. destruct Hx as [Hx|Hx].
      - exact (proj1 (db_id_apart x Hx) Hr).
      - exact (numbered_not_root x Hx Hr). }
  apply NoDup_app.
  { destruct apart as [Hnd Ha]. apply db_ids_NoDup; [exact Hnd|].
    eapply Forall_impl; [|exact Ha]. intros db [H _]. exact H. }
  2:{ intros x Hx Hy. exact (proj2 (db_id_apart x Hx) Hy). }
  apply NoDup_app; [apply numbered_ids_NoDup| |].
  2:{ intros x Hx Hy. numbered x Hx. rewrite !in_app_iff in Hy.
      destruct Hy as [H|[H|[H|H]]];
        try (apply in_map_iff in H; destruct H as (j & H & _));
        try (destruct H as [H|[]]); discriminate H. }
  apply NoDup_app; [apply numbered_ids_NoDup| |].
  2:{ intros x Hx Hy. numbered x Hx. rewrite !in_app_iff in Hy.
      destruct Hy as [H|[H|H]];
        try (apply in_map_iff in H; destruct H as (j & H & _));
        try (destruct H as [H|[]]); discriminate H. }
  apply NoDup_app; [apply numbered_ids_NoDup| |].
  2:{ intros x Hx Hy. numbered x Hx. rewrite !in_app_iff in Hy.
      destruct Hy as [H|H];
        try (apply in_map_iff in H; destruct H as (j & H & _));
        try (destruct H as [H|[]]); discriminate H. }
  apply NoDup_app; [repeat constructor; simpl; tauto|apply numbered_ids_NoDup|].
  intros x [<-|[]] Hy. apply in_map_iff in Hy. destruct Hy as (j & H & _).
  discriminate H.
Qed.

End UniqueIds.

(** When no engine is listed twice and no engine name has an underscore or
    is the id of a partition, the ids of the node table of a finished run
    are pairwise distinct. *)
Theorem node_ids_unique (cfg : config) (labels : category -> list string)
    (random : nat -> nat) (u : unit) (s' : state) :
  engines_named_apart cfg ->
  run cfg labels random = Ok u s' ->
  NoDup (map node_id (nodes s')).
Proof.
  intros Ha Hrun.
  destruct (run_inv _ _ _ _ _ Hrun) as (sh & taken & choices & g & R).
  replace (nodes s') with (node_table cfg taken choices)
    by (rewrite (ran_nodes _ _ _ _ _ _ _ R); reflexivity).
  rewrite (node_table_ids cfg taken choices (ran_taken _ _ _ _ _ _ _ R)
             (ran_choices_length _ _ _ _ _ _ _ R)).
  apply node_ids_NoDup. exact Ha.
Qed.

Lemma script_engines_apart : engines_named_apart script_config.
Proof.
  split.
  - simpl. repeat (constructor; [simpl; intuition discriminate|]). constructor.
  - simpl. repeat constructor; simpl; intuition discriminate.
Qed.

Lemma node_ids_unique_witness :
  engines_named_apart script_config /\
  run script_config sample_labels sample_random = Ok tt sample_final /\
  NoDup (map node_id (nodes sample_final)).
Proof.
  split; [exact script_engines_apart|]. split; [exact sample_run_ok|].
  exact (node_ids_unique script_config sample_labels sample_random tt sample_final
           script_engines_apart sample_run_ok).
Defined.

(** An engine listed twice gives its partition and its tables twice. *)
Definition twin_config : config := {|
  NUM_TABLES_PER_DB := 1;
  NUM_LAMBDAS := 1;
  NUM_CONTAINERS := 1;
  NUM_STORED_PROCS := 0;
  NUM_API_GATEWAY_TARGETS := 0;
  NUM_S3_BUCKETS := 0;
  DBS := ["mysql"; "mysql"]
|}.

Definition twin_labels (c : category) : list string :=
  match c with
  | database_table => ["orders"; "users"]
  | lambda_function => ["resize"]
  | ecs_container => ["web"]
  | s3_object_store => []
  end.

Example twin_engines_collide :
  map node_id (nodes (final_state (run twin_config twin_labels (fun n => n))))
  = ["project"; "database"; "lambda"; "container"; "stored_proc"; "api_gateway"; "s3";
     "mysql"; "mysql_table_1"; "mysql"; "mysql_table_1";
     "lambda_1"; "container_1"; "api_gateway_instance"].
Proof. vm_compute. reflexivity. Qed.

(** * Which runs fail, and how *)

(** The exception the build of the node table stops on, if any: the first
    shortage met in build order. *)
Definition predicted_build_failure (cfg : config) (labels : category -> list string)
    : option exn :=
  if (length (labels database_table) <? length (DBS cfg) * NUM_TABLES_PER_DB cfg)%nat
  then Some PoolExhaustedError
  else if (length (labels lambda_function) <? NUM_LAMBDAS cfg)%nat
  then Some PoolExhaustedError
  else if (length (labels ecs_container) <? NUM_CONTAINERS cfg)%nat
  then Some PoolExhaustedError
  else if ((0 <? NUM_STORED_PROCS cfg)%nat && (length (DBS cfg) =? 0)%nat)%bool
  then Some EmptyChoiceError
  else if (length (labels s3_object_store) <? NUM_S3_BUCKETS cfg)%nat
  then Some PoolExhaustedError
  else None.

(** The exception the relationship policies stop on, if any: the first
    impossible draw met in policy order. *)
Definition predicted_edge_failure (cfg : config) : option exn :=
  let services := NUM_LAMBDAS cfg + NUM_CONTAINERS cfg in
  if (services <? NUM_API_GATEWAY_TARGETS cfg)%nat
  then Some InsufficientPopulationError
  else if ((0 <? services)%nat && (length (DBS cfg) =? 0)%nat)%bool
  then Some EmptyChoiceError
  else if ((0 <? services)%nat && (NUM_TABLES_PER_DB cfg <? 1)%nat)%bool
  then Some EmptyRangeError
  else if ((0 <? NUM_STORED_PROCS cfg)%nat && (length (DBS cfg) =? 0)%nat)%bool
  then Some EmptyChoiceError
  else if ((0 <? NUM_STORED_PROCS cfg)%nat && (NUM_TABLES_PER_DB cfg <? 1)%nat)%bool
  then Some EmptyRangeError
  else if ((NUM_CONTAINERS cfg =? 0)%nat || (NUM_LAMBDAS cfg =? 0)%nat)%bool
  then Some EmptyChoiceError
  else if (services <? NUM_S3_BUCKETS cfg)%nat
  then Some InsufficientPopulationError
  else None.

Definition predicted_failure (cfg : config) (labels : category -> list string)
    : option exn :=
  match predicted_build_failure cfg labels with
  | Some e => Some e
  | None => predicted_edge_failure cfg
  end.

Ltac compare_all :=
  repeat match goal with
         | |- context [(?a <? ?b)%nat] => destruct (Nat.ltb_spec a b); try lia
         | |- context [(?a =? ?b)%nat] => destruct (Nat.eqb_spec a b); try lia
         end;
  simpl; try reflexivity; try lia.

(** The build, with the exception it stops on. *)
Lemma wp_build_nodes_exact (cfg : config) (s : state) (Q : unit -> state -> Prop)
    (E : exn -> state -> Prop) (lens : category -> list string) :
  (forall c, length (lens c) = length (resource_labels s c)) ->
  (forall s' taken choices,
      built cfg taken choices s s' -> predicted_build_failure cfg lens = None ->
      Q tt s') ->
  (forall e s', predicted_build_failure cfg lens = Some e -> E e s') ->
  wp (build_nodes cfg) Q E s.
Proof.
  intros Hlens Hok Hfail. unfold build_nodes.
  wp_step. apply wp_root_and_partitions. intros s1 Hn1 Hl1 Hf1.
  pose proof (pools_rel_same s s1 Hl1) as P1.
  wp_step. unfold databases_and_tables. apply wp_db_loop.
  2:{ intros s2 tl Hlen Hd He Hf2. apply Hfail.
      assert (length (resource_labels s database_table)
              < length (DBS cfg) * NUM_TABLES_PER_DB cfg).
      { rewrite <- (Hl1 database_table), (drew_length _ _ _ _ Hd), He. simpl. lia. }
      unfold predicted_build_failure. rewrite !Hlens. compare_all. }
  intros s2 tl Hlen2 Hd2 Hn2 Hf2.
  pose proof (pools_rel_drew _ database_table tl s s1 s2 P1 eq_refl Hd2) as P2.
  pose proof (same_edges_files_trans s s1 s2 Hf1 Hf2) as F2.
  assert (S2 : length (DBS cfg) * NUM_TABLES_PER_DB cfg
               <= length (resource_labels s database_table)).
  { rewrite (pools_rel_length _ s s2 database_table P2).
    cbv [upd category_eqb] in *. lia. }
  wp_step. unfold lambda_functions, range.
  apply (wp_leaf_loop lambda_function (fun i => ("lambda_" ++ str (i + 1))%string)
           "lambda" "lambda").
  2:{ intros s3 ll Hlen Hd He Hn3 Hf3.
      pose proof (pools_rel_drew _ lambda_function ll s s2 s3 P2 eq_refl Hd) as P3.
      apply Hfail.
      assert (length (resource_labels s lambda_function) < NUM_LAMBDAS cfg).
      { rewrite (pools_rel_length _ s s3 lambda_function P3), He.
        cbv [upd category_eqb] in *. simpl. lia. }
      unfold predicted_build_failure. rewrite !Hlens. compare_all. }
  intros s3 ll Hlen3 Hd3 Hn3 Hf3.
  pose proof (pools_rel_drew _ lambda_function ll s s2 s3 P2 eq_refl Hd3) as P3.
  pose proof (same_edges_files_trans s s2 s3 F2 Hf3) as F3.
  assert (S3 : NUM_LAMBDAS cfg <= length (resource_labels s lambda_function)).
  { rewrite (pools_rel_length _ s s3 lambda_function P3).
    cbv [upd category_eqb] in *. lia. }
  wp_step. unfold containers, range.
  apply (wp_leaf_loop ecs_container (fun i => ("container_" ++ str (i + 1))%string)
           "container" "container").
  2:{ intros s4 cl Hlen Hd He Hn4 Hf4.
      pose proof (pools_rel_drew _ ecs_container cl s s3 s4 P3 eq_refl Hd) as P4.
      apply Hfail.
      assert (length (resource_labels s ecs_container) < NUM_CONTAINERS cfg).
      { rewrite (pools_rel_length _ s s4 ecs_container P4), He.
        cbv [upd category_eqb] in *. simpl. lia. }
      unfold predicted_build_failure. rewrite !Hlens. compare_all. }
  intros s4 cl Hlen4 Hd4 Hn4 Hf4.
  pose proof (pools_rel_drew _ ecs_container cl s s3 s4 P3 eq_refl Hd4) as P4.
  pose proof (same_edges_files_trans s s3 s4 F3 Hf4) as F4.
  assert (S4 : NUM_CONTAINERS cfg <= length (resource_labels s ecs_container)).
  { rewrite (pools_rel_length _ s s4 ecs_container P4).
    cbv [upd category_eqb] in *. lia. }
  wp_step. unfold stored_procedures, range. apply wp_proc_loop.
  2:{ intros s5 Hnil Hpos Hn5 Hl5 Hf5. apply Hfail.
      assert (Hz : length (DBS cfg) = 0) by (rewrite Hnil; reflexivity).
      unfold predicted_build_failure. rewrite !Hlens. compare_all. }
  intros s5 choices Hlen5 Hall5 Hn5 Hl5 Hf5.
  pose proof (pools_rel_frame _ s s4 s5 P4 Hl5) as P5.
  pose proof (same_edges_files_trans s s4 s5 F4 Hf5) as F5.
  assert (S5 : NUM_STORED_PROCS cfg = 0 \/ length (DBS cfg) <> 0).
  { destruct choices as [|db choices]; [left; simpl in Hlen5; lia|right].
    inversion Hall5 as [|? ? Hin _]; subst.
    destruct (DBS cfg); [destruct Hin|simpl; lia]. }
  wp_step. unfold api_gateway. wp_step.
  unfold s3_buckets, range.
  apply (wp_leaf_loop s3_object_store (fun i => ("s3_" ++ str (i + 1))%string) "s3" "s3").
  2:{ intros s7 sl Hlen Hd He Hn7 Hf7.
      pose proof (pools_rel_drew _ s3_object_store sl s s5 _ P5 eq_refl Hd) as P7.
      apply Hfail.
      assert (length (resource_labels s s3_object_store) < NUM_S3_BUCKETS cfg).
      { rewrite (pools_rel_length _ s s7 s3_object_store P7), He.
        cbv [upd category_eqb] in *. simpl. lia. }
      unfold predicted_build_failure. rewrite !Hlens. compare_all. }
  intros s7 sl Hlen7 Hd7 Hn7 Hf7.
  pose proof (pools_rel_drew _ s3_object_store sl s s5 _ P5 eq_refl Hd7) as P7.
  assert (S7 : NUM_S3_BUCKETS cfg <= length (resource_labels s s3_object_store)).
  { rewrite (pools_rel_length _ s s7 s3_object_store P7).
    cbv [upd category_eqb] in *. lia. }
  apply (Hok s7 (upd (upd (upd (upd (fun _ => []) database_table tl) lambda_function ll)
                          ecs_container cl) s3_object_store sl) choices).
  - constructor.
    + intros c; destruct c; cbv [upd category_eqb leaf_count] in *; assumption.
    + exact Hlen5.
    + exact Hall5.
    + rewrite Hn7. simpl. rewrite Hn5, Hn4, Hn3, Hn2, Hn1.
      unfold node_table. cbv [upd category_eqb]. rewrite <- !app_assoc. reflexivity.
    + exact P7.
    + apply (same_edges_files_trans s s5 s7); assumption.
  - unfold predicted_build_failure. rewrite !Hlens. compare_all.
Qed.

(** Sequencing, the second part being run only after the first returned. *)
Lemma emits_seq_after (m1 m2 : M unit) (G1 G2 : list edge -> Prop) (F : exn -> Prop) :
  emits m1 G1 F -> ((exists g, G1 g) -> emits m2 G2 F) ->
  emits (m1 ;; m2) (fun g => exists g1 g2, g = g1 ++ g2 /\ G1 g1 /\ G2 g2) F.
Proof.
  intros H1 H2 s. apply wp_bind. apply (wp_conseq _ _ _ _ _ _ (H1 s)).
  - intros _ s1 (g1 & Hg1 & HG1).
    apply (wp_conseq _ _ _ _ _ _ (H2 (ex_intro _ g1 HG1) s1)).
    + intros _ s2 (g2 & Hg2 & HG2). exists (g1 ++ g2). split.
      * apply (emitted_trans s s1 s2); assumption.
      * exists g1, g2. auto.
    + intros e s2 [(g2 & Hg2) He]. split; [|exact He].
      exists (g1 ++ g2). apply (emitted_trans s s1 s2); assumption.
  - auto.
Qed.

Section ExactPolicies.

Variable cfg : config.
Variable F : exn -> Prop.

(** Lines 104-108: an engine is picked only if there is a service, a table
    number only if there is an engine. *)
Lemma emits_table_access_exact :
  (service_ids cfg <> [] -> DBS cfg = [] -> F EmptyChoiceError) ->
  (service_ids cfg <> [] -> DBS cfg <> [] -> NUM_TABLES_PER_DB cfg < 1 ->
   F EmptyRangeError) ->
  emits (table_access cfg) (access_spec cfg) F.
Proof.
  intros Hd Hn. unfold table_access. fold (service_ids cfg).
  eapply emits_conseq.
  - apply (emits_for (service_ids cfg) _ (access_group cfg) F). intros func_id Hin.
    assert (Hsv : service_ids cfg <> []) by (intros Heq; rewrite Heq in Hin; destruct Hin).
    eapply emits_conseq.
    + apply (emits_randint 3 7 _
               (fun n g => exists groups, g = concat groups /\
                  Forall2 (fun _ grp => exists e, grp = [e] /\
                             exists t, is_table_id cfg t /\
                               is_edge e func_id t "Reads/Writes" "table")
                          (range n) groups) F); [lia|].
      intros n _. apply emits_for. intros i _.
      eapply emits_conseq.
      * apply (emits_choice (DBS cfg) _
                 (fun db g => exists k, 1 <= k <= NUM_TABLES_PER_DB cfg /\
                    single func_id (table_id db k) "Reads/Writes" "table" g) F (Hd Hsv)).
        intros db Hdb.
        assert (Hne : DBS cfg <> []) by (intros Heq; rewrite Heq in Hdb; destruct Hdb).
        apply (emits_randint 1 (NUM_TABLES_PER_DB cfg) _
                 (fun k g => single func_id (table_id db k) "Reads/Writes" "table" g)
                 F (Hn Hsv Hne)).
        intros k _. apply emits_add_edge.
      * intros g (db & Hdb & k & Hk & Hs).
        destruct (single_is_edge _ _ _ _ _ Hs) as (e & -> & He).
        exists e. split; [reflexivity|]. exists (table_id db k). split; [|exact He].
        exists db, k. auto.
      * auto.
    + intros g (n & Hn' & groups & -> & Hall).
      pose proof (concat_singles (fun _ e => exists t, is_table_id cfg t /\
                    is_edge e func_id t "Reads/Writes" "table") _ _ Hall) as H2.
      apply Forall2_const_l in H2. destruct H2 as [Hlen Hf].
      split; [|exact Hf]. rewrite Hlen. unfold range. rewrite length_seq. exact Hn'.
    + auto.
  - intros g H. exact H.
  - auto.
Qed.

(** Lines 111-115, likewise. *)
Lemma emits_stored_proc_tables_exact :
  (0 < NUM_STORED_PROCS cfg -> DBS cfg = [] -> F EmptyChoiceError) ->
  (0 < NUM_STORED_PROCS cfg -> DBS cfg <> [] -> NUM_TABLES_PER_DB cfg < 1 ->
   F EmptyRangeError) ->
  emits (stored_proc_tables cfg) (procs_spec cfg) F.
Proof.
  intros Hd Hn. unfold stored_proc_tables.
  apply (emits_for (stored_proc_ids cfg) _ (proc_group cfg) F). intros proc_id Hin.
  assert (Hp : 0 < NUM_STORED_PROCS cfg).
  { rewrite <- stored_proc_ids_length. destruct (stored_proc_ids cfg); [destruct Hin|].
    simpl. lia. }
  apply (emits_choice (DBS cfg) _
           (fun db grp => 2 <= length grp <= 5 /\
              Forall (fun e => exists k, 1 <= k <= NUM_TABLES_PER_DB cfg /\
                        is_edge e proc_id (table_id db k) "Executes" "stored_proc") grp)
           F (Hd Hp)).
  intros db Hdb.
  assert (Hne : DBS cfg <> []) by (intros Heq; rewrite Heq in Hdb; destruct Hdb).
  eapply emits_conseq.
  - apply (emits_randint 2 5 _
             (fun n g => exists groups, g = concat groups /\
                Forall2 (fun _ grp => exists e, grp = [e] /\
                           exists k, 1 <= k <= NUM_TABLES_PER_DB cfg /\
                             is_edge e proc_id (table_id db k) "Executes" "stored_proc")
                        (range n) groups) F); [lia|].
    intros n _. apply emits_for. intros i _.
    eapply emits_conseq.
    + apply (emits_randint 1 (NUM_TABLES_PER_DB cfg) _
               (fun k g => single proc_id (table_id db k) "Executes" "stored_proc" g)
               F (Hn Hp Hne)).
      intros k _. apply emits_add_edge.
    + intros g (k & Hk & Hs).
      destruct (single_is_edge _ _ _ _ _ Hs) as (e & -> & He).
      exists e. split; [reflexivity|]. exists k. auto.
    + auto.
  - intros g (n & Hn' & groups & -> & Hall).
    pose proof (concat_singles (fun _ e => exists k, 1 <= k <= NUM_TABLES_PER_DB cfg /\
                  is_edge e proc_id (table_id db k) "Executes" "stored_proc") _ _ Hall)
      as H2.
    apply Forall2_const_l in H2. destruct H2 as [Hlen Hf].
    split; [|exact Hf]. rewrite Hlen. unfold range. rewrite length_seq. exact Hn'.
  - auto.
Qed.

End ExactPolicies.

(** What a policy that returned tells about the configuration. *)
Lemma routes_spec_enough cfg g :
  routes_spec cfg g -> NUM_API_GATEWAY_TARGETS cfg <= NUM_LAMBDAS cfg + NUM_CONTAINERS cfg.
Proof.
  intros (targets & Hs & _). apply is_sample_le in Hs.
  rewrite service_ids_length in Hs. exact Hs.
Qed.

Lemma bindings_spec_enough cfg g :
  bindings_spec cfg g -> NUM_S3_BUCKETS cfg <= NUM_LAMBDAS cfg + NUM_CONTAINERS cfg.
Proof.
  intros (services & Hs & _). apply is_sample_le in Hs.
  rewrite service_ids_length in Hs. exact Hs.
Qed.

Lemma access_spec_engines cfg g :
  access_spec cfg g ->
  NUM_LAMBDAS cfg + NUM_CONTAINERS cfg = 0 \/
  (length (DBS cfg) <> 0 /\ 1 <= NUM_TABLES_PER_DB cfg).
Proof.
  intros (groups & _ & Hall). rewrite <- service_ids_length.
  destruct Hall as [|x grp xs gs [Hlen Hf] _]; [left; reflexivity|right].
  destruct grp as [|e grp]; [simpl in Hlen; lia|].
  inversion Hf as [|? ? (t & (db & k & Hdb & Hk & _) & _) _]; subst.
  split; [|lia]. destruct (DBS cfg); [destruct Hdb|simpl; lia].
Qed.

Lemma procs_spec_engines cfg g :
  procs_spec cfg g ->
  NUM_STORED_PROCS cfg = 0 \/ (length (DBS cfg) <> 0 /\ 1 <= NUM_TABLES_PER_DB cfg).
Proof.
  intros (groups & _ & Hall). rewrite <- stored_proc_ids_length.
  destruct Hall as [|x grp xs gs (db & Hdb & Hlen & Hf) _]; [left; reflexivity|right].
  destruct grp as [|e grp]; [simpl in Hlen; lia|].
  inversion Hf as [|? ? (k & Hk & _) _]; subst.
  split; [|lia]. destruct (DBS cfg); [destruct Hdb|simpl; lia].
Qed.

Lemma calls_spec_peers cfg g :
  calls_spec cfg g -> 1 <= NUM_CONTAINERS cfg /\ 1 <= NUM_LAMBDAS cfg.
Proof.
  intros (g1 & g2 & _ & Hlen & Hf & _).
  destruct g1 as [|e g1]; [simpl in Hlen; lia|].
  inversion Hf as [|? ? (c & l & Hc & Hl & _) _]; subst.
  rewrite <- container_ids_length, <- lambda_ids_length.
  destruct (container_ids cfg); [destruct Hc|].
  destruct (lambda_ids cfg); [destruct Hl|]. simpl. lia.
Qed.

Lemma nil_length {A : Type} (l : list A) : l = [] -> length l = 0.
Proof. intros ->. reflexivity. Qed.

Lemma not_nil_length {A : Type} (l : list A) : l <> [] -> length l <> 0.
Proof. destruct l; [contradiction|discriminate]. Qed.

(** The relationship policies, with the exception they stop on. *)
Lemma emits_generate_edges_exact (cfg : config) :
  emits (generate_edges cfg)
        (fun g => edges_spec cfg g /\ predicted_edge_failure cfg = None)
        (fun e => predicted_edge_failure cfg = Some e).
Proof.
  unfold generate_edges. eapply emits_conseq.
  - apply emits_seq_after.
    { apply (emits_api_gateway_routes cfg (fun e => predicted_edge_failure cfg = Some e)).
      rewrite service_ids_length. intros H. unfold predicted_edge_failure. compare_all. }
    intros [r Hr]. apply routes_spec_enough in Hr.
    apply emits_seq_after.
    { apply (emits_table_access_exact cfg (fun e => predicted_edge_failure cfg = Some e)).
      - intros Hsv Hd. apply not_nil_length in Hsv. apply nil_length in Hd.
        rewrite service_ids_length in Hsv.
        unfold predicted_edge_failure. compare_all.
      - intros Hsv Hd Hn. apply not_nil_length in Hsv. apply not_nil_length in Hd.
        rewrite service_ids_length in Hsv.
        unfold predicted_edge_failure. compare_all. }
    intros [a Ha]. apply access_spec_engines in Ha.
    apply emits_seq_after.
    { apply (emits_stored_proc_tables_exact cfg
               (fun e => predicted_edge_failure cfg = Some e)).
      - intros Hp Hd. apply nil_length in Hd.
        unfold predicted_edge_failure. compare_all.
      - intros Hp Hd Hn. apply not_nil_length in Hd.
        unfold predicted_edge_failure. compare_all. }
    intros [x Hx]. apply procs_spec_engines in Hx.
    apply emits_seq_after.
    { apply (emits_api_calls cfg (fun e => predicted_edge_failure cfg = Some e)).
      - intros Hc. apply nil_length in Hc. rewrite container_ids_length in Hc.
        unfold predicted_edge_failure. compare_all.
      - intros Hl. apply nil_length in Hl. rewrite lambda_ids_length in Hl.
        unfold predicted_edge_failure. compare_all. }
    intros [c Hc]. apply calls_spec_peers in Hc.
    apply (emits_s3_bucket_connections cfg
             (fun e => predicted_edge_failure cfg = Some e)).
    rewrite service_ids_length. intros H.
    unfold predicted_edge_failure. compare_all.
  - intros g (r & g1 & -> & Hr & a & g2 & -> & Ha & x & g3 & -> & Hx & c & b & -> & Hc & Hb).
    split; [exists r, a, x, c, b; repeat split; assumption|].
    apply routes_spec_enough in Hr. apply access_spec_engines in Ha.
    apply procs_spec_engines in Hx. apply calls_spec_peers in Hc.
    apply bindings_spec_enough in Hb.
    unfold predicted_edge_failure. compare_all.
  - auto.
Qed.

(** The whole script, with the exception it stops on. *)
Lemma wp_generator_exact (cfg : config) (labels : category -> list string)
    (random : nat -> nat) :
  wp (generator cfg)
     (fun _ _ => predicted_failure cfg labels = None)
     (fun e _ => predicted_failure cfg labels = Some e)
     (initial_state labels random).
Proof.
  unfold generator.
  wp_step. apply wp_shuffle_labels. intros s1 Hsh.
  wp_step. apply (wp_build_nodes_exact cfg s1 _ _ labels).
  - intros c. rewrite (shuffled_all_length _ _ c Hsh), resource_labels_initial.
    reflexivity.
  - intros s2 taken choices _ Hb. wp_step.
    apply (wp_conseq _ _ _ _ _ _ (emits_generate_edges_exact cfg s2)).
    + intros _ s3 (g & _ & _ & Hp). apply wp_write_outputs. intros s4 _ _ _ _ _.
      unfold predicted_failure. rewrite Hb. exact Hp.
    + intros e s3 [_ Hp]. unfold predicted_failure. rewrite Hb. exact Hp.
  - intros e s2 Hb. unfold predicted_failure. rewrite Hb. reflexivity.
Qed.

(** Whether a run reaches its end, and otherwise the exception it stops on,
    is decided by the configuration and the number of labels of each
    category: the random source has no say.  The build stops on the first
    label list that is too short, or on the first stored procedure when
    there is no engine; the relationship policies stop on the first draw
    that cannot be made. *)
Theorem run_outcome_predicted (cfg : config) (labels : category -> list string)
    (random : nat -> nat) :
  match run cfg labels random with
  | Ok _ _ => predicted_failure cfg labels = None
  | Raised e _ => predicted_failure cfg labels = Some e
  end.
Proof.
  pose proof (wp_generator_exact cfg labels random) as H.
  unfold wp in H. unfold run.
  destruct (generator cfg (initial_state labels random)) as [u s'|e s']; exact H.
Qed.

Lemma predicted_none_iff (cfg : config) (labels : category -> list string) :
  predicted_failure cfg labels = None <-> well_configured cfg labels.
Proof.
  unfold predicted_failure, predicted_build_failure, predicted_edge_failure,
    well_configured.
  split.
  - intros H.
    assert (Hl : forall c, leaf_count cfg c <= length (labels c)).
    { intros c. revert H. destruct c; unfold leaf_count; compare_all; discriminate. }
    split; [exact Hl|].
    pose proof (Hl database_table) as H1. pose proof (Hl lambda_function) as H2.
    pose proof (Hl ecs_container) as H3. pose proof (Hl s3_object_store) as H4.
    unfold leaf_count in H1, H2, H3, H4.
    assert (Hd : DBS cfg <> [] <-> length (DBS cfg) <> 0).
    { split; [apply not_nil_length|]. intros Hn Heq. rewrite Heq in Hn. contradiction. }
    rewrite Hd. revert H. compare_all; try discriminate; intros _; lia.
  - intros (Hl & Hk & Hs & Hd & Hn & Hlam & Hcon).
    pose proof (Hl database_table) as H1. pose proof (Hl lambda_function) as H2.
    pose proof (Hl ecs_container) as H3. pose proof (Hl s3_object_store) as H4.
    unfold leaf_count in H1, H2, H3, H4.
    apply not_nil_length in Hd. compare_all.
Qed.

(** A run reaches its end exactly when every label list is long enough,
    routes and storage bindings ask for no more services than there are,
    and there is at least one engine, one table per engine, one function
    and one container. *)
Theorem run_finishes_iff (cfg : config) (labels : category -> list string)
    (random : nat -> nat) :
  (exists s', run cfg labels random = Ok tt s') <-> well_configured cfg labels.
Proof.
  rewrite <- predicted_none_iff.
  pose proof (wp_generator_exact cfg labels random) as H.
  unfold wp in H. unfold run.
  destruct (generator cfg (initial_state labels random)) as [[] s'|e s'].
  - split; [intros _; exact H|intros _; exists s'; reflexivity].
  - split; [intros [s'' Hs]; discriminate Hs|intros Hn; rewrite Hn in H; discriminate H].
Qed.

(** * Loading the labels (lines 14-26)

    [resource_labels.csv] is read with [csv.reader]; what follows starts from
    the rows the reader yields, each a list of fields.  The two [print]
    calls of the script write to the standard output and are left out. *)

(** What the loading loop can raise. *)
Inductive load_error : Type :=
| StopIteration
| KeyError (key : string)
| LoadRaised (e : exn).

Definition RowIndexError : load_error := LoadRaised (IndexError "list index out of range").

(** The keys of the [resource_labels] dictionary of lines 14-19. *)
Definition key_of (c : category) : string :=
  match c with
  | lambda_function => "lambda_function"
  | ecs_container => "ecs_container"
  | database_table => "database_table"
  | s3_object_store => "s3_object_store"
  end.

(** Looking a string up among the keys. *)
Definition category_of_key (k : string) : option category :=
  if (k =? "lambda_function")%string then Some lambda_function
  else if (k =? "ecs_container")%string then Some ecs_container
  else if (k =? "database_table")%string then Some database_table
  else if (k =? "s3_object_store")%string then Some s3_object_store
  else None.

Definition empty_labels : label_lists :=
  {| of_lambda_function := []; of_ecs_container := [];
     of_database_table := []; of_s3_object_store := [] |}.

(** Line 25, [resource_labels[row[0]].append(row[1])]: [row[0]] is read
    first, then the dictionary is indexed, and [row[1]] is read last. *)
Definition load_row (d : label_lists) (row : list string) : load_error + label_lists :=
  match row with
  | [] => inl RowIndexError
  | k :: rest =>
      match category_of_key k with
      | None => inl (KeyError k)
      | Some c =>
          match rest with
          | [] => inl RowIndexError
          | v :: _ => inr (store d c (lookup d c ++ [v]))
          end
      end
  end.

(** Lines 24-25. *)
Fixpoint load_rows (d : label_lists) (rows : list (list string))
    : load_error + label_lists :=
  match rows with
  | [] => inr d
  | row :: rows' =>
      match load_row d row with
      | inl e => inl e
      | inr d' => load_rows d' rows'
      end
  end.

(** Lines 21-25: [next(reader)] skips the first row and raises
    [StopIteration] when there is none. *)
Definition load_labels (file : list (list string)) : load_error + label_lists :=
  match file with
  | [] => inl StopIteration
  | _ :: rows => load_rows empty_labels rows
  end.

(** How the script ends: on an exception of the loading loop, or as [run]
    does from the labels loaded. *)
Inductive script_outcome : Type :=
| LoadFailed (e : load_error)
| Ran (o : outcome unit).

(** Lines 13-141. *)
Definition script (cfg : config) (file : list (list string)) (random : nat -> nat)
    : script_outcome :=
  match load_labels file with
  | inl e => LoadFailed e
  | inr d => Ran (run cfg (lookup d) random)
  end.

(** The labels of category [c] in the rows of a file, in file order. *)
Definition labels_of_rows (rows : list (list string)) (c : category) : list string :=
  map (fun row => nth 1 row "")
      (filter (fun row => (nth 0 row "" =? key_of c)%string) rows).

(** A row the loop accepts: at least two fields, the first one a key. *)
Definition row_ok (row : list string) : Prop :=
  2 <= length row /\ exists c, nth 0 row "" = key_of c.

Lemma category_of_key_of c : category_of_key (key_of c) = Some c.
Proof. destruct c; reflexivity. Qed.

Lemma category_of_key_some k c : category_of_key k = Some c -> k = key_of c.
Proof.
  unfold category_of_key.
  destruct (String.eqb_spec k "lambda_function") as [->|_]; [intros [= <-]; reflexivity|].
  destruct (String.eqb_spec k "ecs_container") as [->|_]; [intros [= <-]; reflexivity|].
  destruct (String.eqb_spec k "database_table") as [->|_]; [intros [= <-]; reflexivity|].
  destruct (String.eqb_spec k "s3_object_store") as [->|_]; [intros [= <-]; reflexivity|].
  discriminate.
Qed.

Lemma key_of_inj c c' : key_of c = key_of c' -> c = c'.
Proof. destruct c, c'; simpl; intros H; first [reflexivity|discriminate H]. Qed.

Lemma lookup_store_same d c l : lookup (store d c l) c = l.
Proof. destruct c; reflexivity. Qed.

Lemma lookup_store_other d c c' l : c' <> c -> lookup (store d c l) c' = lookup d c'.
Proof. destruct c, c'; intros H; first [reflexivity|contradiction H; reflexivity]. Qed.

Lemma load_row_ok d row :
  row_ok row ->
  exists d', load_row d row = inr d' /\
    forall c, lookup d' c = lookup d c ++ labels_of_rows [row] c.
Proof.
  intros [Hlen [c0 Hk]].
  destruct row as [|k [|v rest]]; simpl in Hlen; try lia.
  simpl in Hk. subst k. unfold load_row. rewrite category_of_key_of.
  eexists. split; [reflexivity|]. intros c. unfold labels_of_rows. simpl.
  destruct (String.eqb_spec (key_of c0) (key_of c)) as [Heq|Hne].
  - apply key_of_inj in Heq. subst c0. rewrite lookup_store_same. reflexivity.
  - rewrite lookup_store_other; [simpl; rewrite app_nil_r; reflexivity|].
    intros ->. contradiction Hne. reflexivity.
Qed.

Lemma load_row_inv d row d' : load_row d row = inr d' -> row_ok row.
Proof.
  unfold load_row. destruct row as [|k rest]; [discriminate|].
  destruct (category_of_key k) as [c|] eqn:Hk; [|discriminate].
  destruct rest as [|v rest]; [discriminate|]. intros _.
  split; [simpl; lia|]. exists c. simpl. apply category_of_key_some. exact Hk.
Qed.

Lemma labels_of_rows_app r1 r2 c :
  labels_of_rows (r1 ++ r2) c = labels_of_rows r1 c ++ labels_of_rows r2 c.
Proof. unfold labels_of_rows. rewrite filter_app, map_app. reflexivity. Qed.

Lemma load_rows_ok rows :
  forall d, Forall row_ok rows ->
    exists d', load_rows d rows = inr d' /\
      forall c, lookup d' c = lookup d c ++ labels_of_rows rows c.
Proof.
  induction rows as [|row rows IH]; intros d Hall.
  - exists d. split; [reflexivity|]. intros c. unfold labels_of_rows. simpl.
    rewrite app_nil_r. reflexivity.
  - inversion Hall as [|? ? Hrow Hrest]; subst.
    destruct (load_row_ok d row Hrow) as (d1 & H1 & L1).
    destruct (IH d1 Hrest) as (d2 & H2 & L2).
    exists d2. simpl. rewrite H1. split; [exact H2|].
    intros c. rewrite L2, L1, <- app_assoc.
    rewrite <- (labels_of_rows_app [row] rows c). reflexivity.
Qed.

Lemma load_rows_inv rows : forall d d', load_rows d rows = inr d' -> Forall row_ok rows.
Proof.
  induction rows as [|row rows IH]; intros d d' H; [constructor|].
  simpl in H. destruct (load_row d row) as [e|d1] eqn:H1; [discriminate|].
  constructor; [exact (load_row_inv d row d1 H1)|exact (IH d1 d' H)].
Qed.

(** Loading succeeds exactly when the file has a first row - skipped
    whatever it holds - and every other row has at least two fields, the
    first one a key of the dictionary.  The list loaded under a key is then
    made of the second fields of the rows of that key, in file order, fields
    beyond the second being ignored. *)
Theorem load_labels_groups (file : list (list string)) :
  ((exists d, load_labels file = inr d) <-> file <> [] /\ Forall row_ok (tl file)) /\
  (forall d, load_labels file = inr d ->
     forall c, lookup d c = labels_of_rows (tl file) c).
Proof.
  destruct file as [|hd rows]; simpl.
  - split; [|discriminate]. split; [intros [d H]; discriminate H|intros [H _]; contradiction].
  - split.
    + split.
      * intros [d H]. split; [discriminate|exact (load_rows_inv rows _ d H)].
      * intros [_ H]. destruct (load_rows_ok rows empty_labels H) as (d & Hd & _).
        exists d. exact Hd.
    + intros d H c.
      destruct (load_rows_ok rows empty_labels (load_rows_inv rows _ d H)) as (d' & Hd & L).
      rewrite H in Hd. injection Hd as <-. rewrite L. destruct c; reflexivity.
Qed.

Lemma load_rows_bad good bad rest e :
  forall d, Forall row_ok good ->
    (forall d', load_row d' bad = inl e) ->
    load_rows d (good ++ bad :: rest) = inl e.
Proof.
  induction good as [|row good IH]; intros d Hall Hbad.
  - simpl. rewrite Hbad. reflexivity.
  - inversion Hall as [|? ? Hrow Hrest]; subst.
    destruct (load_row_ok d row Hrow) as (d1 & H1 & _).
    simpl. rewrite H1. apply IH; assumption.
Qed.

(** Loading stops on the first row it cannot take, nothing of the script
    being run: an empty file raises [StopIteration]; a row with no field
    raises [IndexError]; a row whose first field is no key raises
    [KeyError] on that field, even when the row has no second field; a row
    with a key and nothing else raises [IndexError]. *)
Theorem load_labels_first_bad_row (cfg : config) (random : nat -> nat)
    (head : list string) (good : list (list string)) (bad : list string)
    (rest : list (list string)) :
  Forall row_ok good ->
  script cfg [] random = LoadFailed StopIteration /\
  (bad = [] ->
   script cfg (head :: good ++ bad :: rest) random = LoadFailed RowIndexError) /\
  (forall k fields, bad = k :: fields -> category_of_key k = None ->
   script cfg (head :: good ++ bad :: rest) random = LoadFailed (KeyError k)) /\
  (forall c, bad = [key_of c] ->
   script cfg (head :: good ++ bad :: rest) random = LoadFailed RowIndexError).
Proof.
  intros Hgood. split; [reflexivity|].
  unfold script, load_labels. split; [|split].
  - intros ->. rewrite (load_rows_bad good [] rest RowIndexError); auto.
  - intros k fields -> Hk.
    rewrite (load_rows_bad good (k :: fields) rest (KeyError k)); auto.
    intros d'. simpl. rewrite Hk. reflexivity.
  - intros c ->.
    rewrite (load_rows_bad good [key_of c] rest RowIndexError); auto.
    intros d'. simpl. rewrite category_of_key_of. reflexivity.
Qed.

Lemma load_labels_first_bad_row_witness :
  Forall row_ok [["lambda_function"; "resize"; "unused"]] /\
  script script_config [] (fun n => n) = LoadFailed StopIteration /\
  script script_config
    [["type"; "label"]; ["lambda_function"; "resize"; "unused"]; ["queue"]; []]
    (fun n => n)
  = LoadFailed (KeyError "queue").
Proof.
  assert (H : Forall row_ok [["lambda_function"; "resize"; "unused"]]).
  { repeat constructor. exists lambda_function. reflexivity. }
  split; [exact H|].
  pose proof (load_labels_first_bad_row script_config (fun n => n) ["type"; "label"]
                [["lambda_function"; "resize"; "unused"]] ["queue"] [[]] H)
    as (H0 & _ & Hk & _).
  split; [exact H0|]. exact (Hk "queue" [] eq_refl eq_refl).
Defined.

(** From the rows of the label file to the end of the script: it reaches
    its end exactly when the file loads and the configuration is well
    served by the labels loaded; the random source has no say. *)
Theorem script_finishes_iff (cfg : config) (file : list (list string))
    (random : nat -> nat) :
  (exists s', script cfg file random = Ran (Ok tt s')) <->
  file <> [] /\ Forall row_ok (tl file) /\
  well_configured cfg (labels_of_rows (tl file)).
Proof.
  unfold script. destruct file as [|hd rows]; simpl.
  - split; [intros [s' H]; discriminate H|intros [H _]; contradiction].
  - split.
    + intros [s' H].
      destruct (load_rows empty_labels rows) as [e|d] eqn:Hd; [discriminate|].
      injection H as H.
      pose proof (load_rows_inv rows _ d Hd) as Hok.
      destruct (load_rows_ok rows empty_labels Hok) as (d' & Hd' & L).
      rewrite Hd in Hd'. injection Hd' as <-.
      split; [discriminate|]. split; [exact Hok|].
      pose proof (wp_generator_exact cfg (lookup d) random) as W.
      unfold wp in W. unfold run in H. rewrite H in W.
      apply predicted_none_iff in W.
      destruct W as (Hl & W). split; [|exact W].
      intros c. specialize (Hl c). rewrite L in Hl. destruct c; exact Hl.
    + intros (_ & Hok & Hw).
      destruct (load_rows_ok rows empty_labels Hok) as (d & Hd & L).
      rewrite Hd.
      assert (Hw' : well_configured cfg (lookup d)).
      { destruct Hw as (Hl & W). split; [|exact W].
        intros c. specialize (Hl c). rewrite L. destruct c; exact Hl. }
      destruct (run_succeeds cfg (lookup d) random Hw') as [s' Hs].
      exists s'. rewrite Hs. reflexivity.
Qed.

Example scenario_b_predicted :
  predicted_failure scenario_b_config scenario_b_labels = Some PoolExhaustedError.
Proof. vm_compute. reflexivity. Qed.

Example script_config_predicted : predicted_failure script_config sample_labels = None.
Proof. vm_compute. reflexivity. Qed.

(** * Shuffling and the order of the labels *)

(** Lines 28-31 never raise, whatever the label lists hold - empty lists
    included - and only reorder each list: no label is lost, added or moved
    to another category, and the tables and files are untouched. *)
Theorem shuffle_labels_permutes (s : state) :
  exists s',
    shuffle_labels s = Ok tt s' /\
    (forall c, Permutation (resource_labels s c) (resource_labels s' c)) /\
    nodes s' = nodes s /\ edges s' = edges s /\
    edge_counter s' = edge_counter s /\ files s' = files s.
Proof.
  pose proof (wp_shuffle_labels s (fun _ s' => shuffled_all s s') (fun _ _ => False)
                (fun s' H => H)) as H.
  unfold wp in H. destruct (shuffle_labels s) as [[] s'|e s']; [|contradiction].
  exists s'. destruct H as (N & (E & C & Fl) & P). auto 10.
Qed.

(** A finished run, seen from the state reached after lines 28-31. *)
Lemma run_from_shuffled (cfg : config) (labels : category -> list string)
    (random : nat -> nat) (u : unit) (s' : state) :
  run cfg labels random = Ok u s' ->
  exists s1 taken choices,
    shuffle_labels (initial_state labels random) = Ok tt s1 /\
    (forall c, length (taken c) = leaf_count cfg c) /\
    length choices = NUM_STORED_PROCS cfg /\
    nodes s' = node_table cfg taken choices /\
    (forall c, resource_labels s1 c = resource_labels s' c ++ rev (taken c)).
Proof.
  intros Hrun. unfold run, generator in Hrun. unfold bind at 1 in Hrun.
  pose proof (wp_shuffle_labels (initial_state labels random)
                (fun _ s => shuffled_all (initial_state labels random) s)
                (fun _ _ => True) (fun s H => H)) as W.
  unfold wp in W.
  destruct (shuffle_labels (initial_state labels random)) as [[] s1|e s1];
    [|discriminate Hrun].
  destruct W as (N1 & _ & _).
  assert (H : wp (build_nodes cfg ;; generate_edges cfg ;; write_outputs)
                (fun _ s' => exists taken choices,
                     (forall c, length (taken c) = leaf_count cfg c) /\
                     length choices = NUM_STORED_PROCS cfg /\
                     nodes s' = node_table cfg taken choices /\
                     (forall c, resource_labels s1 c
                                = resource_labels s' c ++ rev (taken c)))
                (fun _ _ => True) s1).
  { wp_step. apply wp_build_nodes; [|intros; exact I].
    intros s2 taken choices [Blen Bcl Bch Bn Bp (E2 & C2 & F2)].
    wp_step.
    apply (wp_conseq _ _ _ _ _ _
             (emits_generate_edges cfg (fun _ => True) (fun _ => I) (fun _ => I)
                (fun _ => I) (fun _ => I) (fun _ => I) (fun _ => I) s2));
      [|intros; exact I].
    intros _ s3 (g & (E3 & C3 & I3 & N3 & L3 & F3) & _).
    apply wp_write_outputs. intros s4 N4 E4 C4 L4 F4.
    exists taken, choices. split; [exact Blen|]. split; [exact Bcl|]. split.
    - rewrite N4, N3, Bn, N1. reflexivity.
    - intros c. rewrite L4, L3. apply Bp. }
  destruct (wp_ok _ _ _ _ _ _ H Hrun) as (taken & choices & H1 & H2 & H3 & H4).
  exists s1, taken, choices. auto.
Qed.

(** In a finished run the label lists as lines 28-31 left them are, for
    each category, the labels still in the list followed by the labels on
    the leaves read backwards from the last leaf created to the first: each
    leaf took the label that was then last in the list. *)
Theorem labels_assigned_from_the_end (cfg : config) (labels : category -> list string)
    (random : nat -> nat) (u : unit) (s' : state) :
  run cfg labels random = Ok u s' ->
  exists s1,
    shuffle_labels (initial_state labels random) = Ok tt s1 /\
    forall c,
      Permutation (labels c) (resource_labels s1 c) /\
      resource_labels s1 c = resource_labels s' c ++ rev (drawn_labels c (nodes s')).
Proof.
  intros Hrun.
  destruct (run_from_shuffled cfg labels random u s' Hrun)
    as (s1 & taken & choices & Hsh & Hlen & _ & Hn & Hp).
  exists s1. split; [exact Hsh|]. intros c. split.
  - pose proof (wp_shuffle_labels (initial_state labels random)
                  (fun _ s => shuffled_all (initial_state labels random) s)
                  (fun _ _ => True) (fun s H => H)) as W.
    unfold wp in W. rewrite Hsh in W. destruct W as (_ & _ & P).
    rewrite <- (resource_labels_initial labels random c). apply P.
  - rewrite Hn, (drawn_node_table cfg taken choices c Hlen). apply Hp.
Qed.

Lemma labels_assigned_from_the_end_witness :
  run script_config sample_labels sample_random = Ok tt sample_final /\
  exists s1,
    shuffle_labels (initial_state sample_labels sample_random) = Ok tt s1 /\
    forall c,
      Permutation (sample_labels c) (resource_labels s1 c) /\
      resource_labels s1 c
      = resource_labels sample_final c ++ rev (drawn_labels c (nodes sample_final)).
Proof.
  split; [exact sample_run_ok|].
  exact (labels_assigned_from_the_end script_config sample_labels sample_random tt
           sample_final sample_run_ok).
Defined.

(** Three container labels for one container: the leaf takes the label that
    lines 28-31 left last, and the two others stay, in order. *)
Definition spare_labels (c : category) : list string :=
  match c with
  | database_table => ["orders"; "users"]
  | lambda_function => ["resize"]
  | ecs_container => ["web"; "worker"; "cron"]
  | s3_object_store => []
  end.

Example last_label_taken_first :
  match shuffle_labels (initial_state spare_labels (fun n => n)) with
  | Ok _ s1 =>
      resource_labels s1 ecs_container = ["cron"; "worker"; "web"] /\
      drawn_labels ecs_container
        (nodes (final_state (run twin_config spare_labels (fun n => n)))) = ["web"] /\
      resource_labels (final_state (run twin_config spare_labels (fun n => n)))
        ecs_container = ["cron"; "worker"]
  | Raised _ _ => False
  end.
Proof. vm_compute. repeat split. Qed.

(** * Partitions *)






(** The engine that owns a stored procedure and the engine whose tables it
    executes on are picked independently (lines 76 and 112): in this run
    [stored_proc_2] belongs to [postgres] and executes on tables of
    [mysql]. *)
Example owner_and_executed_engine_differ :
  map belongs_to (filter (fun n => (node_id n =? "stored_proc_2")%string)
                    (nodes sample_final)) = ["postgres"] /\
  map target (edges_from "stored_proc_2" (edges_labeled "Executes" (edges sample_final)))
  = ["mysql_table_20"; "mysql_table_28"; "mysql_table_10"].
Proof. vm_compute. split; reflexivity. Qed.

(** * Flags and comments *)

(** What [add_node] makes of the arguments the script never passes a
    comment for, and of the boolean it is given. *)
Definition plain_node (n : node) : Prop :=
  (is_partition n = "true" \/ is_partition n = "false") /\ node_comment n = "".

Lemma db_nodes_plain (n : nat) (dbs : list string) :
  forall taken, Forall plain_node (db_nodes dbs n taken).
Proof.
  induction dbs as [|db dbs IH]; intros taken; simpl; [constructor|].
  constructor; [split; [left|]; reflexivity|]. apply Forall_app. split; [|apply IH].
  eapply Forall_impl; [|apply leaves_leaf_of].
  intros m (_ & Hp & _ & Hc). split; [right; exact Hp|exact Hc].
Qed.

Lemma leaves_plain idf ly parent a n taken :
  Forall plain_node (leaves idf ly parent a n taken).
Proof.
  eapply Forall_impl; [|apply leaves_leaf_of].
  intros m (_ & Hp & _ & Hc). split; [right; exact Hp|exact Hc].
Qed.

(** In the tables of a finished run the [is_partition] field of a node is
    one of the lowercase words [true] and [false], and no node and no edge
    has a comment. *)
Theorem flags_and_comments (cfg : config) (labels : category -> list string)
    (random : nat -> nat) (u : unit) (s' : state) :
  run cfg labels random = Ok u s' ->
  Forall (fun n => (is_partition n = "true" \/ is_partition n = "false") /\
                   node_comment n = "") (nodes s') /\
  Forall (fun e => edge_comment e = "") (edges s').
Proof.
  intros Hrun.
  destruct (run_inv _ _ _ _ _ Hrun) as (sh & taken & choices & g & R).
  split.
  - replace (nodes s') with (node_table cfg taken choices)
      by (rewrite (ran_nodes _ _ _ _ _ _ _ R); reflexivity).
    change (Forall plain_node (node_table cfg taken choices)).
    unfold node_table. repeat (apply Forall_app; split).
    + simpl. repeat (constructor; [split; [left|]; reflexivity|]). constructor.
    + apply db_nodes_plain.
    + apply leaves_plain.
    + apply leaves_plain.
    + eapply Forall_impl; [|apply proc_nodes_shape].
      intros m (_ & Hp & Hc). split; [right; exact Hp|exact Hc].
    + constructor; [|constructor]. split; [right|]; reflexivity.
    + apply leaves_plain.
  - replace (edges s') with g by (rewrite (ran_edges _ _ _ _ _ _ _ R); reflexivity).
    eapply Forall_impl; [|exact (edges_spec_kinds cfg g (ran_spec _ _ _ _ _ _ _ R))].
    intros e [t _ H|f t _ _ H|p t _ _ H|c l _ _ H|l c _ _ H|b svc _ _ H];
      exact (proj2 (proj2 (proj2 (proj2 H)))).
Qed.

Lemma flags_and_comments_witness :
  run script_config sample_labels sample_random = Ok tt sample_final /\
  Forall (fun n => (is_partition n = "true" \/ is_partition n = "false") /\
                   node_comment n = "") (nodes sample_final) /\
  Forall (fun e => edge_comment e = "") (edges sample_final).
Proof.
  split; [exact sample_run_ok|].
  exact (flags_and_comments script_config sample_labels sample_random tt sample_final
           sample_run_ok).
Defined.

(** * Routing and binding scenarios *)

(** As many routes as there are services (10 functions and 2 containers). *)
Definition scenario_c_config : config := {|
  NUM_TABLES_PER_DB := 3;
  NUM_LAMBDAS := 10;
  NUM_CONTAINERS := 2;
  NUM_STORED_PROCS := 2;
  NUM_API_GATEWAY_TARGETS := 12;
  NUM_S3_BUCKETS := 4;
  DBS := ["mysql"; "postgres"]
|}.

(** More routes than services (8 functions and 2 containers). *)
Definition scenario_d_config : config := {|
  NUM_TABLES_PER_DB := 3;
  NUM_LAMBDAS := 8;
  NUM_CONTAINERS := 2;
  NUM_STORED_PROCS := 2;
  NUM_API_GATEWAY_TARGETS := 12;
  NUM_S3_BUCKETS := 4;
  DBS := ["mysql"; "postgres"]
|}.

(** More object stores than services. *)
Definition crowded_config : config := {|
  NUM_TABLES_PER_DB := 3;
  NUM_LAMBDAS := 2;
  NUM_CONTAINERS := 1;
  NUM_STORED_PROCS := 2;
  NUM_API_GATEWAY_TARGETS := 2;
  NUM_S3_BUCKETS := 4;
  DBS := ["mysql"; "postgres"]
|}.

Definition scenario_c_final : state :=
  final_state (run scenario_c_config sample_labels sample_random).

Lemma scenario_c_run_ok :
  run scenario_c_config sample_labels sample_random = Ok tt scenario_c_final.
Proof. vm_compute. reflexivity. Qed.

Lemma gateway_routing_without_replacement_witness :
  (run scenario_c_config sample_labels sample_random = Ok tt scenario_c_final /\
   NUM_API_GATEWAY_TARGETS scenario_c_config = length (service_ids scenario_c_config) /\
   length (edges_labeled "API Route" (edges scenario_c_final)) = 12 /\
   NoDup (map target (edges_labeled "API Route" (edges scenario_c_final))) /\
   Permutation (service_ids scenario_c_config)
     (map target (edges_labeled "API Route" (edges scenario_c_final)))) /\
  (length (service_ids scenario_d_config) < NUM_API_GATEWAY_TARGETS scenario_d_config /\
   exists e s',
     run scenario_d_config sample_labels sample_random = Raised e s' /\
     edges s' = [] /\ files s' = [] /\
     ((forall c, leaf_count scenario_d_config c <= length (sample_labels c)) ->
      DBS scenario_d_config <> [] \/ NUM_STORED_PROCS scenario_d_config = 0 ->
      e = InsufficientPopulationError)).
Proof.
  split.
  - split; [exact scenario_c_run_ok|]. split; [reflexivity|].
    destruct (proj1 (gateway_routing_without_replacement scenario_c_config sample_labels
                       sample_random) tt scenario_c_final scenario_c_run_ok)
      as (_ & Hlen & _ & Hnd & _ & Hperm).
    split; [exact Hlen|]. split; [exact Hnd|]. apply Hperm. reflexivity.
  - assert (H : length (service_ids scenario_d_config)
                < NUM_API_GATEWAY_TARGETS scenario_d_config) by (simpl; lia).
    split; [exact H|].
    exact (proj2 (proj2 (proj2 (gateway_routing_without_replacement scenario_d_config
                                  sample_labels sample_random)) H)).
Defined.

Lemma storage_bindings_without_replacement_witness :
  (run script_config sample_labels sample_random = Ok tt sample_final /\
   length (edges_labeled "Stores/Reads" (edges sample_final)) = 15 /\
   map target (edges_labeled "Stores/Reads" (edges sample_final))
   = map node_id (leaf_rows s3_object_store (nodes sample_final)) /\
   NoDup (map source (edges_labeled "Stores/Reads" (edges sample_final)))) /\
  (length (service_ids crowded_config) < NUM_S3_BUCKETS crowded_config /\
   exists e s',
     run crowded_config sample_labels sample_random = Raised e s' /\ files s' = [] /\
     ((forall c, leaf_count crowded_config c <= length (sample_labels c)) ->
      DBS crowded_config <> [] -> 1 <= NUM_TABLES_PER_DB crowded_config ->
      1 <= NUM_LAMBDAS crowded_config -> 1 <= NUM_CONTAINERS crowded_config ->
      e = InsufficientPopulationError)).
Proof.
  split.
  - split; [exact sample_run_ok|].
    destruct (proj1 (storage_bindings_without_replacement script_config sample_labels
                       sample_random) tt sample_final sample_run_ok)
      as (Hlen & _ & Ht & _ & Hnd & _).
    split; [exact Hlen|]. split; [exact Ht|exact Hnd].
  - assert (H : length (service_ids crowded_config) < NUM_S3_BUCKETS crowded_config)
      by (simpl; lia).
    split; [exact H|].
    exact (proj2 (proj2 (proj2 (storage_bindings_without_replacement crowded_config
                                  sample_labels sample_random)) H)).
Defined.

(** The two failing scenarios, evaluated. *)
Example scenario_d_evaluated :
  match run scenario_d_config sample_labels sample_random with
  | Raised e s' =>
      e = InsufficientPopulationError /\ length (nodes s') = 32 /\
      edges s' = [] /\ files s' = []
  | Ok _ _ => False
  end.
Proof. vm_compute. repeat split. Qed.

Example crowded_evaluated :
  match run crowded_config sample_labels sample_random with
  | Raised e s' =>
      e = InsufficientPopulationError /\
      length (edges_labeled "Stores/Reads" (edges s')) = 0 /\ files s' = []
  | Ok _ _ => False
  end.
Proof. vm_compute. repeat split. Qed.
